(** * bakemono: the simulation core of [src/app/components/Game.tsx]

    A shallow embedding of the per-frame simulation of the game component
    (first variant of the file: lines 1-1205) and the properties of its
    upgrade actions, spawn director and combat resolver.

    Modelling conventions.
    - A JavaScript [number] is a real number ([R]): arithmetic is exact,
      there is no rounding, no [NaN] and no [Infinity].  [Math.floor] is
      [Zfloor], [Math.sqrt] is [sqrt].
    - Fields that only ever hold integers obtained by [+= 1] or by
      [Math.floor] (upgrade levels, enemy level, score) are [Z], injected
      into [R] with [IZR] where the source mixes them with other numbers.
    - An optional field ([lastShootTime?: number]) is an [option].
    - [Math.random()] is a stream [nat -> R] read through a cursor;
      [Date.now()] readings are arguments.
    - The refs ([playerRef], [enemiesRef], [projectilesRef], ...) are passed
      explicitly; an array is a [list], [splice(i, 1)] is [removeAt i].
    - Where a property turns on exactness, the arithmetic is given a second
      time in IEEE binary64, as JavaScript evaluates it (module
      [Binary64]). *)

From Stdlib Require Import Reals Lra Lia ZArith List Bool Psatz.
From Stdlib Require Import Sorting.Permutation Sorting.Sorted.
From Stdlib Require String.
From Stdlib Require Floats.PrimFloat Floats.FloatOps Floats.SpecFloat.
Import String.StringSyntax.
Delimit Scope string_scope with string.
Import ListNotations.

Open Scope R_scope.

(** ** Constants (Game.tsx lines 5-64) *)

Definition WAVE_SCALING_FACTOR : Z := 100.
Definition DIFFICULTY_SCALING_FACTOR : R := 500.
Definition SATURATION : R := 70.
Definition BASE_LIGHTNESS : R := 50.
Definition DIFFICULTY_LIGHTNESS_REDUCTION : R := 5.

Definition BASE_DRAIN_RATE : R := 1.
Definition DRAIN_RATE_PER_LEVEL : R := 0.5.
Definition BLOOD_RECOVERY_MULTIPLIER : R := 0.5.
Definition BLOOD_GAUGE_DISPLAY_REFERENCE : R := 100.

Definition ATTACK_UPGRADE_BASE_COST : R := 50.
Definition DAMAGE_INCREASE_PER_LEVEL : R := 5.
Definition ATTACK_RANGE_INCREASE_PER_LEVEL : R := 20.
Definition MOVEMENT_SPEED_INCREASE_PER_LEVEL : R := 0.5.
Definition PROJECTILE_DAMAGE_BASE : R := 15.
Definition PROJECTILE_DAMAGE_INCREASE_PER_LEVEL : R := 5.
Definition PROJECTILE_SPEED_PLAYER : R := 8.
Definition PROJECTILE_COOLDOWN_BASE : R := 300.
Definition PROJECTILE_COOLDOWN_REDUCTION_PER_LEVEL : R := 15.
Definition PROJECTILE_COOLDOWN_MIN : R := 100.
Definition PROJECTILE_COUNT_BASE : Z := 1.
Definition PROJECTILE_COUNT_INCREASE_INTERVAL : Z := 3.
Definition PROJECTILE_HOMING_LEVEL : Z := 10.
Definition PROJECTILE_HOMING_STRENGTH : R := 0.15.

Definition DARKNESS_RISE_SPEED : R := 0.5.
Definition DARKNESS_START_OFFSET : R := 200.

Definition ENEMY_LEVEL_ALTITUDE_INTERVAL : R := 500.
Definition RANGED_DISTANCE_THRESHOLD : R := 50.
Definition RANGED_ENEMY_SHOOT_COOLDOWN : R := 2000.
Definition RANGED_ENEMY_PREFERRED_DISTANCE : R := 200.
Definition PROJECTILE_DAMAGE_MULTIPLIER : R := 0.5.
Definition PROJECTILE_SPEED : R := 3.
Definition EXPLOSIVE_EXPLOSION_RADIUS : R := 100.
Definition EXPLOSIVE_TRIGGER_DISTANCE : R := 80.
Definition EXPLOSIVE_DAMAGE_MULTIPLIER : R := 3.
Definition CHASER_TRAIL_COOLDOWN : R := 500.
Definition CHASER_TRAIL_DAMAGE_MULTIPLIER : R := 0.3.
Definition CHASER_TRAIL_SPEED_MULTIPLIER : R := 0.5.

Definition LEVEL_10_19_MELEE_PROBABILITY : R := 0.4.
Definition LEVEL_10_19_RANGED_PROBABILITY : R := 0.7.
Definition LEVEL_20_PLUS_MELEE_PROBABILITY : R := 0.3.
Definition LEVEL_20_PLUS_RANGED_PROBABILITY : R := 0.55.
Definition LEVEL_20_PLUS_EXPLOSIVE_PROBABILITY : R := 0.8.

(** ** JavaScript helpers *)

(** [a || d] on an optional number: [undefined] and [0] are falsy. *)
Definition orDefault (a : option R) (d : R) : R :=
  match a with
  | Some r => if Req_dec_T r 0 then d else r
  | None => d
  end.

(** Truthiness of an optional boolean field ([undefined] is falsy). *)
Definition truthy (b : option bool) : bool :=
  match b with
  | Some true => true
  | _ => false
  end.

(** [arr.splice(i, 1)]: removes the element at index [i], if there is one. *)
Fixpoint removeAt {A : Type} (i : nat) (l : list A) : list A :=
  match l, i with
  | [], _ => []
  | _ :: t, O => t
  | h :: t, S j => h :: removeAt j t
  end.

(** [arr[i] = v] for an index inside the array. *)
Fixpoint setAt {A : Type} (i : nat) (v : A) (l : list A) : list A :=
  match l, i with
  | [], _ => []
  | _ :: t, O => v :: t
  | h :: t, S j => h :: setAt j v t
  end.

(** ** Data model (Game.tsx lines 66-120) *)

Module Player.
Record t : Type := mk {
    x : R; y : R; vx : R; vy : R; radius : R;
    bloodGauge : R;
    attackRadius : R;
    attackDamage : R;
    attackCooldown : R;
    lastAttackTime : R;
    attackLevel : Z;
    rangeLevel : Z;
    speedLevel : Z;
    projectileLevel : Z;
    lastProjectileTime : R;
    baseSpeed : R
  }.

Definition set_x (v : R) (p : t) : t :=
    mk v (y p) (vx p) (vy p) (radius p) (bloodGauge p) (attackRadius p)
       (attackDamage p) (attackCooldown p) (lastAttackTime p) (attackLevel p)
       (rangeLevel p) (speedLevel p) (projectileLevel p)
       (lastProjectileTime p) (baseSpeed p).
Definition set_y (v : R) (p : t) : t :=
    mk (x p) v (vx p) (vy p) (radius p) (bloodGauge p) (attackRadius p)
       (attackDamage p) (attackCooldown p) (lastAttackTime p) (attackLevel p)
       (rangeLevel p) (speedLevel p) (projectileLevel p)
       (lastProjectileTime p) (baseSpeed p).
Definition set_vx (v : R) (p : t) : t :=
    mk (x p) (y p) v (vy p) (radius p) (bloodGauge p) (attackRadius p)
       (attackDamage p) (attackCooldown p) (lastAttackTime p) (attackLevel p)
       (rangeLevel p) (speedLevel p) (projectileLevel p)
       (lastProjectileTime p) (baseSpeed p).
Definition set_vy (v : R) (p : t) : t :=
    mk (x p) (y p) (vx p) v (radius p) (bloodGauge p) (attackRadius p)
       (attackDamage p) (attackCooldown p) (lastAttackTime p) (attackLevel p)
       (rangeLevel p) (speedLevel p) (projectileLevel p)
       (lastProjectileTime p) (baseSpeed p).
Definition set_bloodGauge (v : R) (p : t) : t :=
    mk (x p) (y p) (vx p) (vy p) (radius p) v (attackRadius p)
       (attackDamage p) (attackCooldown p) (lastAttackTime p) (attackLevel p)
       (rangeLevel p) (speedLevel p) (projectileLevel p)
       (lastProjectileTime p) (baseSpeed p).
Definition set_attackRadius (v : R) (p : t) : t :=
    mk (x p) (y p) (vx p) (vy p) (radius p) (bloodGauge p) v
       (attackDamage p) (attackCooldown p) (lastAttackTime p) (attackLevel p)
       (rangeLevel p) (speedLevel p) (projectileLevel p)
       (lastProjectileTime p) (baseSpeed p).
Definition set_attackDamage (v : R) (p : t) : t :=
    mk (x p) (y p) (vx p) (vy p) (radius p) (bloodGauge p) (attackRadius p)
       v (attackCooldown p) (lastAttackTime p) (attackLevel p)
       (rangeLevel p) (speedLevel p) (projectileLevel p)
       (lastProjectileTime p) (baseSpeed p).
Definition set_lastAttackTime (v : R) (p : t) : t :=
    mk (x p) (y p) (vx p) (vy p) (radius p) (bloodGauge p) (attackRadius p)
       (attackDamage p) (attackCooldown p) v (attackLevel p)
       (rangeLevel p) (speedLevel p) (projectileLevel p)
       (lastProjectileTime p) (baseSpeed p).
Definition set_attackLevel (v : Z) (p : t) : t :=
    mk (x p) (y p) (vx p) (vy p) (radius p) (bloodGauge p) (attackRadius p)
       (attackDamage p) (attackCooldown p) (lastAttackTime p) v
       (rangeLevel p) (speedLevel p) (projectileLevel p)
       (lastProjectileTime p) (baseSpeed p).
Definition set_rangeLevel (v : Z) (p : t) : t :=
    mk (x p) (y p) (vx p) (vy p) (radius p) (bloodGauge p) (attackRadius p)
       (attackDamage p) (attackCooldown p) (lastAttackTime p) (attackLevel p)
       v (speedLevel p) (projectileLevel p)
       (lastProjectileTime p) (baseSpeed p).
Definition set_speedLevel (v : Z) (p : t) : t :=
    mk (x p) (y p) (vx p) (vy p) (radius p) (bloodGauge p) (attackRadius p)
       (attackDamage p) (attackCooldown p) (lastAttackTime p) (attackLevel p)
       (rangeLevel p) v (projectileLevel p)
       (lastProjectileTime p) (baseSpeed p).
Definition set_projectileLevel (v : Z) (p : t) : t :=
    mk (x p) (y p) (vx p) (vy p) (radius p) (bloodGauge p) (attackRadius p)
       (attackDamage p) (attackCooldown p) (lastAttackTime p) (attackLevel p)
       (rangeLevel p) (speedLevel p) v
       (lastProjectileTime p) (baseSpeed p).
Definition set_lastProjectileTime (v : R) (p : t) : t :=
    mk (x p) (y p) (vx p) (vy p) (radius p) (bloodGauge p) (attackRadius p)
       (attackDamage p) (attackCooldown p) (lastAttackTime p) (attackLevel p)
       (rangeLevel p) (speedLevel p) (projectileLevel p)
       v (baseSpeed p).

  (** [playerRef]'s initial value (lines 133-150). *)
Definition initial : t :=
    mk 0 0 0 0 20 100 150 10 500 0 0%Z 0%Z 0%Z 0%Z 0 5.
End Player.

Inductive EnemyType : Type := melee | ranged | explosive | chaser.

(** A CSS colour: the template literal [hsl(h, s%, l%)] of the spawn
    director, or a hexadecimal literal. Colours are cosmetic. *)
Inductive Color : Type :=
| hsl (h s l : R)
| hex (code : String.string).

Module Enemy.
Record t : Type := mk {
    x : R; y : R; vx : R; vy : R; radius : R;
    health : R;
    maxHealth : R;
    damage : R;
    speed : R;
    color : Color;
    level : Z;
    type : EnemyType;
    lastShootTime : option R;
    shootCooldown : option R;
    preferredDistance : option R;
    explosionRadius : option R;
    exploded : option bool;
    trailCooldown : option R;
    lastTrailTime : option R
  }.

Definition set_pos (nx ny : R) (e : t) : t :=
    mk nx ny (vx e) (vy e) (radius e) (health e) (maxHealth e) (damage e)
       (speed e) (color e) (level e) (type e) (lastShootTime e)
       (shootCooldown e) (preferredDistance e) (explosionRadius e)
       (exploded e) (trailCooldown e) (lastTrailTime e).
Definition set_vel (nvx nvy : R) (e : t) : t :=
    mk (x e) (y e) nvx nvy (radius e) (health e) (maxHealth e) (damage e)
       (speed e) (color e) (level e) (type e) (lastShootTime e)
       (shootCooldown e) (preferredDistance e) (explosionRadius e)
       (exploded e) (trailCooldown e) (lastTrailTime e).
Definition set_health (v : R) (e : t) : t :=
    mk (x e) (y e) (vx e) (vy e) (radius e) v (maxHealth e) (damage e)
       (speed e) (color e) (level e) (type e) (lastShootTime e)
       (shootCooldown e) (preferredDistance e) (explosionRadius e)
       (exploded e) (trailCooldown e) (lastTrailTime e).
Definition set_lastShootTime (v : option R) (e : t) : t :=
    mk (x e) (y e) (vx e) (vy e) (radius e) (health e) (maxHealth e)
       (damage e) (speed e) (color e) (level e) (type e) v
       (shootCooldown e) (preferredDistance e) (explosionRadius e)
       (exploded e) (trailCooldown e) (lastTrailTime e).
Definition set_exploded (v : option bool) (e : t) : t :=
    mk (x e) (y e) (vx e) (vy e) (radius e) (health e) (maxHealth e)
       (damage e) (speed e) (color e) (level e) (type e) (lastShootTime e)
       (shootCooldown e) (preferredDistance e) (explosionRadius e)
       v (trailCooldown e) (lastTrailTime e).
Definition set_lastTrailTime (v : option R) (e : t) : t :=
    mk (x e) (y e) (vx e) (vy e) (radius e) (health e) (maxHealth e)
       (damage e) (speed e) (color e) (level e) (type e) (lastShootTime e)
       (shootCooldown e) (preferredDistance e) (explosionRadius e)
       (exploded e) (trailCooldown e) v.
End Enemy.

Module Projectile.
Record t : Type := mk {
    x : R; y : R; vx : R; vy : R; radius : R;
    damage : R;
    color : Color;
    fromPlayer : option bool;
    homing : option bool
  }.

Definition set_pos (nx ny : R) (p : t) : t :=
    mk nx ny (vx p) (vy p) (radius p) (damage p) (color p) (fromPlayer p)
       (homing p).
Definition set_vel (nvx nvy : R) (p : t) : t :=
    mk (x p) (y p) nvx nvy (radius p) (damage p) (color p) (fromPlayer p)
       (homing p).
End Projectile.

(** The part of [canvasRef.current] the simulation reads. *)
Record Canvas : Type := mkCanvas { width : R; height : R }.

Inductive GameState : Type := start | playing | gameover.

(** ** Upgrade actions (Game.tsx lines 804-853) *)

Definition strengthenAttack (player : Player.t) : Player.t :=
  let cost := ATTACK_UPGRADE_BASE_COST * IZR (Player.attackLevel player + 1) in
  if Rge_dec (Player.bloodGauge player) cost then
    let player := Player.set_bloodGauge (Player.bloodGauge player - cost) player in
    let player := Player.set_attackLevel (Player.attackLevel player + 1) player in
    Player.set_attackDamage (Player.attackDamage player + DAMAGE_INCREASE_PER_LEVEL) player
  else player.

Definition strengthenRange (player : Player.t) : Player.t :=
  let cost := ATTACK_UPGRADE_BASE_COST * IZR (Player.rangeLevel player + 1) in
  if Rge_dec (Player.bloodGauge player) cost then
    let player := Player.set_bloodGauge (Player.bloodGauge player - cost) player in
    let player := Player.set_rangeLevel (Player.rangeLevel player + 1) player in
    Player.set_attackRadius (Player.attackRadius player + ATTACK_RANGE_INCREASE_PER_LEVEL) player
  else player.

Definition strengthenSpeed (player : Player.t) : Player.t :=
  let cost := ATTACK_UPGRADE_BASE_COST * IZR (Player.speedLevel player + 1) in
  if Rge_dec (Player.bloodGauge player) cost then
    let player := Player.set_bloodGauge (Player.bloodGauge player - cost) player in
    Player.set_speedLevel (Player.speedLevel player + 1) player
  else player.

Definition strengthenProjectile (player : Player.t) : Player.t :=
  let cost := ATTACK_UPGRADE_BASE_COST * IZR (Player.projectileLevel player + 1) in
  if Rge_dec (Player.bloodGauge player) cost then
    let player := Player.set_bloodGauge (Player.bloodGauge player - cost) player in
    Player.set_projectileLevel (Player.projectileLevel player + 1) player
  else player.

(** The four upgrade tracks and the action of each. *)
Inductive Track : Type := AttackTrack | RangeTrack | SpeedTrack | ProjectileTrack.

Definition upgrade (track : Track) : Player.t -> Player.t :=
  match track with
  | AttackTrack => strengthenAttack
  | RangeTrack => strengthenRange
  | SpeedTrack => strengthenSpeed
  | ProjectileTrack => strengthenProjectile
  end.

Definition trackLevel (track : Track) (player : Player.t) : Z :=
  match track with
  | AttackTrack => Player.attackLevel player
  | RangeTrack => Player.rangeLevel player
  | SpeedTrack => Player.speedLevel player
  | ProjectileTrack => Player.projectileLevel player
  end.

(** The movement speed [update] derives from the speed track (line 310). *)
Definition moveSpeed (player : Player.t) : R :=
  Player.baseSpeed player
  + IZR (Player.speedLevel player) * MOVEMENT_SPEED_INCREASE_PER_LEVEL.

(** ** Spawn director (Game.tsx lines 699-802) *)

(** Line 721: the level of an enemy spawned at ordinate [spawnY]. *)
Definition enemyLevelAt (spawnY : R) : Z :=
  Z.max 1 (Zfloor (- spawnY / ENEMY_LEVEL_ALTITUDE_INTERVAL) + 1).

(** Lines 728-758. [rand] is the stream of [Math.random()] results and [k]
    the next unread position; the result carries the new position. *)
Definition chooseEnemyType (enemyLevel : Z) (rand : nat -> R) (k : nat)
  : EnemyType * nat :=
  if (enemyLevel <=? 5)%Z then (melee, k)
  else if (enemyLevel <=? 9)%Z then
    (if Rlt_dec (rand k) 0.5 then melee else ranged, S k)
  else if (enemyLevel <=? 19)%Z then
    let r := rand k in
    (if Rlt_dec r LEVEL_10_19_MELEE_PROBABILITY then melee
     else if Rlt_dec r LEVEL_10_19_RANGED_PROBABILITY then ranged
     else explosive, S k)
  else
    let r := rand k in
    (if Rlt_dec r LEVEL_20_PLUS_MELEE_PROBABILITY then melee
     else if Rlt_dec r LEVEL_20_PLUS_RANGED_PROBABILITY then ranged
     else if Rlt_dec r LEVEL_20_PLUS_EXPLOSIVE_PROBABILITY then explosive
     else chaser, S k).

(** Lines 761-776: speed and colour by type; [r] is the random draw. *)
Definition enemySpeed (enemyType : EnemyType) (difficulty r : R) : R :=
  match enemyType with
  | melee => 1 + r * 2 * difficulty
  | ranged => 0.8 + r * 1.2 * difficulty
  | explosive => 1.5 + r * 2 * difficulty
  | chaser => 2 + r * 2.5 * difficulty
  end.

Definition enemyColor (enemyType : EnemyType) (difficulty : R) : Color :=
  let lightness := BASE_LIGHTNESS - difficulty * DIFFICULTY_LIGHTNESS_REDUCTION in
  match enemyType with
  | melee => hsl 0 SATURATION lightness
  | ranged => hsl 240 SATURATION lightness
  | explosive => hsl 30 SATURATION lightness
  | chaser => hsl 280 SATURATION lightness
  end.

Definition ifType (a b : EnemyType) {A : Type} (v : A) : option A :=
  match a, b with
  | melee, melee | ranged, ranged | explosive, explosive | chaser, chaser => Some v
  | _, _ => None
  end.

(** One iteration of the spawn loop (lines 715-800). [score] is the
    component's [score] state as the closure sees it, [now] the reading of
    [Date.now()] during this iteration. *)
Definition spawnEnemy (canvas : Canvas) (player : Player.t) (score : Z)
    (rand : nat -> R) (now : R) (k : nat) : Enemy.t * nat :=
  let difficulty := 1 + IZR score / DIFFICULTY_SCALING_FACTOR in
  let spawnY := Player.y player - height canvas / 2 - 100 - rand k * 200 in
  let spawnX := rand (S k) * width canvas in
  let enemyLevel := enemyLevelAt spawnY in
  let '(enemyType, k1) := chooseEnemyType enemyLevel rand (S (S k)) in
  let speed := enemySpeed enemyType difficulty (rand k1) in
  let color := enemyColor enemyType difficulty in
  (Enemy.mk spawnX spawnY 0 0
     (15 + rand (S k1) * 5 * difficulty)
     (30 * difficulty * IZR enemyLevel)
     (30 * difficulty * IZR enemyLevel)
     (5 * difficulty * IZR enemyLevel)
     speed color enemyLevel enemyType
     (ifType enemyType ranged now)
     (ifType enemyType ranged RANGED_ENEMY_SHOOT_COOLDOWN)
     (ifType enemyType ranged RANGED_ENEMY_PREFERRED_DISTANCE)
     (ifType enemyType explosive EXPLOSIVE_EXPLOSION_RADIUS)
     (ifType enemyType explosive false)
     (ifType enemyType chaser CHASER_TRAIL_COOLDOWN)
     (ifType enemyType chaser now),
   S (S k1)).

(** Lines 707-711. *)
Definition waveCount (player : Player.t) (score : Z) : Z :=
  let altitude := Rmax 0 (- Player.y player) in
  let minEnemyCount := 1%Z in
  let altitudeMultiplier := Zfloor (altitude / 300) in
  let scoreMultiplier := Zfloor (IZR score / IZR WAVE_SCALING_FACTOR) in
  (minEnemyCount + altitudeMultiplier + scoreMultiplier)%Z.

(** The loop [for (let i = 0; i < waveCount; i++)], with [n] iterations
    left; [now i] is the clock reading during iteration [i]. *)
Fixpoint spawnLoop (n : nat) (canvas : Canvas) (player : Player.t) (score : Z)
    (rand : nat -> R) (now : nat -> R) (i k : nat) (enemies : list Enemy.t)
  : list Enemy.t * nat :=
  match n with
  | O => (enemies, k)
  | S n' =>
      let '(enemy, k') := spawnEnemy canvas player score rand (now i) k in
      spawnLoop n' canvas player score rand now (S i) k' (enemies ++ [enemy])
  end.

(** [spawnEnemyWave]: returns the new contents of [enemiesRef.current] and
    the new position in the random stream. *)
Definition spawnEnemyWave (canvas : option Canvas) (player : Player.t)
    (score : Z) (rand : nat -> R) (now : nat -> R) (k : nat)
    (enemies : list Enemy.t) : list Enemy.t * nat :=
  match canvas with
  | None => (enemies, k)
  | Some canvas =>
      spawnLoop (Z.to_nat (waveCount player score)) canvas player score
                rand now 0 k enemies
  end.

(** ** Player ranged fire (Game.tsx lines 319-392) *)

(** An entry of the [targets] array: an enemy, or the bare point
    [{x, y} as Enemy] of the fan-out. Only [x] and [y] are read. *)
Inductive Target : Type :=
| EnemyTarget (enemy : Enemy.t)
| PointTarget (x y : R).

Definition target_x (t : Target) : R :=
  match t with EnemyTarget e => Enemy.x e | PointTarget x _ => x end.
Definition target_y (t : Target) : R :=
  match t with EnemyTarget e => Enemy.y e | PointTarget _ y => y end.

(** The sort key of lines 338-339. *)
Definition distanceFromPlayer (player : Player.t) (a : Enemy.t) : R :=
  sqrt ((Enemy.x a - Player.x player) ^ 2 + (Enemy.y a - Player.y player) ^ 2).

(** [Array.prototype.sort] with the comparator [key a - key b]: a stable
    sort by increasing key, here by stable insertion. *)
Fixpoint insertByKey {A : Type} (key : A -> R) (a : A) (l : list A) : list A :=
  match l with
  | [] => [a]
  | h :: t => if Rle_dec (key a) (key h) then a :: h :: t
              else h :: insertByKey key a t
  end.

Definition sortByKey {A : Type} (key : A -> R) (l : list A) : list A :=
  fold_right (insertByKey key) [] l.

(** Lines 344-346. *)
Definition nearestTargets (projectileCount : Z) (sortedEnemies : list Enemy.t)
  : list Target :=
  map EnemyTarget
      (firstn (Z.to_nat (Z.min projectileCount (Z.of_nat (length sortedEnemies))))
              sortedEnemies).

(** Lines 350-357. *)
Definition fanTargets (player : Player.t) (projectileCount : Z) : list Target :=
  let angleStep := (PI * 2) / Rmax (IZR projectileCount) 8 in
  map (fun i : nat =>
         let angle := angleStep * INR i - PI / 2 in
         PointTarget (Player.x player + cos angle * 100)
                     (Player.y player + sin angle * 100))
      (seq 0 (Z.to_nat projectileCount)).

(** Lines 365-374: the velocity of a projectile fired at [target]. *)
Definition aimAt (player : Player.t) (target : Target) : R * R :=
  let dx := target_x target - Player.x player in
  let dy := target_y target - Player.y player in
  let distance := sqrt (dx * dx + dy * dy) in
  if Rgt_dec distance 0 then
    ((dx / distance) * PROJECTILE_SPEED_PLAYER, (dy / distance) * PROJECTILE_SPEED_PLAYER)
  else (0, - PROJECTILE_SPEED_PLAYER).

Definition projectileCountOf (player : Player.t) : Z :=
  (PROJECTILE_COUNT_BASE
   + Zfloor (IZR (Player.projectileLevel player - 1)
             / IZR PROJECTILE_COUNT_INCREASE_INTERVAL))%Z.

(** Lines 333-358: the targets of one activation. *)
Definition selectTargets (player : Player.t) (enemies : list Enemy.t) : list Target :=
  let projectileCount := projectileCountOf player in
  let sortedEnemies := sortByKey (distanceFromPlayer player) enemies in
  let targets := nearestTargets projectileCount sortedEnemies in
  if (length targets =? 0)%nat && (0 <? projectileCount)%Z
  then targets ++ fanTargets player projectileCount
  else targets.

(** Lines 361-388: one projectile per target. *)
Definition fireAt (player : Player.t) (target : Target) : Projectile.t :=
  let projectileDamage :=
    PROJECTILE_DAMAGE_BASE
    + IZR (Player.projectileLevel player - 1) * PROJECTILE_DAMAGE_INCREASE_PER_LEVEL in
  let hasHoming := (PROJECTILE_HOMING_LEVEL <=? Player.projectileLevel player)%Z in
  let '(vx, vy) := aimAt player target in
  Projectile.mk (Player.x player) (Player.y player) vx vy 6 projectileDamage
    (if hasHoming then hex "#ff00ff"%string else hex "#ffff00"%string)
    (Some true) (Some hasHoming).

Definition projectileCooldown (player : Player.t) : R :=
  Rmax PROJECTILE_COOLDOWN_MIN
       (PROJECTILE_COOLDOWN_BASE
        - IZR (Player.projectileLevel player - 1) * PROJECTILE_COOLDOWN_REDUCTION_PER_LEVEL).

(** Whether ranged fire triggers at clock reading [currentTime]
    (lines 320 and 328). *)
Definition fireTriggers (player : Player.t) (currentTime : R) : bool :=
  (0 <? Player.projectileLevel player)%Z
  && (if Rgt_dec (currentTime - Player.lastProjectileTime player)
                 (projectileCooldown player)
      then true else false).

(** The projectiles one activation pushes. *)
Definition volley (player : Player.t) (enemies : list Enemy.t) : list Projectile.t :=
  map (fireAt player) (selectTargets player enemies).

(** Lines 320-392. *)
Definition autoFire (player : Player.t) (enemies : list Enemy.t)
    (projectiles : list Projectile.t) (currentTime : R)
  : Player.t * list Projectile.t :=
  if fireTriggers player currentTime then
    (Player.set_lastProjectileTime currentTime player,
     projectiles ++ volley player enemies)
  else (player, projectiles).

(** ** Enemy update (Game.tsx lines 433-573) *)

(** [player.bloodGauge -= amount; if (player.bloodGauge <= 0)
    setGameState('gameover')], the shape of every damage site. *)
Definition hurt (amount : R) (player : Player.t) (gameState : GameState)
  : Player.t * GameState :=
  let player := Player.set_bloodGauge (Player.bloodGauge player - amount) player in
  (player, if Rle_dec (Player.bloodGauge player) 0 then gameover else gameState).

(** [if (distance > 0) { enemy.vx = (dx / distance) * enemy.speed; ... }] *)
Definition chase (dx dy distance : R) (enemy : Enemy.t) : Enemy.t :=
  if Rgt_dec distance 0 then
    Enemy.set_vel ((dx / distance) * Enemy.speed enemy)
                  ((dy / distance) * Enemy.speed enemy) enemy
  else enemy.

Definition flee (dx dy distance : R) (enemy : Enemy.t) : Enemy.t :=
  if Rgt_dec distance 0 then
    Enemy.set_vel (- (dx / distance) * Enemy.speed enemy)
                  (- (dy / distance) * Enemy.speed enemy) enemy
  else enemy.

(** [enemy.x += enemy.vx; enemy.y += enemy.vy] *)
Definition integrate (enemy : Enemy.t) : Enemy.t :=
  Enemy.set_pos (Enemy.x enemy + Enemy.vx enemy) (Enemy.y enemy + Enemy.vy enemy) enemy.

(** Lines 491-499 and 546-554: a projectile fired from [enemy] along
    [(dx, dy)] at speed [speed]. *)
Definition enemyAim (dx dy distance speed : R) : R * R :=
  (if Rgt_dec distance 0 then (dx / distance) * speed else 0,
   if Rgt_dec distance 0 then (dy / distance) * speed else 0).

Definition enemyProjectile (enemy : Enemy.t) (dx dy distance speed radius damage : R)
  : Projectile.t :=
  let '(vx, vy) := enemyAim dx dy distance speed in
  Projectile.mk (Enemy.x enemy) (Enemy.y enemy) vx vy radius damage
                (Enemy.color enemy) None None.

(** Lines 569-572: [None] when the enemy is spliced out. *)
Definition cullEnemy (canvas : Canvas) (player : Player.t) (enemy : Enemy.t)
  : option Enemy.t :=
  if Rgt_dec (Rabs (Enemy.y enemy - Player.y player)) (height canvas * 2)
  then None else Some enemy.

(** Contact damage of melee and chaser enemies (lines 455-461, 560-566). *)
Definition contactDamage (deltaTime distance : R) (enemy : Enemy.t)
    (player : Player.t) (gameState : GameState) : Player.t * GameState :=
  let collisionDist := Player.radius player + Enemy.radius enemy in
  if Rlt_dec distance collisionDist then
    hurt (Enemy.damage enemy * (deltaTime / 1000)) player gameState
  else (player, gameState).

(** What the enemy loop threads besides the enemy array. *)
Record Combat : Type := mkCombat {
  c_player : Player.t;
  c_projectiles : list Projectile.t;
  c_gameState : GameState
}.

(** The body of the enemy loop for [enemy = enemies[i]] (lines 437-572).
    The second component is [None] when the body splices the enemy out
    (an exploding enemy is marked [exploded] and spliced out at once, so
    the mark is never read again). *)
Definition updateEnemy (canvas : Canvas) (deltaTime currentTime : R)
    (st : Combat) (enemy : Enemy.t) : Combat * option Enemy.t :=
  let player := c_player st in
  let dx := Player.x player - Enemy.x enemy in
  let dy := Player.y player - Enemy.y enemy in
  let distance := sqrt (dx * dx + dy * dy) in
  match Enemy.type enemy with
  | melee =>
      let enemy := integrate (chase dx dy distance enemy) in
      let '(player', gs) := contactDamage deltaTime distance enemy player (c_gameState st) in
      (mkCombat player' (c_projectiles st) gs, cullEnemy canvas player enemy)
  | ranged =>
      let preferredDist := RANGED_ENEMY_PREFERRED_DISTANCE in
      let enemy :=
        if Rgt_dec distance (preferredDist + RANGED_DISTANCE_THRESHOLD) then
          chase dx dy distance enemy
        else if Rlt_dec distance (preferredDist - RANGED_DISTANCE_THRESHOLD) then
          flee dx dy distance enemy
        else Enemy.set_vel (Enemy.vx enemy * 0.9) (Enemy.vy enemy * 0.9) enemy in
      let enemy := integrate enemy in
      let shootCooldown := RANGED_ENEMY_SHOOT_COOLDOWN in
      if Rgt_dec (currentTime - orDefault (Enemy.lastShootTime enemy) 0) shootCooldown then
        let projectile :=
          enemyProjectile enemy dx dy distance PROJECTILE_SPEED 5
                          (Enemy.damage enemy * PROJECTILE_DAMAGE_MULTIPLIER) in
        let enemy := Enemy.set_lastShootTime (Some currentTime) enemy in
        (mkCombat player (c_projectiles st ++ [projectile]) (c_gameState st),
         cullEnemy canvas player enemy)
      else (st, cullEnemy canvas player enemy)
  | explosive =>
      if truthy (Enemy.exploded enemy) then (st, cullEnemy canvas player enemy)
      else
        let enemy := integrate (chase dx dy distance enemy) in
        if Rlt_dec distance EXPLOSIVE_TRIGGER_DISTANCE then
          let explosionRadius :=
            orDefault (Enemy.explosionRadius enemy) EXPLOSIVE_EXPLOSION_RADIUS in
          if Rlt_dec distance explosionRadius then
            let damageMultiplier := Rmax 0 (1 - distance / explosionRadius) in
            let '(player', gs) :=
              hurt (Enemy.damage enemy * EXPLOSIVE_DAMAGE_MULTIPLIER * damageMultiplier)
                   player (c_gameState st) in
            (mkCombat player' (c_projectiles st) gs, None)
          else (st, None)
        else (st, cullEnemy canvas player enemy)
  | chaser =>
      let enemy := integrate (chase dx dy distance enemy) in
      let trailCooldown := orDefault (Enemy.trailCooldown enemy) CHASER_TRAIL_COOLDOWN in
      let '(projectiles, enemy) :=
        if Rgt_dec (currentTime - orDefault (Enemy.lastTrailTime enemy) 0) trailCooldown then
          (c_projectiles st
             ++ [enemyProjectile enemy dx dy distance
                   (PROJECTILE_SPEED * CHASER_TRAIL_SPEED_MULTIPLIER) 4
                   (Enemy.damage enemy * CHASER_TRAIL_DAMAGE_MULTIPLIER)],
           Enemy.set_lastTrailTime (Some currentTime) enemy)
        else (c_projectiles st, enemy) in
      let '(player', gs) := contactDamage deltaTime distance enemy player (c_gameState st) in
      (mkCombat player' projectiles gs, cullEnemy canvas player enemy)
  end.

(** The loop [for (let i = enemies.length - 1; i >= 0; i--)]: the last
    element is visited first, and [splice(i, 1)] leaves the elements still
    to be visited in place. *)
Fixpoint updateEnemies (canvas : Canvas) (deltaTime currentTime : R)
    (st : Combat) (enemies : list Enemy.t) : Combat * list Enemy.t :=
  match enemies with
  | [] => (st, [])
  | enemy :: later =>
      let '(st1, later') := updateEnemies canvas deltaTime currentTime st later in
      let '(st2, enemy') := updateEnemy canvas deltaTime currentTime st1 enemy in
      (st2, match enemy' with Some e => e :: later' | None => later' end)
  end.

(** ** Projectile update (Game.tsx lines 575-670) *)

(** Lines 585-593: one step of the search for the nearest enemy. [None]
    is the initial state ([nearestDistance = Infinity]). *)
Definition nearestStep (projectile : Projectile.t)
    (best : option (Enemy.t * R)) (enemy : Enemy.t) : option (Enemy.t * R) :=
  let dx := Enemy.x enemy - Projectile.x projectile in
  let dy := Enemy.y enemy - Projectile.y projectile in
  let distance := sqrt (dx * dx + dy * dy) in
  match best with
  | None => Some (enemy, distance)
  | Some (_, nearestDistance) =>
      if Rlt_dec distance nearestDistance then Some (enemy, distance) else best
  end.

Definition nearestEnemy (projectile : Projectile.t) (enemies : list Enemy.t)
  : option Enemy.t :=
  option_map fst (fold_left (nearestStep projectile) enemies None).

(** Lines 596-617: steering of a homing projectile. *)
Definition homingStep (projectile : Projectile.t) (enemies : list Enemy.t)
  : Projectile.t :=
  match nearestEnemy projectile enemies with
  | None => projectile
  | Some nearest =>
      let dx := Enemy.x nearest - Projectile.x projectile in
      let dy := Enemy.y nearest - Projectile.y projectile in
      let distance := sqrt (dx * dx + dy * dy) in
      if Rgt_dec distance 0 then
        let desiredVx := (dx / distance) * PROJECTILE_SPEED_PLAYER in
        let desiredVy := (dy / distance) * PROJECTILE_SPEED_PLAYER in
        let vx := Projectile.vx projectile
                  + (desiredVx - Projectile.vx projectile) * PROJECTILE_HOMING_STRENGTH in
        let vy := Projectile.vy projectile
                  + (desiredVy - Projectile.vy projectile) * PROJECTILE_HOMING_STRENGTH in
        let speed := sqrt (vx * vx + vy * vy) in
        if Rgt_dec speed 0 then
          Projectile.set_vel ((vx / speed) * PROJECTILE_SPEED_PLAYER)
                             ((vy / speed) * PROJECTILE_SPEED_PLAYER) projectile
        else Projectile.set_vel vx vy projectile
      else projectile
  end.

(** Lines 636-637 and 687-688; the result of [Math.floor] is an integer. *)
Definition bloodRecovery (level : Z) : Z :=
  let baseRecovery := 30 * BLOOD_RECOVERY_MULTIPLIER in
  Zfloor (baseRecovery * IZR level).

Definition recover (enemy : Enemy.t) (player : Player.t) : Player.t :=
  Player.set_bloodGauge
    (Player.bloodGauge player + IZR (bloodRecovery (Enemy.level enemy))) player.

(** Lines 626-644: the scan [for (let j = enemies.length - 1; j >= 0; j--)]
    for the first enemy the projectile overlaps; [None] when it hits none. *)
Fixpoint hitScan (projectile : Projectile.t) (player : Player.t)
    (enemies : list Enemy.t) : option (Player.t * list Enemy.t) :=
  match enemies with
  | [] => None
  | enemy :: later =>
      match hitScan projectile player later with
      | Some (player', later') => Some (player', enemy :: later')
      | None =>
          let dx := Enemy.x enemy - Projectile.x projectile in
          let dy := Enemy.y enemy - Projectile.y projectile in
          let distance := sqrt (dx * dx + dy * dy) in
          if Rlt_dec distance (Enemy.radius enemy + Projectile.radius projectile) then
            let enemy := Enemy.set_health
                           (Enemy.health enemy - Projectile.damage projectile) enemy in
            if Rle_dec (Enemy.health enemy) 0
            then Some (recover enemy player, later)
            else Some (player, enemy :: later)
          else None
      end
  end.

(** What the projectile loop threads besides the projectile array. *)
Record Battle : Type := mkBattle {
  b_player : Player.t;
  b_enemies : list Enemy.t;
  b_gameState : GameState
}.

Definition cullProjectile (canvas : Canvas) (player : Player.t)
    (projectile : Projectile.t) : option Projectile.t :=
  if Rgt_dec (Rabs (Projectile.y projectile - Player.y player)) (height canvas * 2)
  then None else Some projectile.

(** The body of the projectile loop (lines 577-669). *)
Definition updateProjectile (canvas : Canvas) (st : Battle)
    (projectile : Projectile.t) : Battle * option Projectile.t :=
  let player := b_player st in
  let projectile :=
    if truthy (Projectile.fromPlayer projectile) && truthy (Projectile.homing projectile)
    then homingStep projectile (b_enemies st) else projectile in
  let projectile :=
    Projectile.set_pos (Projectile.x projectile + Projectile.vx projectile)
                       (Projectile.y projectile + Projectile.vy projectile)
                       projectile in
  if truthy (Projectile.fromPlayer projectile) then
    match hitScan projectile player (b_enemies st) with
    | Some (player', enemies') => (mkBattle player' enemies' (b_gameState st), None)
    | None => (st, cullProjectile canvas player projectile)
    end
  else
    let dx := Player.x player - Projectile.x projectile in
    let dy := Player.y player - Projectile.y projectile in
    let distance := sqrt (dx * dx + dy * dy) in
    if Rlt_dec distance (Player.radius player + Projectile.radius projectile) then
      let '(player', gs) := hurt (Projectile.damage projectile) player (b_gameState st) in
      (mkBattle player' (b_enemies st) gs, None)
    else (st, cullProjectile canvas player projectile).

(** The loop [for (let i = projectiles.length - 1; i >= 0; i--)]. *)
Fixpoint updateProjectiles (canvas : Canvas) (st : Battle)
    (projectiles : list Projectile.t) : Battle * list Projectile.t :=
  match projectiles with
  | [] => (st, [])
  | projectile :: later =>
      let '(st1, later') := updateProjectiles canvas st later in
      let '(st2, projectile') := updateProjectile canvas st1 projectile in
      (st2, match projectile' with Some p => p :: later' | None => later' end)
  end.

(** ** Auto-attack (Game.tsx lines 672-696) *)

(** The body of [for (const enemy of enemies)] when the iterator is at
    index [i] and yields [enemy = enemies[i]] (lines 675-693). The enemy is
    damaged in place; as the array holds each enemy object once,
    [enemies.indexOf(enemy)] is [i]. *)
Definition attackEnemy (i : nat) (enemy : Enemy.t) (player : Player.t)
    (enemies : list Enemy.t) : Player.t * list Enemy.t :=
  let dx := Player.x player - Enemy.x enemy in
  let dy := Player.y player - Enemy.y enemy in
  let distance := sqrt (dx * dx + dy * dy) in
  if Rlt_dec distance (Player.attackRadius player) then
    let enemy := Enemy.set_health (Enemy.health enemy - Player.attackDamage player) enemy in
    let enemies := setAt i enemy enemies in
    if Rle_dec (Enemy.health enemy) 0 then
      let index := i in
      (recover enemy player, removeAt index enemies)
    else (player, enemies)
  else (player, enemies).

(** The array iterator behind [for ... of]: each step reads the current
    length, yields [enemies[i]] when [i] is below it and moves to [i + 1],
    whatever the body did to the array. Every step consumes one unit of
    [fuel]; [length enemies - i] units are always enough. *)
Fixpoint attackLoop (fuel i : nat) (player : Player.t) (enemies : list Enemy.t)
  : Player.t * list Enemy.t :=
  match fuel with
  | O => (player, enemies)
  | S fuel' =>
      match nth_error enemies i with
      | None => (player, enemies)
      | Some enemy =>
          let '(player', enemies') := attackEnemy i enemy player enemies in
          attackLoop fuel' (S i) player' enemies'
      end
  end.

(** Whether the auto-attack activates at clock reading [currentTime]. *)
Definition attackTriggers (player : Player.t) (currentTime : R) : bool :=
  if Rgt_dec (currentTime - Player.lastAttackTime player) (Player.attackCooldown player)
  then true else false.

Definition autoAttack (player : Player.t) (enemies : list Enemy.t) (currentTime : R)
  : Player.t * list Enemy.t :=
  if attackTriggers player currentTime then
    let '(player', enemies') := attackLoop (length enemies) 0 player enemies in
    (Player.set_lastAttackTime currentTime player', enemies')
  else (player, enemies).

(** ** The tick (Game.tsx lines 296-697) *)

(** The refs and state of the component that [update] reads and writes. *)
Record Game : Type := mkGame {
  playerRef : Player.t;
  enemiesRef : list Enemy.t;
  projectilesRef : list Projectile.t;
  cameraYRef : R;
  lastSpawnTimeRef : R;
  darknessYRef : R;
  gameState : GameState;
  score : Z;
  randomCursor : nat
}.

(** What one call of [update] receives from outside the simulation: the
    canvas, the held keys, whether a touch is in progress, [deltaTime], the
    readings of [Date.now()] at lines 321 and 427 and during the spawn
    loop, and the value of [score] the running closure captured. *)
Record Frame : Type := mkFrame {
  canvasRef : option Canvas;
  ArrowLeft : bool; ArrowRight : bool; ArrowUp : bool; ArrowDown : bool;
  touchStartRef : bool;
  deltaTime : R;
  shootTime : R;
  currentTime : R;
  spawnClock : nat -> R;
  closureScore : Z
}.

(** Lines 309-317. *)
Definition steerPlayer (f : Frame) (player : Player.t) : Player.t :=
  let moveSpeed := moveSpeed player in
  let player :=
    if ArrowLeft f then Player.set_vx (- moveSpeed) player
    else if ArrowRight f then Player.set_vx moveSpeed player
    else if negb (touchStartRef f) then Player.set_vx 0 player
    else player in
  if ArrowUp f then Player.set_vy (- moveSpeed) player
  else if ArrowDown f then Player.set_vy moveSpeed player
  else if negb (touchStartRef f) then Player.set_vy 0 player
  else player.

(** Lines 394-401. *)
Definition movePlayer (canvas : Canvas) (player : Player.t) : Player.t :=
  let player := Player.set_x (Player.x player + Player.vx player) player in
  let player := Player.set_y (Player.y player + Player.vy player) player in
  let player :=
    Player.set_x (Rmax (Player.radius player)
                       (Rmin (width canvas - Player.radius player) (Player.x player)))
                 player in
  Player.set_y (Rmin (height canvas - Player.radius player) (Player.y player)) player.

Definition update (rand : nat -> R) (f : Frame) (g : Game) : Game :=
  match canvasRef f with
  | None => g
  | Some canvas =>
    let player := playerRef g in
    let drainRate :=
      BASE_DRAIN_RATE + IZR (Player.attackLevel player) * DRAIN_RATE_PER_LEVEL in
    let player :=
      Player.set_bloodGauge (Player.bloodGauge player - drainRate * (deltaTime f / 1000))
                            player in
    if Rle_dec (Player.bloodGauge player) 0 then
      mkGame player (enemiesRef g) (projectilesRef g) (cameraYRef g)
             (lastSpawnTimeRef g) (darknessYRef g) gameover (score g) (randomCursor g)
    else
    let player := steerPlayer f player in
    let '(player, projectiles) :=
      autoFire player (enemiesRef g) (projectilesRef g) (shootTime f) in
    let player := movePlayer canvas player in
    let cameraY := Player.y player - height canvas / 2 in
    let darknessY := darknessYRef g - DARKNESS_RISE_SPEED in
    if Rge_dec (Player.y player) darknessY then
      mkGame player (enemiesRef g) projectiles cameraY
             (lastSpawnTimeRef g) darknessY gameover (score g) (randomCursor g)
    else
    let newScore := Z.max 0 (Zfloor (- cameraY / 10)) in
    let '(enemies, cursor, lastSpawnTime) :=
      if Rgt_dec (currentTime f - lastSpawnTimeRef g) 2000 then
        let '(enemies, cursor) :=
          spawnEnemyWave (Some canvas) player (closureScore f) rand (spawnClock f)
                         (randomCursor g) (enemiesRef g) in
        (enemies, cursor, currentTime f)
      else (enemiesRef g, randomCursor g, lastSpawnTimeRef g) in
    let '(st, enemies) :=
      updateEnemies canvas (deltaTime f) (currentTime f)
                    (mkCombat player projectiles (gameState g)) enemies in
    let '(bt, projectiles) :=
      updateProjectiles canvas (mkBattle (c_player st) enemies (c_gameState st))
                        (c_projectiles st) in
    let '(player, enemies) := autoAttack (b_player bt) (b_enemies bt) (currentTime f) in
    mkGame player enemies projectiles cameraY lastSpawnTime darknessY
           (b_gameState bt) newScore cursor
  end.

(** ** Touch input and run lifecycle
    (Game.tsx lines 203-233, 254-272 and 1177-1196) *)

Module Position.
Record t : Type := mk { x : R; y : R }.
End Position.

(** [handleTouchMove] (lines 203-226): [touchStart] is
    [touchStartRef.current], [touch] the client position of the first
    touch. Returns the player and the new [touchStartRef.current]. *)
Definition handleTouchMove (canvas : option Canvas) (touchStart : option Position.t)
    (touch : Position.t) (player : Player.t) : Player.t * option Position.t :=
  match touchStart with
  | None => (player, None)
  | Some origin =>
      let dx := Position.x touch - Position.x origin in
      let dy := Position.y touch - Position.y origin in
      let player := Player.set_x (Player.x player + dx) player in
      let player := Player.set_y (Player.y player + dy) player in
      let player :=
        match canvas with
        | Some canvas =>
            let player :=
              Player.set_x (Rmax (Player.radius player)
                                 (Rmin (width canvas - Player.radius player)
                                       (Player.x player))) player in
            Player.set_y (Rmin (height canvas - Player.radius player) (Player.y player))
                         player
        | None => player
        end in
      (player, Some touch)
  end.

(** [handleTouchEnd] (lines 228-233). *)
Definition handleTouchEnd (player : Player.t) : Player.t * option Position.t :=
  (Player.set_vy 0 (Player.set_vx 0 player), None).

(** The player part of the restart handler (lines 1180-1187). *)
Definition resetPlayer (player : Player.t) : Player.t :=
  Player.mk (Player.x player) (Player.y player) (Player.vx player) (Player.vy player)
            (Player.radius player) 100 150 10 (Player.attackCooldown player)
            (Player.lastAttackTime player) 0 0 0 0
            (Player.lastProjectileTime player) 5.

(** The restart handler of the game-over screen (lines 1177-1196). *)
Definition restart (g : Game) : Game :=
  mkGame (resetPlayer (playerRef g)) [] [] 0 (lastSpawnTimeRef g) (darknessYRef g)
         start 0 (randomCursor g).

(** The start of a run from the title screen: the space key (lines 181-184)
    or a touch (lines 198-200). *)
Definition beginRun (g : Game) : Game :=
  match gameState g with
  | start =>
      mkGame (playerRef g) (enemiesRef g) (projectilesRef g) (cameraYRef g)
             (lastSpawnTimeRef g) (darknessYRef g) playing (score g) (randomCursor g)
  | _ => g
  end.

(** The effect that starts a run (lines 254-272), up to the first frame
    request; [now] is the reading of [Date.now()]. *)
Definition startRun (canvas : option Canvas) (now : R) (g : Game) : Game :=
  match gameState g with
  | playing =>
      match canvas with
      | None => g
      | Some canvas =>
          let player := Player.set_x (width canvas / 2) (playerRef g) in
          let player := Player.set_y (height canvas / 2) player in
          mkGame player [] [] 0 now (Player.y player + DARKNESS_START_OFFSET)
                 (gameState g) (score g) (randomCursor g)
      end
  | _ => g
  end.

(** Successive calls of [update], one per frame. *)
Definition ticks (rand : nat -> R) (frames : list Frame) (g : Game) : Game :=
  fold_left (fun g f => update rand f g) frames g.

(** ** Display (Game.tsx line 947)

    The only place that caps the gauge: the fill ratio of the gauge bar. *)
Definition healthPercent (player : Player.t) : R :=
  Rmin 1 (Player.bloodGauge player / BLOOD_GAUGE_DISPLAY_REFERENCE).

(** ** Division sites

    The direction computations again, with a division that fails on a zero
    divisor: a result [Some _] means that no division by zero was
    performed. *)

Module Checked.
Definition div (a b : R) : option R :=
  if Req_dec_T b 0 then None else Some (a / b).

Definition bind {A B : Type} (c : option A) (k : A -> option B) : option B :=
  match c with
  | Some a => k a
  | None => None
  end.

Notation "x <- c ;; k" := (bind c (fun x => k))
  (at level 61, c at next level, right associativity).

(** Player projectile aiming (lines 365-374). *)
Definition aimAt (player : Player.t) (target : Target) : option (R * R) :=
  let dx := target_x target - Player.x player in
  let dy := target_y target - Player.y player in
  let distance := sqrt (dx * dx + dy * dy) in
  if Rgt_dec distance 0 then
    qx <- div dx distance ;;
    qy <- div dy distance ;;
    Some (qx * PROJECTILE_SPEED_PLAYER, qy * PROJECTILE_SPEED_PLAYER)
  else Some (0, - PROJECTILE_SPEED_PLAYER).

(** Enemy steering toward the player (lines 446-449, 468-471, 506-509,
    534-537) and away from it (lines 474-477). *)
Definition chase (dx dy distance : R) (enemy : Enemy.t) : option Enemy.t :=
  if Rgt_dec distance 0 then
    qx <- div dx distance ;;
    qy <- div dy distance ;;
    Some (Enemy.set_vel (qx * Enemy.speed enemy) (qy * Enemy.speed enemy) enemy)
  else Some enemy.

Definition flee (dx dy distance : R) (enemy : Enemy.t) : option Enemy.t :=
  if Rgt_dec distance 0 then
    qx <- div dx distance ;;
    qy <- div dy distance ;;
    Some (Enemy.set_vel (- qx * Enemy.speed enemy) (- qy * Enemy.speed enemy) enemy)
  else Some enemy.

(** Enemy projectile aiming (lines 494-495 and 549-550). *)
Definition enemyAim (dx dy distance speed : R) : option (R * R) :=
  vx <- (if Rgt_dec distance 0 then q <- div dx distance ;; Some (q * speed)
         else Some 0) ;;
  vy <- (if Rgt_dec distance 0 then q <- div dy distance ;; Some (q * speed)
         else Some 0) ;;
  Some (vx, vy).
(** Homing steering (lines 596-617). *)
Definition homingStep (projectile : Projectile.t) (enemies : list Enemy.t)
  : option Projectile.t :=
  match nearestEnemy projectile enemies with
  | None => Some projectile
  | Some nearest =>
      let dx := Enemy.x nearest - Projectile.x projectile in
      let dy := Enemy.y nearest - Projectile.y projectile in
      let distance := sqrt (dx * dx + dy * dy) in
      if Rgt_dec distance 0 then
        qx <- div dx distance ;;
        qy <- div dy distance ;;
        let desiredVx := qx * PROJECTILE_SPEED_PLAYER in
        let desiredVy := qy * PROJECTILE_SPEED_PLAYER in
        let vx := Projectile.vx projectile
                  + (desiredVx - Projectile.vx projectile) * PROJECTILE_HOMING_STRENGTH in
        let vy := Projectile.vy projectile
                  + (desiredVy - Projectile.vy projectile) * PROJECTILE_HOMING_STRENGTH in
        let speed := sqrt (vx * vx + vy * vy) in
        if Rgt_dec speed 0 then
          sx <- div vx speed ;;
          sy <- div vy speed ;;
          Some (Projectile.set_vel (sx * PROJECTILE_SPEED_PLAYER)
                                   (sy * PROJECTILE_SPEED_PLAYER) projectile)
        else Some (Projectile.set_vel vx vy projectile)
      else Some projectile
  end.
End Checked.

(** ** The homing arithmetic in binary64

    Lines 597-614 once more, on IEEE binary64 numbers with every operation
    rounded to nearest, as JavaScript evaluates them: [px, py] is the
    position of the projectile, [ex, ey] that of the nearest enemy. *)

Module Binary64.
Import PrimFloat.
Local Open Scope float_scope.

Definition PROJECTILE_SPEED_PLAYER : float := 8.

(** The double nearest to 0.15. *)
Definition PROJECTILE_HOMING_STRENGTH : float := 0x1.3333333333333p-3.

Definition homingVelocity (vx vy px py ex ey : float) : float * float :=
  let dx := ex - px in
  let dy := ey - py in
  let distance := sqrt (dx * dx + dy * dy) in
  if 0 <? distance then
    let desiredVx := (dx / distance) * PROJECTILE_SPEED_PLAYER in
    let desiredVy := (dy / distance) * PROJECTILE_SPEED_PLAYER in
    let vx := vx + (desiredVx - vx) * PROJECTILE_HOMING_STRENGTH in
    let vy := vy + (desiredVy - vy) * PROJECTILE_HOMING_STRENGTH in
    let speed := sqrt (vx * vx + vy * vy) in
    if 0 <? speed then
      ((vx / speed) * PROJECTILE_SPEED_PLAYER, (vy / speed) * PROJECTILE_SPEED_PLAYER)
    else (vx, vy)
  else (vx, vy).

(** [Math.sqrt(vx * vx + vy * vy)]. *)
Definition speed (v : float * float) : float :=
  sqrt (fst v * fst v + snd v * snd v).

(** The real number a finite double stands for: [m * 2 ^ e], signed. *)
Definition toR (x : float) : R :=
  match FloatOps.Prim2SF x with
  | SpecFloat.S754_finite negative m e =>
      let magnitude :=
        if (0 <=? e)%Z then (IZR (Z.pos m) * IZR (2 ^ e))%R
        else (IZR (Z.pos m) / IZR (2 ^ (- e)))%R in
      if negative then (- magnitude)%R else magnitude
  | _ => 0%R
  end.

(** A projectile at the origin flying straight up at speed 8, the nearest
    enemy at (30, 40) ([sampleShot] and [sampleBomber] below): the velocity
    before and after one homing step. *)
Definition launched : float * float := (0, -8).

Definition homed : float * float := homingVelocity 0 (-8) 0 0 30 40.
End Binary64.

(** ** Vocabulary of the statements *)

(** The distance the enemy loop computes at lines 440-442. *)
Definition distanceToEnemy (player : Player.t) (enemy : Enemy.t) : R :=
  let dx := Player.x player - Enemy.x enemy in
  let dy := Player.y player - Enemy.y enemy in
  sqrt (dx * dx + dy * dy).

(** The magnitude of a projectile's velocity. *)
Definition projectileSpeed (projectile : Projectile.t) : R :=
  sqrt (Projectile.vx projectile * Projectile.vx projectile
        + Projectile.vy projectile * Projectile.vy projectile).

(** Whether two players differ at most in gauge, attack statistics and
    upgrade levels: what an upgrade may touch. *)
Definition sameBody (p q : Player.t) : Prop :=
  Player.x p = Player.x q /\ Player.y p = Player.y q
  /\ Player.vx p = Player.vx q /\ Player.vy p = Player.vy q
  /\ Player.radius p = Player.radius q
  /\ Player.attackCooldown p = Player.attackCooldown q
  /\ Player.lastAttackTime p = Player.lastAttackTime q
  /\ Player.lastProjectileTime p = Player.lastProjectileTime q
  /\ Player.baseSpeed p = Player.baseSpeed q.

(** The collision test of the projectile loop (lines 628-632). *)
Definition overlaps (projectile : Projectile.t) (enemy : Enemy.t) : Prop :=
  let dx := Enemy.x enemy - Projectile.x projectile in
  let dy := Enemy.y enemy - Projectile.y projectile in
  sqrt (dx * dx + dy * dy) < Enemy.radius enemy + Projectile.radius projectile.

(** Whether two players agree on every field but the gauge. *)
Definition sameButGauge (p q : Player.t) : Prop :=
  Player.set_bloodGauge 0 p = Player.set_bloodGauge 0 q.

(** The damage of the explosion of [enemy] at distance [d] (lines 519-521). *)
Definition blast (enemy : Enemy.t) (d : R) : R :=
  Enemy.damage enemy * EXPLOSIVE_DAMAGE_MULTIPLIER
  * Rmax 0 (1 - d / EXPLOSIVE_EXPLOSION_RADIUS).

(** Whether [e'] has the type and the explosive fields of [e]. *)
Definition sameKind (e e' : Enemy.t) : Prop :=
  Enemy.type e' = Enemy.type e
  /\ Enemy.exploded e' = Enemy.exploded e
  /\ Enemy.explosionRadius e' = Enemy.explosionRadius e.

(** The explosive-specific fields as [spawnEnemy] initialises them. *)
Definition armed (enemy : Enemy.t) : Prop :=
  Enemy.type enemy = explosive ->
  Enemy.exploded enemy = Some false
  /\ Enemy.explosionRadius enemy = Some EXPLOSIVE_EXPLOSION_RADIUS.

(** The wave size as the specification words it:
    [max(1, floor(altitude/300) + floor(score/100))]. *)
Definition specWaveSize (player : Player.t) (score : Z) : Z :=
  let altitude := Rmax 0 (- Player.y player) in
  Z.max 1 (Zfloor (altitude / 300) + Zfloor (IZR score / 100)).

(** Whether two players stand at the same place with the same radius. *)
Definition samePosition (p q : Player.t) : Prop :=
  Player.x p = Player.x q /\ Player.y p = Player.y q
  /\ Player.radius p = Player.radius q.

(** The bounds the movement code clamps the player to. *)
Definition inBounds (canvas : Canvas) (p : Player.t) : Prop :=
  Player.radius p <= Player.x p <= width canvas - Player.radius p
  /\ Player.y p <= height canvas - Player.radius p.

(** The test the culling code keeps an entity on (lines 570 and 667). *)
Definition withinReach (canvas : Canvas) (player : Player.t) (y : R) : Prop :=
  Rabs (y - Player.y player) <= height canvas * 2.

(** What one auto-attack does to an enemy it reaches. *)
Definition strike (player : Player.t) (enemy : Enemy.t) : Enemy.t :=
  if Rlt_dec (distanceToEnemy player enemy) (Player.attackRadius player)
  then Enemy.set_health (Enemy.health enemy - Player.attackDamage player) enemy
  else enemy.

(** The distance the homing search compares (lines 586-588). *)
Definition distanceFromProjectile (projectile : Projectile.t) (enemy : Enemy.t) : R :=
  let dx := Enemy.x enemy - Projectile.x projectile in
  let dy := Enemy.y enemy - Projectile.y projectile in
  sqrt (dx * dx + dy * dy).

(** The gauge after the drain of one frame (lines 302-303). *)
Definition drainedGauge (f : Frame) (g : Game) : R :=
  Player.bloodGauge (playerRef g)
  - (BASE_DRAIN_RATE + IZR (Player.attackLevel (playerRef g)) * DRAIN_RATE_PER_LEVEL)
    * (deltaTime f / 1000).

(** Every [Math.random()] result lies in the half-open unit interval. *)
Definition unitStream (rand : nat -> R) : Prop := forall n, 0 <= rand n < 1.

(** An enemy fit to stay in the array: alive, of level at least 1. *)
Definition sound (enemy : Enemy.t) : Prop :=
  0 < Enemy.health enemy /\ (1 <= Enemy.level enemy)%Z.

(** Whether the game state has taken note of an empty gauge. *)
Definition deathSeen (player : Player.t) (gameState : GameState) : Prop :=
  Player.bloodGauge player <= 0 -> gameState = gameover.

(** One later pass of the enemy loop over an enemy: the frame time, the
    clock reading and the state the loop has reached. *)
Record EnemyStep : Type := mkEnemyStep {
  s_deltaTime : R;
  s_currentTime : R;
  s_state : Combat
}.

(** Whether an enemy adds no projectile in any of the given successive
    passes of the enemy loop, for as long as it stays in the array. *)
Fixpoint holdsFire (canvas : Canvas) (steps : list EnemyStep) (enemy : Enemy.t)
  : Prop :=
  match steps with
  | [] => True
  | step :: later =>
      let r := updateEnemy canvas (s_deltaTime step) (s_currentTime step)
                           (s_state step) enemy in
      c_projectiles (fst r) = c_projectiles (s_state step)
      /\ match snd r with
         | Some enemy' => holdsFire canvas later enemy'
         | None => True
         end
  end.

(** [playerRef.current = player]. *)
Definition withPlayer (player : Player.t) (g : Game) : Game :=
  mkGame player (enemiesRef g) (projectilesRef g) (cameraYRef g)
         (lastSpawnTimeRef g) (darknessYRef g) (gameState g) (score g)
         (randomCursor g).

(** ** Sample data *)

Definition sampleCanvas : Canvas := mkCanvas 800 600.

(** An explosive enemy of level 1 as [spawnEnemy] makes it, at distance 50
    from the initial player. *)
Definition sampleBomber : Enemy.t :=
  Enemy.mk 30 40 0 0 15 30 30 5 2 (hsl 30 70 45) 1 explosive
           None None None (Some EXPLOSIVE_EXPLOSION_RADIUS) (Some false) None None.

(** An enemy of the given type and radius 70 at distance 80 from the
    initial player, whose radius is 20: the two circles overlap. *)
Definition sampleGiant (type : EnemyType) : Enemy.t :=
  Enemy.mk 80 0 0 0 70 30 30 5 2 (hsl 30 70 45) 1 type
           None None None
           (ifType type explosive EXPLOSIVE_EXPLOSION_RADIUS)
           (ifType type explosive false) None None.

Definition sampleCombat : Combat := mkCombat Player.initial [] playing.

(** A run in progress on the sample canvas: the player stands at the
    centre with the initial gauge, statistics and levels; one melee enemy
    of the given level, down to 10 health, is 100 above. *)
Definition sampleGame (level : Z) : Game :=
  mkGame (Player.mk 400 300 0 0 20 100 150 10 500 0 0 0 0 0 0 5)
         [Enemy.mk 400 200 0 0 15 10 30 5 2 (hsl 0 70 45) level melee
                   None None None None None None None]
         [] 0 1000 500 playing 0 0.

(** A frame 16 ms after the last one, at clock reading 1000, no key held
    and no touch. *)
Definition sampleFrame : Frame :=
  mkFrame (Some sampleCanvas) false false false false false 16 1000 1000
          (fun _ => 1000) 0.

(** A homing player projectile flying straight up at speed 8. *)
Definition sampleShot : Projectile.t :=
  Projectile.mk 0 0 0 (- (8)) 6 60 (hex "#ff00ff"%string) (Some true) (Some true).

(** The initial player after four projectile upgrades, gauge aside. *)
Definition sampleGunner : Player.t :=
  Player.set_projectileLevel 4 Player.initial.

(** * Properties *)

(** Case analysis on every comparison of reals in the goal. *)
Ltac decide_reals :=
  repeat match goal with
         | |- context [Rlt_dec ?a ?b] => destruct (Rlt_dec a b)
         | |- context [Rgt_dec ?a ?b] => destruct (Rgt_dec a b)
         | |- context [Rle_dec ?a ?b] => destruct (Rle_dec a b)
         end.

(** ** Arithmetic helpers *)

Lemma Zfloor_IZR (z : Z) : Zfloor (IZR z) = z.
Proof. apply Zfloor_eq; lra. Qed.

Lemma Zfloor_nonneg (x : R) : 0 <= x -> (0 <= Zfloor x)%Z.
Proof. intros H. apply Zfloor_lub. simpl. exact H. Qed.

Lemma Zfloor_div_IZR (a b : Z) :
  (0 < b)%Z -> Zfloor (IZR a / IZR b) = (a / b)%Z.
Proof.
  intros Hb.
  assert (Hb' : 0 < IZR b) by (apply IZR_lt; exact Hb).
  apply Zfloor_eq.
  pose proof (Z.div_mod a b ltac:(lia)) as Hdm.
  pose proof (Z.mod_pos_bound a b Hb) as [Hlo Hhi].
  assert (Ha : IZR a = IZR b * IZR (a / b) + IZR (a mod b)).
  { rewrite <- mult_IZR, <- plus_IZR. f_equal. exact Hdm. }
  apply IZR_le in Hlo. apply IZR_lt in Hhi.
  split.
  - apply Rmult_le_reg_r with (IZR b); [exact Hb'|].
    unfold Rdiv. rewrite Rmult_assoc, Rinv_l by lra. nra.
  - apply Rmult_lt_reg_r with (IZR b); [exact Hb'|].
    unfold Rdiv. rewrite Rmult_assoc, Rinv_l by lra. nra.
Qed.

Lemma sqrt_lt_bound (a r : R) : 0 <= a -> 0 < r -> a < r * r -> sqrt a < r.
Proof.
  intros Ha Hr Har.
  rewrite <- (sqrt_square r) by lra.
  apply sqrt_lt_1; nra.
Qed.

Lemma sqrt_ge_bound (a r : R) : 0 <= r -> r * r <= a -> r <= sqrt a.
Proof.
  intros Hr Har.
  rewrite <- (sqrt_square r) at 1 by lra.
  apply sqrt_le_1; nra.
Qed.

Lemma sum_squares_nonneg (a b : R) : 0 <= a * a + b * b.
Proof. nra. Qed.

(** ** Upgrades *)

(** C1. An upgrade changes the player exactly when the gauge covers
    [50 * (level + 1)]; it then deducts that cost, adds one to the level of
    its track alone and applies the per-level effect of the track (attack:
    +5 damage, range: +20 radius, speed: +0.5 movement speed); otherwise
    it returns the player untouched. *)
Theorem upgrade_affordability (track : Track) (player : Player.t) :
  let cost := ATTACK_UPGRADE_BASE_COST * IZR (trackLevel track player + 1) in
  let player' := upgrade track player in
  (Player.bloodGauge player >= cost <-> player' <> player)
  /\ (Player.bloodGauge player >= cost ->
      Player.bloodGauge player' = Player.bloodGauge player - cost
      /\ trackLevel track player' = (trackLevel track player + 1)%Z
      /\ (forall other, other <> track ->
            trackLevel other player' = trackLevel other player)
      /\ Player.attackDamage player'
         = Player.attackDamage player
           + match track with AttackTrack => DAMAGE_INCREASE_PER_LEVEL | _ => 0 end
      /\ Player.attackRadius player'
         = Player.attackRadius player
           + match track with RangeTrack => ATTACK_RANGE_INCREASE_PER_LEVEL | _ => 0 end
      /\ moveSpeed player'
         = moveSpeed player
           + match track with SpeedTrack => MOVEMENT_SPEED_INCREASE_PER_LEVEL | _ => 0 end
      /\ sameBody player player')
  /\ (Player.bloodGauge player < cost -> player' = player).
Proof.
  intros cost player'. subst cost player'.
  destruct track; cbn [upgrade trackLevel];
    unfold strengthenAttack, strengthenRange, strengthenSpeed, strengthenProjectile;
    match goal with |- context [Rge_dec ?a ?b] => destruct (Rge_dec a b) as [Hge | Hlt] end.
  all: repeat split; try tauto; try (intros; lra); cbn; try lra; try reflexivity.
  all: try (intros other Hother; destruct other; cbn; congruence).
  all: try (unfold moveSpeed, MOVEMENT_SPEED_INCREASE_PER_LEVEL; cbn;
            rewrite ?plus_IZR; lra).
  - intros _ Heq. apply (f_equal Player.attackLevel) in Heq. cbn in Heq. lia.
  - intros _ Heq. apply (f_equal Player.rangeLevel) in Heq. cbn in Heq. lia.
  - intros _ Heq. apply (f_equal Player.speedLevel) in Heq. cbn in Heq. lia.
  - intros _ Heq. apply (f_equal Player.projectileLevel) in Heq. cbn in Heq. lia.
Qed.

Example upgrade_from_initial :
  Player.bloodGauge (strengthenAttack Player.initial) = 50
  /\ Player.attackLevel (strengthenAttack Player.initial) = 1%Z
  /\ Player.attackDamage (strengthenAttack Player.initial) = 15
  /\ strengthenAttack (strengthenAttack Player.initial) = strengthenAttack Player.initial.
Proof.
  assert (H : strengthenAttack Player.initial
              = Player.mk 0 0 0 0 20 (100 - 50 * 1) 150 (10 + 5) 500 0 1%Z 0%Z 0%Z 0%Z 0 5).
  { unfold strengthenAttack, ATTACK_UPGRADE_BASE_COST, DAMAGE_INCREASE_PER_LEVEL. cbn.
    destruct (Rge_dec 100 (50 * 1)) as [_ | Hn]; [reflexivity | exfalso; lra]. }
  rewrite H. cbn. repeat split; try lra.
  unfold strengthenAttack, ATTACK_UPGRADE_BASE_COST. cbn.
  destruct (Rge_dec (100 - 50 * 1) (50 * 2)) as [Hge | _]; [exfalso; lra | reflexivity].
Qed.

(** ** Spawn director *)

Lemma spawnEnemy_level canvas player score rand now k :
  let e := fst (spawnEnemy canvas player score rand now k) in
  Enemy.level e = enemyLevelAt (Enemy.y e)
  /\ Enemy.y e = Player.y player - height canvas / 2 - 100 - rand k * 200.
Proof.
  unfold spawnEnemy.
  destruct (chooseEnemyType _ rand (S (S k))) as [ty k1]. cbn. split; reflexivity.
Qed.

Lemma spawnEnemy_armed canvas player score rand now k :
  armed (fst (spawnEnemy canvas player score rand now k)).
Proof.
  unfold spawnEnemy, armed.
  destruct (chooseEnemyType _ rand (S (S k))) as [ty k1]. cbn.
  intros ->. cbn. split; reflexivity.
Qed.

(** The spawn loop appends exactly [n] enemies, each made by [spawnEnemy]. *)
Lemma spawnLoop_appends n canvas player score rand now :
  forall i k enemies,
  exists wave,
    fst (spawnLoop n canvas player score rand now i k enemies) = enemies ++ wave
    /\ length wave = n
    /\ Forall (fun e => exists t j, e = fst (spawnEnemy canvas player score rand t j)) wave.
Proof.
  induction n as [| n IH]; intros i k enemies; cbn [spawnLoop].
  - exists []. cbn. rewrite app_nil_r. repeat split. constructor.
  - destruct (spawnEnemy canvas player score rand (now i) k) as [enemy k'] eqn:He.
    destruct (IH (S i) k' (enemies ++ [enemy])) as (wave & Hw & Hlen & Hall).
    exists (enemy :: wave). rewrite Hw, <- app_assoc. cbn.
    repeat split; [congruence |].
    constructor; [| exact Hall].
    exists (now i), k. rewrite He. reflexivity.
Qed.

Lemma waveCount_positive player score :
  (0 <= score)%Z -> (1 <= waveCount player score)%Z.
Proof.
  intros Hs. unfold waveCount, WAVE_SCALING_FACTOR.
  assert (0 <= Zfloor (Rmax 0 (- Player.y player) / 300))%Z.
  { apply Zfloor_nonneg. pose proof (Rmax_l 0 (- Player.y player)).
    apply Rmult_le_pos; [lra |]. left. apply Rinv_0_lt_compat. lra. }
  assert (0 <= Zfloor (IZR score / 100))%Z.
  { apply Zfloor_nonneg. apply IZR_le in Hs.
    apply Rmult_le_pos; [lra |]. left. apply Rinv_0_lt_compat. lra. }
  lia.
Qed.

(** C3, as the code has it. With the canvas mounted and a score that is
    not negative, [spawnEnemyWave] appends exactly
    [1 + floor(altitude/300) + floor(score/100)] enemies to the enemy
    array, where [altitude = max(0, -playerY)]; this is at least 1. *)
Theorem wave_size canvas player score rand now k enemies :
  (0 <= score)%Z ->
  exists wave,
    fst (spawnEnemyWave (Some canvas) player score rand now k enemies) = enemies ++ wave
    /\ Z.of_nat (length wave)
       = (1 + Zfloor (Rmax 0 (- Player.y player) / 300) + Zfloor (IZR score / 100))%Z
    /\ (1 <= length wave)%nat.
Proof.
  intros Hs. cbn [spawnEnemyWave].
  destruct (spawnLoop_appends (Z.to_nat (waveCount player score)) canvas player
              score rand now 0 k enemies) as (wave & Hw & Hlen & _).
  pose proof (waveCount_positive player score Hs) as Hpos.
  exists wave. rewrite Hw, Hlen. split; [reflexivity |].
  split; [| lia].
  rewrite Z2Nat.id by lia. reflexivity.
Qed.

Lemma wave_size_witness :
  (0 <= 60)%Z
  /\ exists wave,
       fst (spawnEnemyWave (Some (mkCanvas 800 600)) (Player.set_y (-300) Player.initial)
              60 (fun _ => 0) (fun _ => 0) 0 []) = [] ++ wave
       /\ Z.of_nat (length wave)
          = (1 + Zfloor (Rmax 0 (- Player.y (Player.set_y (-300) Player.initial)) / 300)
             + Zfloor (IZR 60 / 100))%Z
       /\ (1 <= length wave)%nat.
Proof.
  split; [lia |].
  apply (wave_size (mkCanvas 800 600) (Player.set_y (-300) Player.initial) 60
           (fun _ => 0) (fun _ => 0) 0 []).
  lia.
Defined.

(** C3 as stated fails: at altitude 300 and score 60 the code spawns two
    enemies where [max(1, floor(300/300) + floor(60/100))] is one. *)
Lemma wave_size_counterexample :
  let player := Player.set_y (-300) Player.initial in
  let enemies :=
    fst (spawnEnemyWave (Some (mkCanvas 800 600)) player 60
           (fun _ => 0) (fun _ => 0) 0 []) in
  length enemies = 2%nat
  /\ specWaveSize player 60 = 1%Z
  /\ Z.of_nat (length enemies) <> specWaveSize player 60.
Proof.
  cbn zeta.
  assert (Ha : Zfloor (Rmax 0 (- Player.y (Player.set_y (-300) Player.initial)) / 300) = 1%Z).
  { cbn. apply Zfloor_eq. unfold Rmax.
    destruct (Rle_dec 0 (- -300)); lra. }
  assert (Hs : Zfloor (IZR 60 / 100) = 0%Z) by (apply Zfloor_eq; lra).
  assert (Hspec : specWaveSize (Player.set_y (-300) Player.initial) 60 = 1%Z).
  { unfold specWaveSize. rewrite Ha, Hs. reflexivity. }
  assert (Hlen : length (fst (spawnEnemyWave (Some (mkCanvas 800 600))
                                (Player.set_y (-300) Player.initial) 60
                                (fun _ => 0) (fun _ => 0) 0 [])) = 2%nat).
  { destruct (spawnLoop_appends
                (Z.to_nat (waveCount (Player.set_y (-300) Player.initial) 60))
                (mkCanvas 800 600) (Player.set_y (-300) Player.initial) 60
                (fun _ => 0) (fun _ => 0) 0%nat 0%nat []) as (wave & Hw & Hl & _).
    cbn [spawnEnemyWave]. rewrite Hw. cbn [app]. rewrite Hl.
    unfold waveCount, WAVE_SCALING_FACTOR. rewrite Ha, Hs. reflexivity. }
  rewrite Hlen, Hspec. repeat split. lia.
Qed.

Lemma enemyLevelAt_tier (spawnY : R) (n : Z) :
  (0 <= n)%Z ->
  IZR n * 500 <= - spawnY < (IZR n + 1) * 500 ->
  enemyLevelAt spawnY = (n + 1)%Z.
Proof.
  intros Hn [Hlo Hhi]. unfold enemyLevelAt, ENEMY_LEVEL_ALTITUDE_INTERVAL.
  rewrite (Zfloor_eq n); [lia |].
  split.
  - apply Rmult_le_reg_r with 500; [lra |]. unfold Rdiv.
    rewrite Rmult_assoc, Rinv_l by lra. lra.
  - apply Rmult_lt_reg_r with 500; [lra |]. unfold Rdiv.
    rewrite Rmult_assoc, Rinv_l by lra. lra.
Qed.

(** C6. Every enemy [spawnEnemyWave] appends has level
    [max(1, floor(-spawnY/500) + 1)] for its own spawn ordinate [spawnY]:
    level [n + 1] on the altitude band [500 n <= -spawnY < 500 (n + 1)]
    (1 on 0..499, 2 on 500..999, ...), whatever the score and the clock
    reading at the time of the spawn. *)
Theorem spawn_level_from_altitude canvas player score rand now k enemies :
  (exists wave,
     fst (spawnEnemyWave (Some canvas) player score rand now k enemies) = enemies ++ wave
     /\ Forall (fun e => Enemy.level e
                         = Z.max 1 (Zfloor (- Enemy.y e / 500) + 1)) wave)
  /\ (forall spawnY n, (0 <= n)%Z ->
        IZR n * 500 <= - spawnY < (IZR n + 1) * 500 ->
        enemyLevelAt spawnY = (n + 1)%Z)
  /\ (forall spawnY, 0 <= - spawnY < 500 -> enemyLevelAt spawnY = 1%Z)
  /\ (forall spawnY, 500 <= - spawnY < 1000 -> enemyLevelAt spawnY = 2%Z)
  /\ (forall score' t t' j,
        Enemy.level (fst (spawnEnemy canvas player score rand t j))
        = Enemy.level (fst (spawnEnemy canvas player score' rand t' j))).
Proof.
  split; [| split; [| split; [| split]]].
  - cbn [spawnEnemyWave].
    destruct (spawnLoop_appends (Z.to_nat (waveCount player score)) canvas player
                score rand now 0 k enemies) as (wave & Hw & _ & Hall).
    exists wave. split; [exact Hw |].
    eapply Forall_impl; [| exact Hall].
    intros e (t & j & ->).
    destruct (spawnEnemy_level canvas player score rand t j) as [Hl _].
    exact Hl.
  - exact enemyLevelAt_tier.
  - intros spawnY H. apply (enemyLevelAt_tier spawnY 0); [lia | lra].
  - intros spawnY H. apply (enemyLevelAt_tier spawnY 1); [lia | lra].
  - intros score' t t' j.
    destruct (spawnEnemy_level canvas player score rand t j) as [Hl Hy].
    destruct (spawnEnemy_level canvas player score' rand t' j) as [Hl' Hy'].
    cbv zeta in *. rewrite Hl, Hl', Hy, Hy'. reflexivity.
Qed.

(** ** Auto-attack *)

Lemma bloodRecovery_value (level : Z) :
  bloodRecovery level = Zfloor (15 * IZR level)
  /\ bloodRecovery level = (15 * level)%Z.
Proof.
  unfold bloodRecovery, BLOOD_RECOVERY_MULTIPLIER.
  replace (30 * 0.5 * IZR level) with (15 * IZR level) by lra.
  split; [reflexivity |].
  rewrite <- mult_IZR. apply Zfloor_IZR.
Qed.

Lemma removeAt_setAt {A : Type} (i : nat) (v : A) (l : list A) :
  removeAt i (setAt i v l) = removeAt i l.
Proof.
  revert i; induction l as [| h t IH]; intros [| i]; cbn; try reflexivity.
  now rewrite IH.
Qed.

Lemma length_setAt {A : Type} (i : nat) (v : A) (l : list A) :
  length (setAt i v l) = length l.
Proof.
  revert i; induction l as [| h t IH]; intros [| i]; cbn; try reflexivity.
  now rewrite IH.
Qed.

Lemma length_removeAt {A : Type} (i : nat) (l : list A) :
  (i < length l)%nat -> S (length (removeAt i l)) = length l.
Proof.
  revert i; induction l as [| h t IH]; intros [| i] H; cbn in *; try lia.
  rewrite IH by lia. reflexivity.
Qed.

(** The body of the auto-attack loop on an enemy in range whose health
    does not survive the hit. *)
Lemma attackEnemy_kill i enemy player enemies :
  distanceToEnemy player enemy < Player.attackRadius player ->
  Enemy.health enemy - Player.attackDamage player <= 0 ->
  attackEnemy i enemy player enemies
  = (recover enemy player, removeAt i enemies).
Proof.
  unfold distanceToEnemy, attackEnemy. intros Hd Hh.
  destruct (Rlt_dec _ _) as [_ | Hn]; [| contradiction].
  cbn. destruct (Rle_dec _ _) as [_ | Hn]; [| contradiction].
  rewrite removeAt_setAt. reflexivity.
Qed.

Lemma attackEnemy_survive i enemy player enemies :
  distanceToEnemy player enemy < Player.attackRadius player ->
  0 < Enemy.health enemy - Player.attackDamage player ->
  attackEnemy i enemy player enemies
  = (player,
     setAt i (Enemy.set_health (Enemy.health enemy - Player.attackDamage player) enemy)
           enemies).
Proof.
  unfold distanceToEnemy, attackEnemy. intros Hd Hh.
  destruct (Rlt_dec _ _) as [_ | Hn]; [| contradiction].
  cbn. destruct (Rle_dec _ _) as [Hle | _]; [lra | reflexivity].
Qed.

Lemma attackEnemy_out_of_range i enemy player enemies :
  Player.attackRadius player <= distanceToEnemy player enemy ->
  attackEnemy i enemy player enemies = (player, enemies).
Proof.
  unfold distanceToEnemy, attackEnemy. intros Hd.
  destruct (Rlt_dec _ _) as [Hlt | _]; [lra | reflexivity].
Qed.

Lemma attackEnemy_length i enemy player enemies :
  (length (snd (attackEnemy i enemy player enemies)) <= length enemies)%nat.
Proof.
  unfold attackEnemy.
  destruct (Rlt_dec _ _); cbn [snd]; [| lia].
  destruct (Rle_dec _ _); cbn [snd]; rewrite ?length_setAt; [| lia].
  destruct (Nat.lt_ge_cases i (length enemies)) as [Hlt | Hge].
  - pose proof (@length_removeAt _ i (setAt i
       (Enemy.set_health (Enemy.health enemy - Player.attackDamage player) enemy)
       enemies)) as H.
    rewrite length_setAt in H. specialize (H Hlt). lia.
  - rewrite removeAt_setAt.
    clear - Hge. revert i Hge.
    induction enemies as [| h t IH]; intros [| i] H; cbn in *; try lia.
    specialize (IH i). lia.
Qed.

(** The fuel of [attackLoop] never runs out before the iterator is done:
    any amount from [length enemies - i] on gives the same result. *)
Lemma attackLoop_fuel : forall fuel i player enemies extra,
  (length enemies - i <= fuel)%nat ->
  attackLoop (fuel + extra) i player enemies = attackLoop fuel i player enemies.
Proof.
  induction fuel as [| fuel IH]; intros i player enemies extra Hf.
  - assert (Hnone : nth_error enemies i = None) by (apply nth_error_None; lia).
    destruct extra; cbn; [reflexivity |]. now rewrite Hnone.
  - cbn. destruct (nth_error enemies i) as [enemy |] eqn:Hnth; [| reflexivity].
    destruct (attackEnemy i enemy player enemies) as [player' enemies'] eqn:Ha.
    apply IH.
    pose proof (attackEnemy_length i enemy player enemies) as Hl.
    rewrite Ha in Hl. cbn in Hl. lia.
Qed.

(** After a kill at index [0] the iterator moves to index [1] of the
    shortened array: the enemy that followed the dead one is now at index
    [0] and is never visited. *)
Lemma attackLoop_skips_after_kill fuel player a b rest :
  distanceToEnemy player a < Player.attackRadius player ->
  Enemy.health a - Player.attackDamage player <= 0 ->
  attackLoop (S fuel) 0 player (a :: b :: rest)
  = attackLoop fuel 1 (recover a player) (b :: rest).
Proof.
  intros Hd Hh. cbn [attackLoop nth_error].
  rewrite (attackEnemy_kill 0 a player (a :: b :: rest) Hd Hh). reflexivity.
Qed.

(** C2, at the failing input. Two enemies stand within the attack radius
    with 10 health each and the attack deals 10: the first dies and is
    spliced out, the second is never visited. It keeps its health and
    stays in the array, and the gauge gains one recovery, not two. *)
Theorem auto_attack_skips_enemy_after_kill :
  let a := Enemy.mk 30 0 0 0 15 10 30 5 1 (hsl 0 70 45) 1 melee
                    None None None None None None None in
  let b := Enemy.mk 0 40 0 0 15 10 30 5 1 (hsl 0 70 45) 1 melee
                    None None None None None None None in
  let player := Player.initial in
  attackTriggers player 1000 = true
  /\ distanceToEnemy player a < Player.attackRadius player
  /\ distanceToEnemy player b < Player.attackRadius player
  /\ Enemy.health b - Player.attackDamage player <= 0
  /\ snd (autoAttack player [a; b] 1000) = [b]
  /\ Player.bloodGauge (fst (autoAttack player [a; b] 1000)) = 115.
Proof.
  intros a b player.
  assert (Ht : attackTriggers player 1000 = true).
  { unfold attackTriggers. cbn.
    destruct (Rgt_dec (1000 - 0) 500) as [_ | Hn]; [reflexivity | exfalso; lra]. }
  assert (Ha : distanceToEnemy player a < Player.attackRadius player).
  { unfold distanceToEnemy. cbn. apply sqrt_lt_bound; lra. }
  assert (Hb : distanceToEnemy player b < Player.attackRadius player).
  { unfold distanceToEnemy. cbn. apply sqrt_lt_bound; lra. }
  assert (Hk : Enemy.health a - Player.attackDamage player <= 0) by (cbn; lra).
  assert (Hrun : autoAttack player [a; b] 1000
                 = (Player.set_lastAttackTime 1000 (recover a player), [b])).
  { unfold autoAttack. rewrite Ht. cbn [length].
    rewrite (attackLoop_skips_after_kill 1 player a b [] Ha Hk).
    reflexivity. }
  rewrite Hrun. cbn [fst snd].
  split; [exact Ht |]. split; [exact Ha |]. split; [exact Hb |].
  split; [cbn; lra |]. split; [reflexivity |].
  cbn. destruct (bloodRecovery_value 1) as [_ ->]. cbn. lra.
Qed.

(** ** Kills and the gauge *)

Lemma recover_gauge enemy player :
  Player.bloodGauge (recover enemy player)
  = Player.bloodGauge player + IZR (Zfloor (15 * IZR (Enemy.level enemy))).
Proof.
  unfold recover. cbn. destruct (bloodRecovery_value (Enemy.level enemy)) as [-> _].
  reflexivity.
Qed.

(** A projectile that overlaps [enemy], and no enemy after it in the
    array, kills it when its damage covers the enemy's health. *)
Lemma hitScan_kill projectile player enemy after :
  hitScan projectile player after = None ->
  overlaps projectile enemy ->
  Enemy.health enemy - Projectile.damage projectile <= 0 ->
  forall before,
  hitScan projectile player (before ++ enemy :: after)
  = Some (recover enemy player, before ++ after).
Proof.
  intros Hafter Hov Hdead before.
  assert (Hhere : hitScan projectile player (enemy :: after)
                  = Some (recover enemy player, after)).
  { cbn [hitScan]. rewrite Hafter. unfold overlaps in Hov.
    destruct (Rlt_dec _ _) as [_ | Hn]; [| contradiction].
    cbn. destruct (Rle_dec _ _) as [_ | Hn]; [reflexivity | contradiction]. }
  induction before as [| h t IH]; [exact Hhere |].
  cbn [app hitScan]. rewrite IH. reflexivity.
Qed.

Lemma movePlayer_idle canvas p :
  Player.vx p = 0 -> Player.vy p = 0 ->
  Player.radius p <= Player.x p <= width canvas - Player.radius p ->
  Player.y p <= height canvas - Player.radius p ->
  movePlayer canvas p = p.
Proof.
  destruct p. cbn. intros -> -> [Hlo Hhi] Hy. unfold movePlayer. cbn.
  rewrite !Rplus_0_r, (Rmin_right (width canvas - radius) x),
    (Rmax_right radius x), (Rmin_right (height canvas - radius) y) by lra.
  reflexivity.
Qed.

(** The body of the enemy loop on a melee enemy out of contact that stays
    within the culling distance: it only moves. *)
Lemma updateEnemy_melee_far canvas deltaTime currentTime st enemy :
  Enemy.type enemy = melee ->
  let d := distanceToEnemy (c_player st) enemy in
  Player.radius (c_player st) + Enemy.radius enemy <= d ->
  let moved :=
    integrate (chase (Player.x (c_player st) - Enemy.x enemy)
                     (Player.y (c_player st) - Enemy.y enemy) d enemy) in
  Rabs (Enemy.y moved - Player.y (c_player st)) <= height canvas * 2 ->
  updateEnemy canvas deltaTime currentTime st enemy = (st, Some moved).
Proof.
  intros Hty d Hfar moved Hnear. subst moved d.
  unfold updateEnemy, distanceToEnemy, contactDamage, cullEnemy in *. rewrite Hty.
  cbv zeta.
  assert (Hr : forall dx dy dd,
             Enemy.radius (integrate (chase dx dy dd enemy)) = Enemy.radius enemy).
  { intros. unfold integrate, chase. destruct (Rgt_dec dd 0); reflexivity. }
  rewrite Hr.
  destruct (Rlt_dec _ _) as [Hlt | _]; [exfalso; lra |].
  destruct (Rgt_dec _ _) as [Hgt | _]; [exfalso; lra |].
  destruct st; reflexivity.
Qed.

(** One whole tick of the sample game: the gauge drains for 16 ms, the
    enemy steps toward the player, and the auto-attack kills it. *)
Lemma sample_tick_gauge level rand :
  Player.bloodGauge (playerRef (update rand sampleFrame (sampleGame level)))
  = 100 - 16 / 1000 + IZR (15 * level)
  /\ enemiesRef (update rand sampleFrame (sampleGame level)) = [].
Proof.
  set (p1 := Player.mk 400 300 0 0 20
               (100 - (BASE_DRAIN_RATE + 0 * DRAIN_RATE_PER_LEVEL) * (16 / 1000))
               150 10 500 0 0 0 0 0 0 5).
  set (e0 := Enemy.mk 400 200 0 0 15 10 30 5 2 (hsl 0 70 45) level melee
                      None None None None None None None).
  assert (Hd : distanceToEnemy p1 e0 = 100).
  { unfold distanceToEnemy. cbn.
    replace ((400 - 400) * (400 - 400) + (300 - 200) * (300 - 200))
      with (100 * 100) by lra.
    apply sqrt_square. lra. }
  set (e1 := integrate (chase (Player.x p1 - Enemy.x e0) (Player.y p1 - Enemy.y e0)
                              (distanceToEnemy p1 e0) e0)).
  assert (He1 : Enemy.x e1 = 400 /\ Enemy.y e1 = 202
                /\ Enemy.health e1 = 10 /\ Enemy.level e1 = level).
  { subst e1. rewrite Hd. unfold integrate, chase.
    destruct (Rgt_dec 100 0) as [_ | Hn]; [| exfalso; lra]. cbn. repeat split; lra. }
  destruct He1 as (Hx1 & Hy1 & Hh1 & Hl1).
  assert (Hstep : updateEnemy sampleCanvas 16 1000 (mkCombat p1 [] playing) e0
                  = (mkCombat p1 [] playing, Some e1)).
  { apply updateEnemy_melee_far; [reflexivity | |].
    - cbn [c_player]. rewrite Hd. cbn. lra.
    - cbn [c_player]. fold e1. rewrite Hy1. cbn.
      unfold Rabs. destruct (Rcase_abs _); lra. }
  assert (Hattack : autoAttack p1 [e1] 1000
                    = (Player.set_lastAttackTime 1000 (recover e1 p1), [])).
  { assert (Ht : attackTriggers p1 1000 = true).
    { unfold attackTriggers. cbn.
      destruct (Rgt_dec (1000 - 0) 500) as [_ | Hn]; [reflexivity | exfalso; lra]. }
    assert (Hin : distanceToEnemy p1 e1 < Player.attackRadius p1).
    { unfold distanceToEnemy. rewrite Hx1, Hy1. cbn. apply sqrt_lt_bound; lra. }
    assert (Hdead : Enemy.health e1 - Player.attackDamage p1 <= 0)
      by (rewrite Hh1; cbn; lra).
    unfold autoAttack. rewrite Ht. cbn [length attackLoop nth_error].
    rewrite (attackEnemy_kill 0 e1 p1 [e1] Hin Hdead). reflexivity. }
  unfold update, sampleFrame, sampleGame.
  cbn [canvasRef playerRef enemiesRef projectilesRef deltaTime shootTime currentTime
       lastSpawnTimeRef darknessYRef gameState randomCursor closureScore spawnClock
       score cameraYRef].
  cbv zeta.
  cbn [Player.bloodGauge Player.set_bloodGauge Player.attackLevel].
  destruct (Rle_dec _ 0) as [H | _].
  { exfalso. unfold BASE_DRAIN_RATE, DRAIN_RATE_PER_LEVEL in H. lra. }
  change (steerPlayer _ _) with p1.
  change (autoFire p1 _ _ _) with (p1, @nil Projectile.t).
  cbv iota beta.
  rewrite movePlayer_idle;
    [| reflexivity | reflexivity | unfold sampleCanvas; cbn; lra
     | unfold sampleCanvas; cbn; lra].
  destruct (Rge_dec _ _) as [H | _].
  { exfalso. unfold DARKNESS_RISE_SPEED in H. cbn in H. lra. }
  destruct (Rgt_dec (1000 - 1000) 2000) as [H | _]; [exfalso; lra |].
  cbn [updateEnemies]. fold e0. rewrite Hstep.
  cbn [updateProjectiles c_player c_projectiles c_gameState b_player b_enemies].
  rewrite Hattack. cbn [playerRef enemiesRef]. split; [| reflexivity].
  change (Player.bloodGauge (Player.set_lastAttackTime 1000 (recover e1 p1)))
    with (Player.bloodGauge (recover e1 p1)).
  rewrite recover_gauge, Hl1. cbn [Player.bloodGauge p1].
  rewrite <- mult_IZR, Zfloor_IZR.
  unfold BASE_DRAIN_RATE, DRAIN_RATE_PER_LEVEL. lra.
Qed.

(** C9. A kill adds [floor(15 * level)] to the gauge and nothing bounds
    the sum: this is the whole effect on the gauge of the auto-attack body
    on an enemy it kills and of a player projectile on the enemy it kills;
    for every bound there is a run in progress with the initial gauge of
    100 whose next tick ends above the bound; only the fill ratio of the
    gauge bar is capped. *)
Theorem kill_recovery_uncapped :
  (forall i enemy player enemies,
      distanceToEnemy player enemy < Player.attackRadius player ->
      Enemy.health enemy - Player.attackDamage player <= 0 ->
      Player.bloodGauge (fst (attackEnemy i enemy player enemies))
      = Player.bloodGauge player + IZR (Zfloor (15 * IZR (Enemy.level enemy))))
  /\ (forall projectile player before enemy after,
        hitScan projectile player after = None ->
        overlaps projectile enemy ->
        Enemy.health enemy - Projectile.damage projectile <= 0 ->
        exists player',
          hitScan projectile player (before ++ enemy :: after)
          = Some (player', before ++ after)
          /\ Player.bloodGauge player'
             = Player.bloodGauge player + IZR (Zfloor (15 * IZR (Enemy.level enemy))))
  /\ (forall bound : R, exists level : Z,
        gameState (sampleGame level) = playing
        /\ Player.bloodGauge (playerRef (sampleGame level)) = 100
        /\ forall rand,
             bound < Player.bloodGauge
                       (playerRef (update rand sampleFrame (sampleGame level))))
  /\ (forall player, healthPercent player <= 1).
Proof.
  split; [| split; [| split]].
  - intros i enemy player enemies Hd Hh.
    rewrite (attackEnemy_kill i enemy player enemies Hd Hh). cbn [fst].
    apply recover_gauge.
  - intros projectile player before enemy after Hafter Hov Hdead.
    exists (recover enemy player). split.
    + apply hitScan_kill; assumption.
    + apply recover_gauge.
  - intros bound. exists (Z.max 1 (up bound)).
    split; [reflexivity |]. split; [reflexivity |]. intros rand.
    destruct (sample_tick_gauge (Z.max 1 (up bound)) rand) as [-> _].
    rewrite mult_IZR.
    destruct (archimed bound) as [Hup _].
    assert (Hmax : IZR (up bound) <= IZR (Z.max 1 (up bound))) by (apply IZR_le; lia).
    assert (Hone : 1 <= IZR (Z.max 1 (up bound))) by (apply IZR_le; lia).
    lra.
  - intros player. apply Rmin_l.
Qed.

(** ** Enemy update *)

(** The body of the enemy loop reads the gauge only to detect its
    exhaustion: from two states that differ in gauge and game state alone
    it makes the same enemy, the same projectiles and the same change of
    the gauge, and it never touches another field of the player. *)
Lemma updateEnemy_gauge_blind canvas deltaTime currentTime st st' enemy :
  sameButGauge (c_player st) (c_player st') ->
  c_projectiles st = c_projectiles st' ->
  let r := updateEnemy canvas deltaTime currentTime st enemy in
  let r' := updateEnemy canvas deltaTime currentTime st' enemy in
  snd r = snd r'
  /\ c_projectiles (fst r) = c_projectiles (fst r')
  /\ sameButGauge (c_player (fst r)) (c_player st)
  /\ sameButGauge (c_player (fst r')) (c_player st')
  /\ Player.bloodGauge (c_player (fst r)) - Player.bloodGauge (c_player st)
     = Player.bloodGauge (c_player (fst r')) - Player.bloodGauge (c_player st').
Proof.
  destruct st as [p projs gs], st' as [p' projs' gs'].
  destruct p, p'. unfold sameButGauge. cbn. intros Hp Hprojs.
  injection Hp as -> -> -> -> -> -> -> -> -> -> -> -> -> -> ->. subst projs'.
  unfold updateEnemy, contactDamage, hurt, cullEnemy, enemyProjectile, enemyAim.
  cbn. destruct (Enemy.type enemy); [| | destruct (truthy (Enemy.exploded enemy)) |].
  all: decide_reals; cbn; repeat split; try reflexivity; try contradiction; try lra.
Qed.

Lemma updateEnemies_gauge_blind canvas deltaTime currentTime enemies :
  forall st st',
  sameButGauge (c_player st) (c_player st') ->
  c_projectiles st = c_projectiles st' ->
  let r := updateEnemies canvas deltaTime currentTime st enemies in
  let r' := updateEnemies canvas deltaTime currentTime st' enemies in
  snd r = snd r'
  /\ c_projectiles (fst r) = c_projectiles (fst r')
  /\ sameButGauge (c_player (fst r)) (c_player st)
  /\ sameButGauge (c_player (fst r')) (c_player st')
  /\ Player.bloodGauge (c_player (fst r)) - Player.bloodGauge (c_player st)
     = Player.bloodGauge (c_player (fst r')) - Player.bloodGauge (c_player st').
Proof.
  induction enemies as [| enemy later IH]; intros st st' Hp Hq; cbn [updateEnemies].
  - cbn. repeat split; try assumption; try reflexivity; lra.
  - specialize (IH st st' Hp Hq). cbv zeta in IH.
    destruct (updateEnemies canvas deltaTime currentTime st later) as [s1 l1].
    destruct (updateEnemies canvas deltaTime currentTime st' later) as [s1' l1'].
    cbn [fst snd] in IH. destruct IH as (Hl & Hproj & Hs & Hs' & Hg).
    assert (Hmid : sameButGauge (c_player s1) (c_player s1'))
      by (unfold sameButGauge in *; congruence).
    pose proof (updateEnemy_gauge_blind canvas deltaTime currentTime s1 s1' enemy
                  Hmid Hproj) as Hstep.
    cbv zeta in Hstep.
    destruct (updateEnemy canvas deltaTime currentTime s1 enemy) as [s2 o2].
    destruct (updateEnemy canvas deltaTime currentTime s1' enemy) as [s2' o2'].
    cbn [fst snd] in *. destruct Hstep as (Ho & Hproj2 & Ht & Ht' & Hg2).
    subst o2' l1'. repeat split; try assumption.
    + unfold sameButGauge in *; congruence.
    + unfold sameButGauge in *; congruence.
    + lra.
Qed.

Lemma sameButGauge_distance p q enemy :
  sameButGauge p q -> distanceToEnemy p enemy = distanceToEnemy q enemy.
Proof.
  unfold sameButGauge, distanceToEnemy. intros H.
  pose proof (f_equal Player.x H) as Hx. pose proof (f_equal Player.y H) as Hy.
  cbn in Hx, Hy. rewrite Hx, Hy. reflexivity.
Qed.

(** Steering and integration leave the damage and the explosion radius
    of an enemy alone. *)
Lemma integrate_chase_radius dx dy distance enemy :
  Enemy.explosionRadius (integrate (chase dx dy distance enemy))
  = Enemy.explosionRadius enemy.
Proof. unfold integrate, chase. destruct (Rgt_dec distance 0); reflexivity. Qed.

Lemma integrate_chase_damage dx dy distance enemy :
  Enemy.damage (integrate (chase dx dy distance enemy)) = Enemy.damage enemy.
Proof. unfold integrate, chase. destruct (Rgt_dec distance 0); reflexivity. Qed.

(** The body of the enemy loop on an armed explosive enemy closer than the
    trigger distance. *)
Lemma updateEnemy_explodes canvas deltaTime currentTime st enemy :
  Enemy.type enemy = explosive ->
  armed enemy ->
  distanceToEnemy (c_player st) enemy < EXPLOSIVE_TRIGGER_DISTANCE ->
  let gauge := Player.bloodGauge (c_player st)
               - blast enemy (distanceToEnemy (c_player st) enemy) in
  updateEnemy canvas deltaTime currentTime st enemy
  = (mkCombat (Player.set_bloodGauge gauge (c_player st)) (c_projectiles st)
              (if Rle_dec gauge 0 then gameover else c_gameState st),
     None).
Proof.
  intros Hty Harmed Hd. destruct (Harmed Hty) as [Hex Hrad].
  unfold updateEnemy, distanceToEnemy, blast in *.
  rewrite Hty, Hex. cbn [truthy].
  cbv zeta. rewrite !integrate_chase_radius, !integrate_chase_damage, Hrad.
  cbn [orDefault].
  unfold EXPLOSIVE_EXPLOSION_RADIUS, EXPLOSIVE_TRIGGER_DISTANCE in *.
  destruct (Req_dec_T 100 0) as [Habs | _]; [exfalso; lra |].
  destruct (Rlt_dec _ 80) as [_ | Hn]; [| contradiction].
  destruct (Rlt_dec _ 100) as [_ | Hn]; [| exfalso; lra].
  unfold hurt. cbn. reflexivity.
Qed.

(** The body of the enemy loop on an explosive enemy at the trigger
    distance or farther: nothing but the enemy changes. *)
Lemma updateEnemy_explosive_idle canvas deltaTime currentTime st enemy :
  Enemy.type enemy = explosive ->
  EXPLOSIVE_TRIGGER_DISTANCE <= distanceToEnemy (c_player st) enemy ->
  fst (updateEnemy canvas deltaTime currentTime st enemy) = st.
Proof.
  intros Hty Hd. unfold updateEnemy, distanceToEnemy in *. rewrite Hty.
  destruct (truthy (Enemy.exploded enemy)); [reflexivity |].
  destruct (Rlt_dec _ EXPLOSIVE_TRIGGER_DISTANCE) as [Hlt | _]; [lra | reflexivity].
Qed.

(** The enemy loop over an array that holds a triggering explosive enemy,
    against the loop over the array without it. *)
Lemma explosion_in_loop canvas deltaTime currentTime st enemy after :
  Enemy.type enemy = explosive ->
  armed enemy ->
  distanceToEnemy (c_player st) enemy < EXPLOSIVE_TRIGGER_DISTANCE ->
  forall before,
  let withEnemy :=
    updateEnemies canvas deltaTime currentTime st (before ++ enemy :: after) in
  let without :=
    updateEnemies canvas deltaTime currentTime st (before ++ after) in
  snd withEnemy = snd without
  /\ c_projectiles (fst withEnemy) = c_projectiles (fst without)
  /\ sameButGauge (c_player (fst withEnemy)) (c_player (fst without))
  /\ Player.bloodGauge (c_player (fst withEnemy))
     = Player.bloodGauge (c_player (fst without))
       - blast enemy (distanceToEnemy (c_player st) enemy).
Proof.
  intros Hty Harmed Hd.
  assert (Hrefl : sameButGauge (c_player st) (c_player st)) by reflexivity.
  induction before as [| h before IH]; cbn [app updateEnemies].
  - pose proof (updateEnemies_gauge_blind canvas deltaTime currentTime after st st
                  Hrefl eq_refl) as Hloop.
    cbv zeta in Hloop.
    destruct (updateEnemies canvas deltaTime currentTime st after) as [s1 l1].
    cbn [fst snd] in Hloop. destruct Hloop as (_ & _ & Hs1 & _ & _).
    assert (Hd1 : distanceToEnemy (c_player s1) enemy
                  = distanceToEnemy (c_player st) enemy)
      by (apply sameButGauge_distance; exact Hs1).
    rewrite (updateEnemy_explodes canvas deltaTime currentTime s1 enemy Hty Harmed)
      by (rewrite Hd1; exact Hd).
    rewrite Hd1. cbn. repeat split.
  - cbv zeta in IH.
    destruct (updateEnemies canvas deltaTime currentTime st (before ++ enemy :: after))
      as [sw lw].
    destruct (updateEnemies canvas deltaTime currentTime st (before ++ after))
      as [so lo].
    cbn [fst snd] in IH. destruct IH as (Hl & Hproj & Hsame & Hg).
    pose proof (updateEnemy_gauge_blind canvas deltaTime currentTime sw so h
                  Hsame Hproj) as Hstep.
    cbv zeta in Hstep.
    destruct (updateEnemy canvas deltaTime currentTime sw h) as [sw' ow].
    destruct (updateEnemy canvas deltaTime currentTime so h) as [so' oo].
    cbn [fst snd] in *. destruct Hstep as (Ho & Hproj' & Hw & Hso & Hg').
    subst ow lw. repeat split; try assumption.
    + unfold sameButGauge in *; congruence.
    + lra.
Qed.

(** C4. An armed explosive enemy (the state [spawnEnemyWave] creates it
    in) that the enemy loop finds closer than 80 to the player takes
    [damage * 3 * max(0, 1 - d/100)] from the gauge, which is
    [damage * 3 * (1 - d/100)] there, and is spliced out in the same
    iteration. For the whole loop: the enemy array after the tick is the
    one the tick would have produced without the enemy, so no later tick
    finds it; the projectiles are the same; and the gauge is lower by
    exactly one blast. *)
Theorem explosion_resolves_once canvas deltaTime currentTime st before enemy after :
  Enemy.type enemy = explosive ->
  armed enemy ->
  distanceToEnemy (c_player st) enemy < EXPLOSIVE_TRIGGER_DISTANCE ->
  let d := distanceToEnemy (c_player st) enemy in
  let damage := Enemy.damage enemy * 3 * Rmax 0 (1 - d / 100) in
  let exploded := updateEnemy canvas deltaTime currentTime st enemy in
  let withEnemy :=
    updateEnemies canvas deltaTime currentTime st (before ++ enemy :: after) in
  let without :=
    updateEnemies canvas deltaTime currentTime st (before ++ after) in
  damage = Enemy.damage enemy * 3 * (1 - d / 100)
  /\ snd exploded = None
  /\ Player.bloodGauge (c_player (fst exploded))
     = Player.bloodGauge (c_player st) - damage
  /\ snd withEnemy = snd without
  /\ c_projectiles (fst withEnemy) = c_projectiles (fst without)
  /\ Player.bloodGauge (c_player (fst withEnemy))
     = Player.bloodGauge (c_player (fst without)) - damage.
Proof.
  intros Hty Harmed Hd d damage exploded withEnemy without.
  assert (Hdamage : damage = blast enemy d) by reflexivity.
  split.
  { subst damage. unfold Rmax, EXPLOSIVE_TRIGGER_DISTANCE in *. fold d in Hd.
    destruct (Rle_dec 0 (1 - d / 100)) as [_ | Hn]; [reflexivity | exfalso; lra]. }
  split; [| split].
  { subst exploded.
    rewrite (updateEnemy_explodes canvas deltaTime currentTime st enemy Hty Harmed Hd).
    reflexivity. }
  { subst exploded.
    rewrite (updateEnemy_explodes canvas deltaTime currentTime st enemy Hty Harmed Hd).
    cbn. fold d. rewrite Hdamage. reflexivity. }
  rewrite Hdamage.
  destruct (explosion_in_loop canvas deltaTime currentTime st enemy after
              Hty Harmed Hd before) as (Hl & Hproj & _ & Hg).
  repeat split; assumption.
Qed.

Lemma explosion_resolves_once_witness :
  Enemy.type sampleBomber = explosive
  /\ armed sampleBomber
  /\ distanceToEnemy (c_player sampleCombat) sampleBomber < EXPLOSIVE_TRIGGER_DISTANCE
  /\ snd (updateEnemy sampleCanvas 16 1000 sampleCombat sampleBomber) = None
  /\ snd (updateEnemies sampleCanvas 16 1000 sampleCombat
            ([sampleGiant melee] ++ sampleBomber :: []))
     = snd (updateEnemies sampleCanvas 16 1000 sampleCombat ([sampleGiant melee] ++ [])).
Proof.
  assert (Hty : Enemy.type sampleBomber = explosive) by reflexivity.
  assert (Harmed : armed sampleBomber) by (intros _; split; reflexivity).
  assert (Hd : distanceToEnemy (c_player sampleCombat) sampleBomber
               < EXPLOSIVE_TRIGGER_DISTANCE).
  { unfold distanceToEnemy, EXPLOSIVE_TRIGGER_DISTANCE. cbn.
    apply sqrt_lt_bound; lra. }
  split; [exact Hty |]. split; [exact Harmed |]. split; [exact Hd |].
  pose proof (explosion_resolves_once sampleCanvas 16 1000 sampleCombat
                [sampleGiant melee] sampleBomber [] Hty Harmed Hd) as H.
  cbv zeta in H. destruct H as (_ & Hnone & _ & Hlist & _).
  split; [exact Hnone | exact Hlist].
Defined.

(** C10. An explosive enemy that does not trigger (distance 80 or more)
    leaves the player, the projectiles and the game state as they were,
    whether or not its circle overlaps the player's; and whatever the
    distance, the body of the loop either leaves the gauge alone or takes
    the damage of the explosion from it, which requires the trigger. *)
Theorem explosive_no_contact_damage canvas deltaTime currentTime st enemy :
  Enemy.type enemy = explosive ->
  let d := distanceToEnemy (c_player st) enemy in
  let after := fst (updateEnemy canvas deltaTime currentTime st enemy) in
  (EXPLOSIVE_TRIGGER_DISTANCE <= d -> after = st)
  /\ (Player.bloodGauge (c_player after) = Player.bloodGauge (c_player st)
      \/ (d < EXPLOSIVE_TRIGGER_DISTANCE
          /\ snd (updateEnemy canvas deltaTime currentTime st enemy) = None
          /\ Player.bloodGauge (c_player after)
             = Player.bloodGauge (c_player st)
               - Enemy.damage enemy * EXPLOSIVE_DAMAGE_MULTIPLIER
                 * Rmax 0 (1 - d / orDefault (Enemy.explosionRadius enemy)
                                             EXPLOSIVE_EXPLOSION_RADIUS))).
Proof.
  intros Hty d after. split.
  - intros Hd. apply updateEnemy_explosive_idle; assumption.
  - subst after d. unfold updateEnemy, distanceToEnemy. rewrite Hty.
    destruct (truthy (Enemy.exploded enemy)); [left; reflexivity |].
    cbv zeta. rewrite !integrate_chase_radius, !integrate_chase_damage.
    destruct (Rlt_dec _ EXPLOSIVE_TRIGGER_DISTANCE) as [Hlt | _];
      [| left; reflexivity].
    destruct (Rlt_dec _ (orDefault _ _)) as [_ | _]; [| left; reflexivity].
    right. split; [exact Hlt |]. unfold hurt. cbn. split; reflexivity.
Qed.

Lemma explosive_no_contact_damage_witness :
  Enemy.type (sampleGiant explosive) = explosive
  /\ distanceToEnemy Player.initial (sampleGiant explosive)
     < Player.radius Player.initial + Enemy.radius (sampleGiant explosive)
  /\ fst (updateEnemy sampleCanvas 16 1000 sampleCombat (sampleGiant explosive))
     = sampleCombat.
Proof.
  assert (Hd : distanceToEnemy Player.initial (sampleGiant explosive) = 80).
  { unfold distanceToEnemy. cbn.
    replace ((0 - 80) * (0 - 80) + (0 - 0) * (0 - 0)) with (80 * 80) by lra.
    apply sqrt_square. lra. }
  split; [reflexivity |]. split; [rewrite Hd; cbn; lra |].
  apply (explosive_no_contact_damage sampleCanvas 16 1000 sampleCombat
           (sampleGiant explosive) eq_refl).
  change (c_player sampleCombat) with Player.initial. rewrite Hd.
  unfold EXPLOSIVE_TRIGGER_DISTANCE. lra.
Defined.

(** In the same place a melee enemy does drain the gauge. *)
Example melee_contact_damage_same_place :
  Player.bloodGauge
    (c_player (fst (updateEnemy sampleCanvas 16 1000 sampleCombat (sampleGiant melee))))
  = 100 - 5 * (16 / 1000).
Proof.
  assert (Hd : sqrt ((0 - 80) * (0 - 80) + (0 - 0) * (0 - 0)) = 80).
  { replace ((0 - 80) * (0 - 80) + (0 - 0) * (0 - 0)) with (80 * 80) by lra.
    apply sqrt_square. lra. }
  unfold updateEnemy, contactDamage, hurt, chase, integrate. cbn.
  rewrite !Hd.
  destruct (Rgt_dec 80 0) as [_ | Hn]; [| exfalso; lra]. cbn.
  destruct (Rlt_dec 80 (20 + 70)) as [_ | Hn]; [| exfalso; lra]. cbn.
  reflexivity.
Qed.

(** ** Homing *)

Lemma sqrt_sq_sum (a b : R) :
  sqrt (a * a + b * b) * sqrt (a * a + b * b) = a * a + b * b.
Proof. apply sqrt_sqrt. apply sum_squares_nonneg. Qed.

Lemma sqrt_pos_arg (a b : R) : sqrt (a * a + b * b) > 0 -> 0 < a * a + b * b.
Proof.
  intros H. destruct (Rle_lt_dec (a * a + b * b) 0) as [Hle | Hlt]; [| exact Hlt].
  assert (Hz : a * a + b * b = 0) by (pose proof (sum_squares_nonneg a b); lra).
  rewrite Hz, sqrt_0 in H. lra.
Qed.

(** Rescaling a non-zero vector to length [c]. *)
Lemma rescaled_length (a b c : R) :
  0 <= c ->
  sqrt (a * a + b * b) > 0 ->
  let s := sqrt (a * a + b * b) in
  sqrt ((a / s) * c * ((a / s) * c) + (b / s) * c * ((b / s) * c)) = c.
Proof.
  intros Hc Hs s. pose proof (sqrt_sq_sum a b) as Hss. fold s in Hss, Hs.
  replace ((a / s) * c * ((a / s) * c) + (b / s) * c * ((b / s) * c))
    with (c * c * ((a * a + b * b) / (s * s))) by (field; lra).
  rewrite <- Hss.
  replace (c * c * (s * s / (s * s))) with (c * c) by (field; lra).
  apply sqrt_square. exact Hc.
Qed.

(** Moving 15% of the way from a vector of length 8 to another vector of
    length 8 never reaches the zero vector. *)
Lemma blend_nonzero (a b u v : R) :
  a * a + b * b = 64 -> u * u + v * v = 64 ->
  let x := a + (u - a) * PROJECTILE_HOMING_STRENGTH in
  let y := b + (v - b) * PROJECTILE_HOMING_STRENGTH in
  0 < x * x + y * y.
Proof.
  intros Hab Huv x y. subst x y. unfold PROJECTILE_HOMING_STRENGTH.
  pose proof (sum_squares_nonneg (a + u) (b + v)). nra.
Qed.

Lemma unit_direction_length (dx dy c : R) :
  0 <= c ->
  sqrt (dx * dx + dy * dy) > 0 ->
  let d := sqrt (dx * dx + dy * dy) in
  (dx / d) * c * ((dx / d) * c) + (dy / d) * c * ((dy / d) * c) = c * c.
Proof.
  intros Hc Hd d. pose proof (sqrt_sq_sum dx dy) as Hdd. fold d in Hdd, Hd.
  replace ((dx / d) * c * ((dx / d) * c) + (dy / d) * c * ((dy / d) * c))
    with (c * c * ((dx * dx + dy * dy) / (d * d))) by (field; lra).
  rewrite <- Hdd. field. lra.
Qed.

Lemma homingStep_speed projectile enemies :
  projectileSpeed projectile = PROJECTILE_SPEED_PLAYER ->
  projectileSpeed (homingStep projectile enemies) = PROJECTILE_SPEED_PLAYER.
Proof.
  unfold projectileSpeed, homingStep, PROJECTILE_SPEED_PLAYER. intros Hspeed.
  destruct (nearestEnemy projectile enemies) as [nearest |]; [| exact Hspeed].
  cbv zeta.
  set (dx := Enemy.x nearest - Projectile.x projectile).
  set (dy := Enemy.y nearest - Projectile.y projectile).
  destruct (Rgt_dec (sqrt (dx * dx + dy * dy)) 0) as [Hd | _]; [| exact Hspeed].
  set (d := sqrt (dx * dx + dy * dy)) in *.
  set (a := Projectile.vx projectile) in *.
  set (b := Projectile.vy projectile) in *.
  assert (Hab : a * a + b * b = 64).
  { pose proof (sqrt_sq_sum a b) as H. rewrite Hspeed in H. lra. }
  assert (Huv : dx / d * 8 * (dx / d * 8) + dy / d * 8 * (dy / d * 8) = 64).
  { pose proof (unit_direction_length dx dy 8 ltac:(lra) Hd) as H.
    cbv zeta in H. fold d in H. lra. }
  pose proof (blend_nonzero a b (dx / d * 8) (dy / d * 8) Hab Huv) as Hpos.
  cbv zeta in Hpos.
  set (x := a + (dx / d * 8 - a) * PROJECTILE_HOMING_STRENGTH) in *.
  set (y := b + (dy / d * 8 - b) * PROJECTILE_HOMING_STRENGTH) in *.
  assert (Hs : sqrt (x * x + y * y) > 0) by (apply sqrt_lt_R0; exact Hpos).
  destruct (Rgt_dec (sqrt (x * x + y * y)) 0) as [_ | Hn]; [| contradiction].
  cbn. apply (rescaled_length x y 8); [lra | exact Hs].
Qed.

Lemma aimAt_speed player target :
  let '(vx, vy) := aimAt player target in
  sqrt (vx * vx + vy * vy) = PROJECTILE_SPEED_PLAYER.
Proof.
  unfold aimAt, PROJECTILE_SPEED_PLAYER. cbv zeta.
  set (dx := target_x target - Player.x player).
  set (dy := target_y target - Player.y player).
  destruct (Rgt_dec (sqrt (dx * dx + dy * dy)) 0) as [Hd | _].
  - apply (rescaled_length dx dy 8); [lra | exact Hd].
  - replace (0 * 0 + - (8) * - (8)) with (8 * 8) by lra. apply sqrt_square. lra.
Qed.

(** Every projectile the player fires leaves at speed 8. *)
Lemma fireAt_speed player target :
  projectileSpeed (fireAt player target) = PROJECTILE_SPEED_PLAYER.
Proof.
  unfold projectileSpeed, fireAt. pose proof (aimAt_speed player target) as H.
  destruct (aimAt player target) as [vx vy]. cbn. exact H.
Qed.

(** A blend that vanishes: the velocity was [3/17] of the desired one,
    reversed. *)
Lemma blend_zero_speed (a b u v : R) :
  u * u + v * v = 64 ->
  a + (u - a) * PROJECTILE_HOMING_STRENGTH = 0 ->
  b + (v - b) * PROJECTILE_HOMING_STRENGTH = 0 ->
  sqrt (a * a + b * b) = 24 / 17.
Proof.
  unfold PROJECTILE_HOMING_STRENGTH. intros Huv Ha Hb.
  assert (Ea : a = - (3 / 17) * u) by lra.
  assert (Eb : b = - (3 / 17) * v) by lra.
  replace (a * a + b * b) with (24 / 17 * (24 / 17)) by (subst a b; nra).
  apply sqrt_square. lra.
Qed.

Lemma homingStep_renormalises projectile enemies nearest :
  nearestEnemy projectile enemies = Some nearest ->
  distanceFromProjectile projectile nearest > 0 ->
  projectileSpeed (homingStep projectile enemies) = PROJECTILE_SPEED_PLAYER
  \/ (projectileSpeed projectile = 24 / 17
      /\ Projectile.vx (homingStep projectile enemies) = 0
      /\ Projectile.vy (homingStep projectile enemies) = 0).
Proof.
  unfold projectileSpeed, homingStep, distanceFromProjectile, PROJECTILE_SPEED_PLAYER.
  intros -> Hd. cbv zeta in *.
  set (dx := Enemy.x nearest - Projectile.x projectile) in *.
  set (dy := Enemy.y nearest - Projectile.y projectile) in *.
  destruct (Rgt_dec (sqrt (dx * dx + dy * dy)) 0) as [_ | Hn]; [| contradiction].
  set (d := sqrt (dx * dx + dy * dy)) in *.
  set (a := Projectile.vx projectile).
  set (b := Projectile.vy projectile).
  assert (Huv : dx / d * 8 * (dx / d * 8) + dy / d * 8 * (dy / d * 8) = 64).
  { pose proof (unit_direction_length dx dy 8 ltac:(lra) Hd) as H.
    cbv zeta in H. fold d in H. lra. }
  set (x := a + (dx / d * 8 - a) * PROJECTILE_HOMING_STRENGTH) in *.
  set (y := b + (dy / d * 8 - b) * PROJECTILE_HOMING_STRENGTH) in *.
  destruct (Rgt_dec (sqrt (x * x + y * y)) 0) as [Hs | Hs].
  - left. cbn. apply (rescaled_length x y 8); [lra | exact Hs].
  - right. cbn.
    assert (Hz : x * x + y * y = 0).
    { pose proof (sum_squares_nonneg x y) as Hnonneg.
      destruct (Rle_lt_or_eq_dec _ _ Hnonneg) as [Hpos | Heq]; [| lra].
      exfalso. apply Hs. apply sqrt_lt_R0. exact Hpos. }
    assert (Hx : x = 0) by nra. assert (Hy : y = 0) by nra.
    split; [| split; assumption].
    apply (blend_zero_speed a b (dx / d * 8) (dy / d * 8)); [lra | exact Hx | exact Hy].
Qed.

(** C7. One homing step renormalises: with the nearest enemy at a distance
    above 0 the new velocity has length 8 whatever the old one was, but for
    the one velocity the 15% blend cancels (length 24/17, straight away from
    the enemy), which the step leaves at rest; with no enemy, or the nearest
    enemy at distance 0, the projectile is returned as it is. So one homing
    step maps a projectile of speed 8 to a projectile of speed 8, and a
    projectile of speed 8 that survives the body of the projectile loop
    still has speed 8. Lengths are those of exact arithmetic. *)
Theorem homing_keeps_speed projectile :
  (forall enemies,
      match nearestEnemy projectile enemies with
      | None => homingStep projectile enemies = projectile
      | Some nearest =>
          if Rgt_dec (distanceFromProjectile projectile nearest) 0
          then projectileSpeed (homingStep projectile enemies) = PROJECTILE_SPEED_PLAYER
               \/ (projectileSpeed projectile = 24 / 17
                   /\ Projectile.vx (homingStep projectile enemies) = 0
                   /\ Projectile.vy (homingStep projectile enemies) = 0)
          else homingStep projectile enemies = projectile
      end)
  /\ homingStep projectile [] = projectile
  /\ (projectileSpeed projectile = PROJECTILE_SPEED_PLAYER ->
      (forall enemies,
          projectileSpeed (homingStep projectile enemies) = PROJECTILE_SPEED_PLAYER)
      /\ (forall canvas st projectile',
            snd (updateProjectile canvas st projectile) = Some projectile' ->
            projectileSpeed projectile' = PROJECTILE_SPEED_PLAYER)).
Proof.
  split; [| split; [reflexivity |]].
  - intros enemies.
    destruct (nearestEnemy projectile enemies) as [nearest |] eqn:Hnearest.
    + destruct (Rgt_dec (distanceFromProjectile projectile nearest) 0) as [Hd | Hd].
      * apply (homingStep_renormalises projectile enemies nearest Hnearest Hd).
      * unfold homingStep. rewrite Hnearest. cbv zeta.
        unfold distanceFromProjectile in Hd. cbv zeta in Hd.
        destruct (Rgt_dec _ 0) as [Hgt | _]; [contradiction | reflexivity].
    + unfold homingStep. rewrite Hnearest. reflexivity.
  - intros Hspeed. split.
    + intros enemies. apply homingStep_speed. exact Hspeed.
    + intros canvas st projectile'. unfold updateProjectile. cbv zeta.
      set (steered := if truthy (Projectile.fromPlayer projectile)
                         && truthy (Projectile.homing projectile)
                      then homingStep projectile (b_enemies st) else projectile).
      assert (Hsteered : projectileSpeed steered = PROJECTILE_SPEED_PLAYER).
      { subst steered. destruct (_ && _); [apply homingStep_speed |]; exact Hspeed. }
      set (moved := Projectile.set_pos _ _ steered).
      assert (Hmoved : projectileSpeed moved = PROJECTILE_SPEED_PLAYER) by exact Hsteered.
      clearbody moved. unfold cullProjectile.
      destruct (truthy (Projectile.fromPlayer moved)).
      * destruct (hitScan moved (b_player st) (b_enemies st)) as [[p' l'] |];
          cbn [snd]; [discriminate |].
        destruct (Rgt_dec _ _); [discriminate |].
        intros [= <-]. exact Hmoved.
      * destruct (Rlt_dec _ _).
        -- destruct (hurt _ _ _). cbn [snd]. discriminate.
        -- cbn [snd]. destruct (Rgt_dec _ _); [discriminate |].
           intros [= <-]. exact Hmoved.
Qed.

Lemma binary64_homed_value :
  Binary64.toR (fst Binary64.homed) = 8817056708986640 / 9007199254740992
  /\ Binary64.toR (snd Binary64.homed) = - (8939515829944788 / 1125899906842624).
Proof.
  unfold Binary64.toR.
  assert (Hx : FloatOps.Prim2SF (fst Binary64.homed)
               = SpecFloat.S754_finite false 8817056708986640 (-53))
    by (vm_compute; reflexivity).
  assert (Hy : FloatOps.Prim2SF (snd Binary64.homed)
               = SpecFloat.S754_finite true 8939515829944788 (-50))
    by (vm_compute; reflexivity).
  rewrite Hx, Hy. split; reflexivity.
Qed.

(** C7 as stated fails: the magnitude is not again exactly 8 in the
    arithmetic of the program. In binary64 the projectile at the origin
    with velocity (0, -8), of magnitude exactly 8, and the nearest enemy at
    (30, 40) leaves the homing step with a velocity whose computed magnitude
    is the double just below 8 (7.999999999999999) and whose true magnitude
    is not 8 either, while the same step in exact arithmetic gives 8. *)
Lemma homing_speed_rounding_counterexample :
  projectileSpeed (homingStep sampleShot [sampleBomber]) = 8
  /\ PrimFloat.eqb (Binary64.speed Binary64.launched) Binary64.PROJECTILE_SPEED_PLAYER
  = true
  /\ PrimFloat.eqb (Binary64.speed Binary64.homed) Binary64.PROJECTILE_SPEED_PLAYER
     = false
  /\ PrimFloat.eqb (Binary64.speed Binary64.homed)
                   (PrimFloat.next_down Binary64.PROJECTILE_SPEED_PLAYER)
     = true
  /\ sqrt (Binary64.toR (fst Binary64.homed) * Binary64.toR (fst Binary64.homed)
           + Binary64.toR (snd Binary64.homed) * Binary64.toR (snd Binary64.homed))
     <> 8.
Proof.
  split.
  { apply homingStep_speed. unfold projectileSpeed, PROJECTILE_SPEED_PLAYER. cbn.
    replace (0 * 0 + - (8) * - (8)) with (8 * 8) by lra. apply sqrt_square. lra. }
  split; [vm_compute; reflexivity |].
  split; [vm_compute; reflexivity |].
  split; [vm_compute; reflexivity |].
  destruct binary64_homed_value as [-> ->].
  intros H.
  pose proof (sqrt_sq_sum (8817056708986640 / 9007199254740992)
                          (- (8939515829944788 / 1125899906842624))) as Hsq.
  rewrite H in Hsq. lra.
Qed.

(** ** Zero distance *)

Lemma checked_div_nonzero (a b : R) : b > 0 -> Checked.div a b = Some (a / b).
Proof.
  intros Hb. unfold Checked.div.
  destruct (Req_dec_T b 0) as [Hz | _]; [exfalso; lra | reflexivity].
Qed.

(** C8, as the code has it. Every direction computation divides by the
    distance (and the homing step by the speed) only under the guard
    [> 0], so none divides by zero: with a division that fails on a zero
    divisor each still returns its result. At distance zero the ranged and
    chaser projectile aiming gives the zero vector, the player projectile
    aiming gives the default upward velocity [(0, -8)], and the steering
    leaves the enemy with the velocity it had. *)
Theorem directions_guard_zero_distance :
  (forall player target, Checked.aimAt player target = Some (aimAt player target))
  /\ (forall dx dy distance enemy,
        Checked.chase dx dy distance enemy = Some (chase dx dy distance enemy)
        /\ Checked.flee dx dy distance enemy = Some (flee dx dy distance enemy))
  /\ (forall dx dy distance speed,
        Checked.enemyAim dx dy distance speed = Some (enemyAim dx dy distance speed))
  /\ (forall projectile enemies,
        Checked.homingStep projectile enemies = Some (homingStep projectile enemies))
  /\ (forall dx dy speed, enemyAim dx dy 0 speed = (0, 0))
  /\ (forall player target,
        sqrt ((target_x target - Player.x player) * (target_x target - Player.x player)
              + (target_y target - Player.y player) * (target_y target - Player.y player))
        = 0 ->
        aimAt player target = (0, - PROJECTILE_SPEED_PLAYER))
  /\ (forall dx dy enemy, chase dx dy 0 enemy = enemy /\ flee dx dy 0 enemy = enemy).
Proof.
  repeat split.
  - intros player target. unfold Checked.aimAt, aimAt. cbv zeta.
    destruct (Rgt_dec _ 0) as [Hd | _]; [| reflexivity].
    rewrite !checked_div_nonzero by exact Hd. reflexivity.
  - unfold Checked.chase, chase.
    destruct (Rgt_dec distance 0) as [Hd | _]; [| reflexivity].
    rewrite !checked_div_nonzero by exact Hd. reflexivity.
  - unfold Checked.flee, flee.
    destruct (Rgt_dec distance 0) as [Hd | _]; [| reflexivity].
    rewrite !checked_div_nonzero by exact Hd. reflexivity.
  - intros dx dy distance speed. unfold Checked.enemyAim, enemyAim.
    destruct (Rgt_dec distance 0) as [Hd | _]; [| reflexivity].
    rewrite !checked_div_nonzero by exact Hd. reflexivity.
  - intros projectile enemies. unfold Checked.homingStep, homingStep.
    destruct (nearestEnemy projectile enemies) as [nearest |]; [| reflexivity].
    cbv zeta.
    destruct (Rgt_dec _ 0) as [Hd | _]; [| reflexivity].
    rewrite !checked_div_nonzero by exact Hd. cbn [Checked.bind].
    destruct (Rgt_dec _ 0) as [Hs | _]; [| reflexivity].
    rewrite !checked_div_nonzero by exact Hs. reflexivity.
  - intros dx dy speed. unfold enemyAim.
    destruct (Rgt_dec 0 0) as [Hd | _]; [exfalso; lra | reflexivity].
  - intros player target Hz. unfold aimAt. cbv zeta. rewrite Hz.
    destruct (Rgt_dec 0 0) as [Hd | _]; [exfalso; lra | reflexivity].
  - unfold chase. destruct (Rgt_dec 0 0) as [Hd | _]; [exfalso; lra | reflexivity].
  - unfold flee. destruct (Rgt_dec 0 0) as [Hd | _]; [exfalso; lra | reflexivity].
Qed.

(** C8 as stated fails: for a target at the player's own position the
    player projectile aiming gives [(0, -8)], not the zero vector, and an
    enemy standing on the player keeps the velocity it had. *)
Lemma zero_distance_direction_counterexample :
  let player := Player.initial in
  let target := PointTarget 0 0 in
  let enemy := Enemy.set_pos 0 0 (Enemy.set_vel 1 2 (sampleGiant melee)) in
  sqrt ((target_x target - Player.x player) * (target_x target - Player.x player)
        + (target_y target - Player.y player) * (target_y target - Player.y player)) = 0
  /\ aimAt player target = (0, - (8))
  /\ aimAt player target <> (0, 0)
  /\ distanceToEnemy player enemy = 0
  /\ (Enemy.vx (chase 0 0 0 enemy), Enemy.vy (chase 0 0 0 enemy)) = (1, 2).
Proof.
  cbv zeta.
  assert (Hz : sqrt ((0 - 0) * (0 - 0) + (0 - 0) * (0 - 0)) = 0).
  { replace ((0 - 0) * (0 - 0) + (0 - 0) * (0 - 0)) with 0 by lra. apply sqrt_0. }
  assert (Haim : aimAt Player.initial (PointTarget 0 0) = (0, - (8))).
  { unfold aimAt. cbn. rewrite Hz.
    destruct (Rgt_dec 0 0) as [Hd | _]; [exfalso; lra | reflexivity]. }
  split; [exact Hz |]. split; [exact Haim |]. split; [| split].
  - rewrite Haim. intros [= H]. lra.
  - exact Hz.
  - unfold chase. destruct (Rgt_dec 0 0) as [Hd | _]; [exfalso; lra | reflexivity].
Qed.

(** ** Player ranged fire *)

Section SortByKey.
Context {A : Type} (key : A -> R).

Lemma insertByKey_perm (a : A) (l : list A) :
  Permutation (insertByKey key a l) (a :: l).
Proof.
  induction l as [| h t IH]; cbn; [reflexivity |].
  destruct (Rle_dec (key a) (key h)); [reflexivity |].
  rewrite IH. apply perm_swap.
Qed.

Lemma sortByKey_perm (l : list A) : Permutation (sortByKey key l) l.
Proof.
  induction l as [| h t IH]; cbn; [reflexivity |].
  rewrite insertByKey_perm. now constructor.
Qed.

Lemma insertByKey_sorted (a : A) (l : list A) :
  StronglySorted (fun x y => key x <= key y) l ->
  StronglySorted (fun x y => key x <= key y) (insertByKey key a l).
Proof.
  induction 1 as [| h t Hsorted IH Hall]; cbn.
  - repeat constructor.
  - destruct (Rle_dec (key a) (key h)) as [Hle | Hgt].
    + constructor; [constructor; assumption |].
      constructor; [exact Hle |].
      eapply Forall_impl; [| exact Hall]. cbn. intros x Hx. lra.
    + constructor; [exact IH |].
      rewrite insertByKey_perm. constructor; [lra | exact Hall].
Qed.

Lemma sortByKey_sorted (l : list A) :
  StronglySorted (fun x y => key x <= key y) (sortByKey key l).
Proof.
  induction l as [| h t IH]; cbn; [constructor |].
  apply insertByKey_sorted. exact IH.
Qed.

Lemma sortByKey_length (l : list A) : length (sortByKey key l) = length l.
Proof. apply Permutation_length, sortByKey_perm. Qed.
End SortByKey.

Lemma projectileCountOf_value player :
  projectileCountOf player = (1 + (Player.projectileLevel player - 1) / 3)%Z.
Proof.
  unfold projectileCountOf, PROJECTILE_COUNT_BASE, PROJECTILE_COUNT_INCREASE_INTERVAL.
  rewrite Zfloor_div_IZR by lia. reflexivity.
Qed.

Lemma nearestTargets_firstn (n : Z) (sorted : list Enemy.t) :
  nearestTargets n sorted = map EnemyTarget (firstn (Z.to_nat n) sorted)
  /\ length (nearestTargets n sorted) = Nat.min (Z.to_nat n) (length sorted).
Proof.
  unfold nearestTargets.
  rewrite Z2Nat.inj_min, Nat2Z.id, length_map, length_firstn.
  split; [| lia].
  f_equal. destruct (Nat.min_spec (Z.to_nat n) (length sorted)) as [[_ ->] | [Hle ->]];
    [reflexivity |].
  rewrite firstn_all. symmetry. apply firstn_all2. exact Hle.
Qed.

(** The velocity of a fan-out projectile is 8 times the unit vector of
    its angle. *)
Lemma aimAt_fan player angle :
  aimAt player (PointTarget (Player.x player + cos angle * 100)
                            (Player.y player + sin angle * 100))
  = (cos angle * 8, sin angle * 8).
Proof.
  unfold aimAt, PROJECTILE_SPEED_PLAYER. cbn [target_x target_y].
  set (dx := Player.x player + cos angle * 100 - Player.x player).
  set (dy := Player.y player + sin angle * 100 - Player.y player).
  assert (Hd : sqrt (dx * dx + dy * dy) = 100).
  { replace (dx * dx + dy * dy) with (100 * 100).
    - apply sqrt_square. lra.
    - subst dx dy. pose proof (sin2_cos2 angle) as H. unfold Rsqr in H. nra. }
  rewrite Hd. destruct (Rgt_dec 100 0) as [_ | Hn]; [| exfalso; lra].
  subst dx dy. f_equal; field.
Qed.

(** C5, as the code has it. When ranged fire triggers, with
    [N = 1 + floor((projectileLevel - 1) / 3)], the activation appends one
    projectile per target. With at least one enemy the targets are the
    first [N] enemies in order of distance to the player, so
    [min(N, number of enemies)] projectiles are created and none fans out;
    with no enemy at all, [N] projectiles fan out from straight up at
    angle steps of [2 pi / max(N, 8)]. *)
Theorem volley_targets player enemies projectiles currentTime :
  fireTriggers player currentTime = true ->
  let N := projectileCountOf player in
  let sorted := sortByKey (distanceFromPlayer player) enemies in
  N = (1 + (Player.projectileLevel player - 1) / 3)%Z
  /\ Permutation sorted enemies
  /\ StronglySorted (fun a b => distanceFromPlayer player a <= distanceFromPlayer player b)
                    sorted
  /\ snd (autoFire player enemies projectiles currentTime)
     = projectiles ++ volley player enemies
  /\ (enemies <> [] ->
      selectTargets player enemies = map EnemyTarget (firstn (Z.to_nat N) sorted)
      /\ length (volley player enemies) = Nat.min (Z.to_nat N) (length enemies))
  /\ (enemies = [] ->
      length (volley player enemies) = Z.to_nat N
      /\ map (fun p => (Projectile.vx p, Projectile.vy p)) (volley player enemies)
         = map (fun i : nat =>
                  let angle := (PI * 2) / Rmax (IZR N) 8 * INR i - PI / 2 in
                  (cos angle * 8, sin angle * 8))
               (seq 0 (Z.to_nat N))).
Proof.
  intros Hfire N sorted.
  assert (HN : N = (1 + (Player.projectileLevel player - 1) / 3)%Z)
    by apply projectileCountOf_value.
  assert (Hlevel : (0 < Player.projectileLevel player)%Z).
  { unfold fireTriggers in Hfire. apply andb_prop in Hfire.
    destruct Hfire as [H _]. apply Z.ltb_lt. exact H. }
  assert (Hpos : (1 <= N)%Z).
  { rewrite HN. pose proof (Z.div_pos (Player.projectileLevel player - 1) 3). lia. }
  split; [exact HN |].
  split; [apply sortByKey_perm |].
  split; [apply sortByKey_sorted |].
  split; [unfold autoFire; rewrite Hfire; reflexivity |].
  destruct (nearestTargets_firstn N sorted) as [Hsel Hlen].
  subst sorted. rewrite sortByKey_length in Hlen.
  split.
  - intros Hne.
    assert (Hsome : (1 <= length enemies)%nat)
      by (destruct enemies; [congruence | cbn; lia]).
    assert (Htargets : selectTargets player enemies
                       = nearestTargets N (sortByKey (distanceFromPlayer player) enemies)).
    { unfold selectTargets. cbv zeta. fold N.
      destruct (length (nearestTargets N _) =? 0)%nat eqn:Hz; [| reflexivity].
      apply Nat.eqb_eq in Hz. rewrite Hlen in Hz. lia. }
    split; [rewrite Htargets; exact Hsel |].
    unfold volley. rewrite length_map, Htargets. exact Hlen.
  - intros ->.
    assert (Htargets : selectTargets player [] = fanTargets player N).
    { assert (Hnil : nearestTargets N (sortByKey (distanceFromPlayer player) []) = []).
      { apply length_zero_iff_nil. rewrite Hlen. cbn. lia. }
      unfold selectTargets. cbv zeta. fold N. rewrite Hnil. cbn [length Nat.eqb andb app].
      destruct (0 <? N)%Z eqn:Hz; [reflexivity |]. apply Z.ltb_ge in Hz. lia. }
    unfold volley. rewrite Htargets. unfold fanTargets.
    rewrite !length_map, length_seq. split; [reflexivity |].
    rewrite !map_map. apply map_ext. intros i. cbv zeta.
    unfold fireAt. rewrite aimAt_fan. reflexivity.
Qed.

Lemma sampleGunner_fires : fireTriggers sampleGunner 1000 = true.
Proof.
  unfold fireTriggers, projectileCooldown, PROJECTILE_COOLDOWN_MIN,
    PROJECTILE_COOLDOWN_BASE, PROJECTILE_COOLDOWN_REDUCTION_PER_LEVEL.
  cbn. destruct (Rgt_dec _ _) as [_ | Hn]; [reflexivity |].
  exfalso. apply Hn. unfold Rmax. destruct (Rle_dec _ _); lra.
Qed.

Lemma volley_targets_witness :
  fireTriggers sampleGunner 1000 = true
  /\ snd (autoFire sampleGunner [sampleBomber] [] 1000)
     = [] ++ volley sampleGunner [sampleBomber].
Proof.
  split; [exact sampleGunner_fires |].
  pose proof (volley_targets sampleGunner [sampleBomber] [] 1000 sampleGunner_fires) as H.
  cbv zeta in H. destruct H as (_ & _ & _ & H & _). exact H.
Defined.

(** C5 as stated fails: at projectile level 4 a shot has [N = 2]
    projectiles, and with a single enemy one projectile is created, aimed
    at that enemy, and nothing fans out. *)
Lemma volley_count_counterexample :
  fireTriggers sampleGunner 1000 = true
  /\ projectileCountOf sampleGunner = 2%Z
  /\ volley sampleGunner [sampleBomber]
     = [fireAt sampleGunner (EnemyTarget sampleBomber)]
  /\ Z.of_nat (length (volley sampleGunner [sampleBomber]))
     <> projectileCountOf sampleGunner.
Proof.
  assert (HN : projectileCountOf sampleGunner = 2%Z)
    by (rewrite projectileCountOf_value; reflexivity).
  assert (Hv : volley sampleGunner [sampleBomber]
               = [fireAt sampleGunner (EnemyTarget sampleBomber)]).
  { unfold volley, selectTargets. rewrite HN. reflexivity. }
  split; [exact sampleGunner_fires |]. split; [exact HN |]. split; [exact Hv |].
  rewrite Hv, HN. cbn. lia.
Qed.

(** ** The explosive fields are an invariant of the tick

    Every explosive enemy in the array is as [spawnEnemy] armed it: no
    step of [update] changes the type, the explosion radius or the
    [exploded] mark of an enemy that stays in the array. *)

Lemma armed_sameKind e e' : sameKind e e' -> armed e -> armed e'.
Proof.
  intros (Hty & Hex & Hrad) Harmed. unfold armed in *.
  rewrite Hty, Hex, Hrad. exact Harmed.
Qed.

Lemma updateEnemy_sameKind canvas deltaTime currentTime st enemy enemy' :
  snd (updateEnemy canvas deltaTime currentTime st enemy) = Some enemy' ->
  sameKind enemy enemy'.
Proof.
  unfold updateEnemy, contactDamage, hurt, cullEnemy, chase, flee, integrate.
  cbv zeta.
  destruct (Enemy.type enemy) eqn:Hty;
    [| | destruct (truthy (Enemy.exploded enemy)) |].
  all: decide_reals; cbn; intros H; try discriminate H.
  all: injection H as <-; cbn; repeat split; exact Hty.
Qed.

Lemma updateEnemies_armed canvas deltaTime currentTime enemies :
  forall st,
  Forall armed enemies ->
  Forall armed (snd (updateEnemies canvas deltaTime currentTime st enemies)).
Proof.
  induction enemies as [| enemy later IH]; intros st Hall; cbn [updateEnemies].
  - constructor.
  - inversion Hall as [| ? ? Hhead Htail]; subst.
    specialize (IH st Htail).
    destruct (updateEnemies canvas deltaTime currentTime st later) as [s1 l1].
    destruct (updateEnemy canvas deltaTime currentTime s1 enemy) as [s2 o] eqn:Hstep.
    cbn [snd] in *. destruct o as [e' |]; [| exact IH].
    constructor; [| exact IH].
    apply (armed_sameKind enemy); [| exact Hhead].
    apply (updateEnemy_sameKind canvas deltaTime currentTime s1).
    rewrite Hstep. reflexivity.
Qed.

Lemma hitScan_armed projectile player enemies :
  forall player' enemies',
  Forall armed enemies ->
  hitScan projectile player enemies = Some (player', enemies') ->
  Forall armed enemies'.
Proof.
  induction enemies as [| enemy later IH]; intros player' enemies' Hall;
    cbn [hitScan]; [discriminate |].
  inversion Hall as [| ? ? Hhead Htail]; subst.
  destruct (hitScan projectile player later) as [[p1 l1] |].
  - intros [= <- <-]. constructor; [exact Hhead |]. apply (IH p1 l1 Htail eq_refl).
  - cbv zeta. destruct (Rlt_dec _ _); [| discriminate].
    destruct (Rle_dec _ _); intros [= <- <-]; [exact Htail |].
    constructor; [| exact Htail].
    apply (armed_sameKind enemy); [| exact Hhead]. repeat split.
Qed.

Lemma updateProjectiles_armed canvas projectiles :
  forall st,
  Forall armed (b_enemies st) ->
  Forall armed (b_enemies (fst (updateProjectiles canvas st projectiles))).
Proof.
  induction projectiles as [| projectile later IH]; intros st Hall;
    cbn [updateProjectiles]; [exact Hall |].
  specialize (IH st Hall).
  destruct (updateProjectiles canvas st later) as [s1 l1]. cbn [fst] in IH.
  destruct (updateProjectile canvas s1 projectile) as [s2 o] eqn:Hstep.
  cbn [fst]. revert Hstep. unfold updateProjectile. cbv zeta.
  match goal with |- context [hitScan ?p ?pl ?l] =>
    destruct (truthy (Projectile.fromPlayer p));
      [destruct (hitScan p pl l) as [[p' l'] |] eqn:Hhit |] end.
  - intros [= <- _]. cbn. eapply hitScan_armed; [exact IH | exact Hhit].
  - intros [= <- _]. exact IH.
  - destruct (Rlt_dec _ _); [destruct (hurt _ _ _) |]; intros [= <- _]; exact IH.
Qed.

Lemma Forall_setAt {A : Type} (P : A -> Prop) i v (l : list A) :
  P v -> Forall P l -> Forall P (setAt i v l).
Proof.
  intros Hv. revert i. induction l as [| h t IH]; intros [| i] Hall; cbn;
    try exact Hall; inversion Hall; subst; constructor; auto.
Qed.

Lemma Forall_removeAt {A : Type} (P : A -> Prop) i (l : list A) :
  Forall P l -> Forall P (removeAt i l).
Proof.
  revert i. induction l as [| h t IH]; intros [| i] Hall; cbn;
    try exact Hall; inversion Hall; subst; [assumption | constructor; auto].
Qed.

Lemma attackLoop_armed fuel :
  forall i player enemies,
  Forall armed enemies ->
  Forall armed (snd (attackLoop fuel i player enemies)).
Proof.
  induction fuel as [| fuel IH]; intros i player enemies Hall; cbn [attackLoop];
    [exact Hall |].
  destruct (nth_error enemies i) as [enemy |] eqn:Hnth; [| exact Hall].
  assert (Henemy : armed enemy).
  { rewrite Forall_forall in Hall. apply Hall. eapply nth_error_In. exact Hnth. }
  destruct (attackEnemy i enemy player enemies) as [p' l'] eqn:Hbody.
  apply IH. revert Hbody. unfold attackEnemy. cbv zeta.
  destruct (Rlt_dec _ _); [| intros [= _ <-]; exact Hall].
  destruct (Rle_dec _ _); intros [= _ <-].
  - apply Forall_removeAt, Forall_setAt; [| exact Hall].
    apply (armed_sameKind enemy); [repeat split | exact Henemy].
  - apply Forall_setAt; [| exact Hall].
    apply (armed_sameKind enemy); [repeat split | exact Henemy].
Qed.

Lemma spawnEnemyWave_armed canvas player score rand now k enemies :
  Forall armed enemies ->
  Forall armed (fst (spawnEnemyWave canvas player score rand now k enemies)).
Proof.
  intros Hall. destruct canvas as [canvas |]; cbn [spawnEnemyWave]; [| exact Hall].
  destruct (spawnLoop_appends (Z.to_nat (waveCount player score)) canvas player
              score rand now 0 k enemies) as (wave & -> & _ & Hwave).
  apply Forall_app. split; [exact Hall |].
  eapply Forall_impl; [| exact Hwave].
  intros e (t & j & ->). apply spawnEnemy_armed.
Qed.

(** One tick keeps every explosive enemy of the array armed. *)
Lemma update_armed rand f g :
  Forall armed (enemiesRef g) -> Forall armed (enemiesRef (update rand f g)).
Proof.
  intros Hall. unfold update.
  destruct (canvasRef f) as [canvas |]; [| exact Hall].
  cbv zeta. destruct (Rle_dec _ _); [exact Hall |].
  destruct (autoFire _ _ _ _) as [player projectiles].
  destruct (Rge_dec _ _); [exact Hall |].
  set (spawned := if Rgt_dec (currentTime f - lastSpawnTimeRef g) 2000
                  then _ else _).
  assert (Hspawned : Forall armed (fst (fst spawned))).
  { subst spawned. destruct (Rgt_dec _ _); [| exact Hall].
    pose proof (spawnEnemyWave_armed (Some canvas) (movePlayer canvas player)
                  (closureScore f) rand (spawnClock f) (randomCursor g)
                  (enemiesRef g) Hall) as H.
    destruct (spawnEnemyWave _ _ _ _ _ _ _) as [enemies cursor]. exact H. }
  destruct spawned as [[enemies cursor] lastSpawnTime]. cbn [fst] in Hspawned.
  pose proof (updateEnemies_armed canvas (deltaTime f) (currentTime f) enemies
                (mkCombat (movePlayer canvas player) projectiles (gameState g))
                Hspawned) as Henemies.
  destruct (updateEnemies _ _ _ _ _) as [st enemies1]. cbn [snd] in Henemies.
  pose proof (updateProjectiles_armed canvas (c_projectiles st)
                (mkBattle (c_player st) enemies1 (c_gameState st)) Henemies) as Hbattle.
  destruct (updateProjectiles _ _ _) as [bt projectiles1]. cbn [fst] in Hbattle.
  unfold autoAttack. destruct (attackTriggers _ _); [| exact Hbattle].
  pose proof (attackLoop_armed (length (b_enemies bt)) 0 (b_player bt) (b_enemies bt)
                Hbattle) as Hattack.
  destruct (attackLoop _ _ _ _) as [player2 enemies2]. exact Hattack.
Qed.

(** * Further properties of the simulation *)

(** Two players with the same fields are equal. *)
Lemma player_eq (p q : Player.t) :
  Player.x p = Player.x q -> Player.y p = Player.y q ->
  Player.vx p = Player.vx q -> Player.vy p = Player.vy q ->
  Player.radius p = Player.radius q ->
  Player.bloodGauge p = Player.bloodGauge q ->
  Player.attackRadius p = Player.attackRadius q ->
  Player.attackDamage p = Player.attackDamage q ->
  Player.attackCooldown p = Player.attackCooldown q ->
  Player.lastAttackTime p = Player.lastAttackTime q ->
  Player.attackLevel p = Player.attackLevel q ->
  Player.rangeLevel p = Player.rangeLevel q ->
  Player.speedLevel p = Player.speedLevel q ->
  Player.projectileLevel p = Player.projectileLevel q ->
  Player.lastProjectileTime p = Player.lastProjectileTime q ->
  Player.baseSpeed p = Player.baseSpeed q ->
  p = q.
Proof. destruct p, q. cbn. intros. subst. reflexivity. Qed.

(** ** Upgrades *)

Lemma upgrade_cost_nonneg track player :
  (0 <= trackLevel track player)%Z ->
  0 <= ATTACK_UPGRADE_BASE_COST * IZR (trackLevel track player + 1).
Proof.
  intros H. unfold ATTACK_UPGRADE_BASE_COST.
  assert (0 <= IZR (trackLevel track player + 1)) by (apply IZR_le; lia). nra.
Qed.

(** X1. Upgrades of two different tracks do not interact: when the gauge
    covers both costs, buying them in either order gives the same player. *)
Theorem upgrades_commute (a b : Track) (player : Player.t) :
  a <> b ->
  (0 <= trackLevel a player)%Z -> (0 <= trackLevel b player)%Z ->
  ATTACK_UPGRADE_BASE_COST * IZR (trackLevel a player + 1)
  + ATTACK_UPGRADE_BASE_COST * IZR (trackLevel b player + 1)
  <= Player.bloodGauge player ->
  upgrade a (upgrade b player) = upgrade b (upgrade a player).
Proof.
  intros Hab Ha Hb Hsum.
  pose proof (upgrade_cost_nonneg a player Ha) as Hca.
  pose proof (upgrade_cost_nonneg b player Hb) as Hcb.
  destruct player.
  destruct a, b; try congruence; cbn [trackLevel] in *;
    cbn [Player.attackLevel Player.rangeLevel Player.speedLevel Player.projectileLevel
         Player.bloodGauge] in *;
    unfold upgrade, strengthenAttack, strengthenRange, strengthenSpeed,
      strengthenProjectile; cbn;
    repeat (match goal with
            | |- context [Rge_dec ?x ?y] =>
                destruct (Rge_dec x y) as [? | Hn]; [| exfalso; apply Hn; lra]
            end; cbn).
  all: apply player_eq; cbn; try reflexivity; lra.
Qed.

Lemma upgrades_commute_witness :
  upgrade AttackTrack (upgrade RangeTrack Player.initial)
  = upgrade RangeTrack (upgrade AttackTrack Player.initial).
Proof.
  apply (upgrades_commute AttackTrack RangeTrack Player.initial).
  - discriminate.
  - cbn. lia.
  - cbn. lia.
  - unfold ATTACK_UPGRADE_BASE_COST. cbn. lra.
Defined.

Lemma upgrade_success track player :
  ATTACK_UPGRADE_BASE_COST * IZR (trackLevel track player + 1)
  <= Player.bloodGauge player ->
  Player.bloodGauge (upgrade track player)
  = Player.bloodGauge player
    - ATTACK_UPGRADE_BASE_COST * IZR (trackLevel track player + 1)
  /\ trackLevel track (upgrade track player) = (trackLevel track player + 1)%Z.
Proof.
  intros Hcost.
  destruct track; cbn [upgrade trackLevel] in *;
    unfold strengthenAttack, strengthenRange, strengthenSpeed, strengthenProjectile;
    match goal with
    | |- context [Rge_dec ?x ?y] =>
        destruct (Rge_dec x y) as [_ | Hn]; [| exfalso; apply Hn; lra]
    end; cbn; split; reflexivity.
Qed.

(** X2. Buying the same upgrade [n] times in a row from level [L] costs
    [50 * (n (L + 1) + n (n - 1) / 2)] in all (50, 100, 150, ... from level
    0): when the gauge covers that sum every purchase succeeds, the level
    ends at [L + n] and the gauge is lower by exactly the sum. *)
Theorem repeated_upgrades track n :
  forall player,
  (0 <= trackLevel track player)%Z ->
  50 * (INR n * IZR (trackLevel track player + 1) + INR n * (INR n - 1) / 2)
  <= Player.bloodGauge player ->
  trackLevel track (Nat.iter n (upgrade track) player)
  = (trackLevel track player + Z.of_nat n)%Z
  /\ Player.bloodGauge (Nat.iter n (upgrade track) player)
     = Player.bloodGauge player
       - 50 * (INR n * IZR (trackLevel track player + 1) + INR n * (INR n - 1) / 2).
Proof.
  induction n as [| n IH]; intros player Hlevel Hgauge.
  - change (Nat.iter 0 (upgrade track) player) with player.
    cbn [INR Z.of_nat]. split; [lia | lra].
  - assert (HL : 0 <= IZR (trackLevel track player + 1)) by (apply IZR_le; lia).
    pose proof (pos_INR n) as Hn.
    rewrite S_INR in *.
    set (A := IZR (trackLevel track player + 1)) in *.
    set (m := INR n) in *.
    assert (Hsum : 50 * ((m + 1) * A + (m + 1) * (m + 1 - 1) / 2)
                   = 50 * (m * A + m * (m - 1) / 2) + 50 * (A + m)) by field.
    assert (Hprev : 50 * (m * A + m * (m - 1) / 2) <= Player.bloodGauge player).
    { assert (0 <= 50 * (A + m)) by lra. lra. }
    destruct (IH player Hlevel Hprev) as [Hl Hg]. fold A in Hg.
    change (Nat.iter (S n) (upgrade track) player)
      with (upgrade track (Nat.iter n (upgrade track) player)).
    assert (Hnext : IZR (trackLevel track (Nat.iter n (upgrade track) player) + 1)
                    = A + m).
    { rewrite Hl. subst A m. rewrite !plus_IZR, <- INR_IZR_INZ. lra. }
    assert (Hcost : ATTACK_UPGRADE_BASE_COST
                    * IZR (trackLevel track (Nat.iter n (upgrade track) player) + 1)
                    <= Player.bloodGauge (Nat.iter n (upgrade track) player)).
    { rewrite Hnext, Hg. unfold ATTACK_UPGRADE_BASE_COST. lra. }
    destruct (upgrade_success track _ Hcost) as [Hg' Hl'].
    rewrite Hl', Hg', Hnext, Hl, Hg. split; [lia |].
    unfold ATTACK_UPGRADE_BASE_COST. lra.
Qed.

Lemma repeated_upgrades_witness :
  trackLevel AttackTrack
    (Nat.iter 3 (upgrade AttackTrack) (Player.set_bloodGauge 300 Player.initial)) = 3%Z
  /\ Player.bloodGauge
       (Nat.iter 3 (upgrade AttackTrack) (Player.set_bloodGauge 300 Player.initial)) = 0.
Proof.
  destruct (repeated_upgrades AttackTrack 3 (Player.set_bloodGauge 300 Player.initial))
    as [Hl Hg].
  - cbn. lia.
  - cbn. lra.
  - split; [exact Hl |]. rewrite Hg. cbn. lra.
Defined.

(** X3. An upgrade never drives the gauge below zero, and the restart
    handler undoes every upgrade: it resets a player who bought any
    sequence of upgrades to the same player as one who bought none. *)
Theorem restart_undoes_upgrades (tracks : list Track) (player : Player.t) :
  (0 <= Player.bloodGauge player ->
   0 <= Player.bloodGauge (fold_left (fun p t => upgrade t p) tracks player))
  /\ resetPlayer (fold_left (fun p t => upgrade t p) tracks player) = resetPlayer player
  /\ Player.bloodGauge (resetPlayer player) = Player.bloodGauge Player.initial
  /\ (forall track, trackLevel track (resetPlayer player) = 0%Z).
Proof.
  assert (Hone : forall t p,
             (0 <= Player.bloodGauge p -> 0 <= Player.bloodGauge (upgrade t p))
             /\ resetPlayer (upgrade t p) = resetPlayer p).
  { intros t p.
    destruct t; cbn [upgrade];
      unfold strengthenAttack, strengthenRange, strengthenSpeed, strengthenProjectile;
      match goal with
      | |- context [Rge_dec ?x ?y] => destruct (Rge_dec x y) as [Hge | _]
      end; cbn; split; try reflexivity; try tauto; intros; lra. }
  split; [| split; [| split]].
  - revert player. induction tracks as [| t ts IH]; intros p Hp; cbn; [exact Hp |].
    apply IH. apply Hone. exact Hp.
  - revert player. induction tracks as [| t ts IH]; intros p; cbn; [reflexivity |].
    rewrite IH. apply Hone.
  - reflexivity.
  - intros []; reflexivity.
Qed.

(** ** Spawn director *)

Lemma chooseEnemyType_tier level rand k :
  let type := fst (chooseEnemyType level rand k) in
  ((level <= 5)%Z -> type = melee)
  /\ (type = ranged -> (6 <= level)%Z)
  /\ (type = explosive -> (10 <= level)%Z)
  /\ (type = chaser -> (20 <= level)%Z).
Proof.
  unfold chooseEnemyType.
  destruct (level <=? 5)%Z eqn:H5; [apply Z.leb_le in H5 | apply Z.leb_gt in H5].
  { cbn. repeat split; try discriminate; lia. }
  destruct (level <=? 9)%Z eqn:H9; [apply Z.leb_le in H9 | apply Z.leb_gt in H9].
  { cbn. destruct (Rlt_dec _ _); repeat split; try discriminate; lia. }
  destruct (level <=? 19)%Z eqn:H19; [apply Z.leb_le in H19 | apply Z.leb_gt in H19].
  { cbn. decide_reals; repeat split; try discriminate; lia. }
  cbn. decide_reals; repeat split; try discriminate; lia.
Qed.

Lemma spawnEnemy_fields canvas player score rand now k :
  let e := fst (spawnEnemy canvas player score rand now k) in
  let difficulty := 1 + IZR score / DIFFICULTY_SCALING_FACTOR in
  Enemy.type e = fst (chooseEnemyType (Enemy.level e) rand (S (S k)))
  /\ Enemy.x e = rand (S k) * width canvas
  /\ Enemy.vx e = 0 /\ Enemy.vy e = 0
  /\ Enemy.health e = 30 * difficulty * IZR (Enemy.level e)
  /\ Enemy.maxHealth e = Enemy.health e
  /\ Enemy.damage e = 5 * difficulty * IZR (Enemy.level e)
  /\ (1 <= Enemy.level e)%Z.
Proof.
  unfold spawnEnemy.
  destruct (chooseEnemyType _ rand (S (S k))) as [ty k1] eqn:Hty. cbn.
  rewrite Hty. repeat split. unfold enemyLevelAt. lia.
Qed.

(** X4. The type of a spawned enemy follows the level tiers: up to level
    5 every enemy is melee, ranged enemies need level 6, explosive ones
    level 10 and chasers level 20, whatever the random draws are. *)
Theorem spawn_types_by_tier canvas player score rand now k enemies :
  exists wave,
    fst (spawnEnemyWave (Some canvas) player score rand now k enemies) = enemies ++ wave
    /\ Forall (fun e =>
                 ((Enemy.level e <= 5)%Z -> Enemy.type e = melee)
                 /\ (Enemy.type e = ranged -> (6 <= Enemy.level e)%Z)
                 /\ (Enemy.type e = explosive -> (10 <= Enemy.level e)%Z)
                 /\ (Enemy.type e = chaser -> (20 <= Enemy.level e)%Z)) wave.
Proof.
  cbn [spawnEnemyWave].
  destruct (spawnLoop_appends (Z.to_nat (waveCount player score)) canvas player
              score rand now 0 k enemies) as (wave & Hw & _ & Hall).
  exists wave. split; [exact Hw |].
  eapply Forall_impl; [| exact Hall].
  intros e (t & j & ->).
  destruct (spawnEnemy_fields canvas player score rand t j) as (Hty & _).
  cbv zeta in Hty. rewrite Hty. apply chooseEnemyType_tier.
Qed.

(** X5. With random draws in [0, 1) and a canvas of positive width, every
    enemy of a wave appears at rest above the view: at least 100 and less
    than 300 above its upper edge [playerY - height/2], at an abscissa
    inside the canvas. *)
Theorem spawn_above_view canvas player score rand now k enemies :
  unitStream rand ->
  0 < width canvas ->
  exists wave,
    fst (spawnEnemyWave (Some canvas) player score rand now k enemies) = enemies ++ wave
    /\ Forall (fun e =>
                 Player.y player - height canvas / 2 - 300 < Enemy.y e
                 /\ Enemy.y e <= Player.y player - height canvas / 2 - 100
                 /\ 0 <= Enemy.x e < width canvas
                 /\ Enemy.vx e = 0 /\ Enemy.vy e = 0) wave.
Proof.
  intros Hrand Hwidth. cbn [spawnEnemyWave].
  destruct (spawnLoop_appends (Z.to_nat (waveCount player score)) canvas player
              score rand now 0 k enemies) as (wave & Hw & _ & Hall).
  exists wave. split; [exact Hw |].
  eapply Forall_impl; [| exact Hall].
  intros e (t & j & ->).
  destruct (spawnEnemy_level canvas player score rand t j) as [_ Hy].
  destruct (spawnEnemy_fields canvas player score rand t j)
    as (_ & Hx & Hvx & Hvy & _).
  cbv zeta in *. rewrite Hy, Hx, Hvx, Hvy.
  pose proof (Hrand j) as [Hj0 Hj1]. pose proof (Hrand (S j)) as [Hs0 Hs1].
  repeat split; try lra; nra.
Qed.

Lemma spawn_above_view_witness :
  exists wave,
    fst (spawnEnemyWave (Some sampleCanvas) Player.initial 0 (fun _ => 0) (fun _ => 0)
           0 []) = [] ++ wave
    /\ Forall (fun e =>
                 Player.y Player.initial - height sampleCanvas / 2 - 300 < Enemy.y e
                 /\ Enemy.y e <= Player.y Player.initial - height sampleCanvas / 2 - 100
                 /\ 0 <= Enemy.x e < width sampleCanvas
                 /\ Enemy.vx e = 0 /\ Enemy.vy e = 0) wave.
Proof.
  apply (spawn_above_view sampleCanvas Player.initial 0 (fun _ => 0) (fun _ => 0) 0 []).
  - intros n. lra.
  - cbn. lra.
Defined.

(** X6. With a score that is not negative, every enemy of a wave starts
    at full health: level at least 1, health equal to its maximum and at
    least 30, damage at least 5 and always a sixth of the health. *)
Theorem spawn_stats canvas player score rand now k enemies :
  (0 <= score)%Z ->
  exists wave,
    fst (spawnEnemyWave (Some canvas) player score rand now k enemies) = enemies ++ wave
    /\ Forall (fun e =>
                 (1 <= Enemy.level e)%Z
                 /\ Enemy.health e = Enemy.maxHealth e
                 /\ 30 <= Enemy.health e
                 /\ 5 <= Enemy.damage e
                 /\ Enemy.health e = 6 * Enemy.damage e) wave.
Proof.
  intros Hscore. cbn [spawnEnemyWave].
  destruct (spawnLoop_appends (Z.to_nat (waveCount player score)) canvas player
              score rand now 0 k enemies) as (wave & Hw & _ & Hall).
  exists wave. split; [exact Hw |].
  eapply Forall_impl; [| exact Hall].
  intros e (t & j & ->).
  destruct (spawnEnemy_fields canvas player score rand t j)
    as (_ & _ & _ & _ & Hh & Hm & Hd & Hl).
  cbv zeta in *. rewrite Hm, Hh, Hd.
  assert (Hlevel : 1 <= IZR (Enemy.level (fst (spawnEnemy canvas player score rand t j))))
    by (apply IZR_le; exact Hl).
  assert (Hdiff : 1 <= 1 + IZR score / DIFFICULTY_SCALING_FACTOR).
  { apply IZR_le in Hscore. unfold DIFFICULTY_SCALING_FACTOR.
    assert (0 <= IZR score / 500); [| lra].
    apply Rmult_le_pos; [exact Hscore |]. left. apply Rinv_0_lt_compat. lra. }
  repeat split; try exact Hl; try nra.
Qed.

Lemma spawn_stats_witness :
  exists wave,
    fst (spawnEnemyWave (Some sampleCanvas) Player.initial 60 (fun _ => 0) (fun _ => 0)
           0 []) = [] ++ wave
    /\ Forall (fun e =>
                 (1 <= Enemy.level e)%Z
                 /\ Enemy.health e = Enemy.maxHealth e
                 /\ 30 <= Enemy.health e
                 /\ 5 <= Enemy.damage e
                 /\ Enemy.health e = 6 * Enemy.damage e) wave.
Proof.
  apply (spawn_stats sampleCanvas Player.initial 60 (fun _ => 0) (fun _ => 0) 0 []).
  lia.
Defined.

(** ** Enemy movement and contact *)

Lemma scaled_vector_length (dx dy k : R) :
  sqrt (dx * k * (dx * k) + dy * k * (dy * k)) = Rabs k * sqrt (dx * dx + dy * dy).
Proof.
  apply sqrt_lem_1.
  - nra.
  - apply Rmult_le_pos; [apply Rabs_pos | apply sqrt_pos].
  - replace (Rabs k * sqrt (dx * dx + dy * dy) * (Rabs k * sqrt (dx * dx + dy * dy)))
      with (Rabs k * Rabs k * (sqrt (dx * dx + dy * dy) * sqrt (dx * dx + dy * dy)))
      by ring.
    rewrite sqrt_sq_sum. rewrite <- Rabs_mult, Rabs_right by nra. ring.
Qed.

(** Steering toward the player and integrating moves an enemy at distance
    [d > 0] to distance [|d - speed|]. *)
Lemma chase_closes_in player enemy :
  let d := distanceToEnemy player enemy in
  0 < d ->
  distanceToEnemy player
    (integrate (chase (Player.x player - Enemy.x enemy)
                      (Player.y player - Enemy.y enemy) d enemy))
  = Rabs (d - Enemy.speed enemy).
Proof.
  intros d Hd. unfold chase.
  destruct (Rgt_dec d 0) as [_ | Hn]; [| exfalso; lra].
  unfold distanceToEnemy at 1. unfold integrate. cbn.
  set (dx := Player.x player - Enemy.x enemy).
  set (dy := Player.y player - Enemy.y enemy).
  replace (Player.x player - (Enemy.x enemy + dx / d * Enemy.speed enemy))
    with (dx * (1 - Enemy.speed enemy / d)) by (subst dx; field; lra).
  replace (Player.y player - (Enemy.y enemy + dy / d * Enemy.speed enemy))
    with (dy * (1 - Enemy.speed enemy / d)) by (subst dy; field; lra).
  rewrite scaled_vector_length.
  change (sqrt (dx * dx + dy * dy)) with d.
  rewrite <- (Rabs_right d) at 2 by lra. rewrite <- Rabs_mult.
  f_equal. field. lra.
Qed.

(** Steering away from the player moves it to distance [|d + speed|]. *)
Lemma flee_backs_off player enemy :
  let d := distanceToEnemy player enemy in
  0 < d ->
  distanceToEnemy player
    (integrate (flee (Player.x player - Enemy.x enemy)
                     (Player.y player - Enemy.y enemy) d enemy))
  = Rabs (d + Enemy.speed enemy).
Proof.
  intros d Hd. unfold flee.
  destruct (Rgt_dec d 0) as [_ | Hn]; [| exfalso; lra].
  unfold distanceToEnemy at 1. unfold integrate. cbn.
  set (dx := Player.x player - Enemy.x enemy).
  set (dy := Player.y player - Enemy.y enemy).
  replace (Player.x player - (Enemy.x enemy + - (dx / d) * Enemy.speed enemy))
    with (dx * (1 + Enemy.speed enemy / d)) by (subst dx; field; lra).
  replace (Player.y player - (Enemy.y enemy + - (dy / d) * Enemy.speed enemy))
    with (dy * (1 + Enemy.speed enemy / d)) by (subst dy; field; lra).
  rewrite scaled_vector_length.
  change (sqrt (dx * dx + dy * dy)) with d.
  rewrite <- (Rabs_right d) at 2 by lra. rewrite <- Rabs_mult.
  f_equal. field. lra.
Qed.

Lemma distanceToEnemy_position player e e' :
  Enemy.x e' = Enemy.x e -> Enemy.y e' = Enemy.y e ->
  distanceToEnemy player e' = distanceToEnemy player e.
Proof. unfold distanceToEnemy. intros -> ->. reflexivity. Qed.

(** X7. A melee, chaser or explosive enemy that stays in the array after
    its step has moved straight at the player by its speed: from distance
    [d > 0] it ends at distance [|d - speed|] (it overshoots when its speed
    exceeds [d]), with its health unchanged. *)
Theorem chasers_close_in canvas deltaTime currentTime st enemy enemy' :
  Enemy.type enemy <> ranged ->
  truthy (Enemy.exploded enemy) = false ->
  0 < distanceToEnemy (c_player st) enemy ->
  snd (updateEnemy canvas deltaTime currentTime st enemy) = Some enemy' ->
  distanceToEnemy (c_player st) enemy'
  = Rabs (distanceToEnemy (c_player st) enemy - Enemy.speed enemy)
  /\ Enemy.health enemy' = Enemy.health enemy.
Proof.
  intros Hty Hex Hd Hstep.
  pose proof (chase_closes_in (c_player st) enemy Hd) as Hclose. cbv zeta in Hclose.
  assert (Hpos : Enemy.x enemy'
                 = Enemy.x (integrate (chase (Player.x (c_player st) - Enemy.x enemy)
                                             (Player.y (c_player st) - Enemy.y enemy)
                                             (distanceToEnemy (c_player st) enemy) enemy))
                 /\ Enemy.y enemy'
                    = Enemy.y (integrate (chase (Player.x (c_player st) - Enemy.x enemy)
                                                (Player.y (c_player st) - Enemy.y enemy)
                                                (distanceToEnemy (c_player st) enemy) enemy))
                 /\ Enemy.health enemy' = Enemy.health enemy).
  { revert Hstep. unfold updateEnemy, distanceToEnemy, contactDamage, hurt, cullEnemy.
    cbv zeta. destruct (Enemy.type enemy); [| congruence | rewrite Hex |].
    all: unfold chase, integrate; decide_reals; cbn; intros H; try discriminate H.
    all: injection H as <-; cbn; repeat split. }
  destruct Hpos as (Hx & Hy & Hh).
  split; [| exact Hh].
  rewrite (distanceToEnemy_position _ _ _ Hx Hy). exact Hclose.
Qed.

Lemma chasers_close_in_witness :
  distanceToEnemy (c_player sampleCombat)
    (integrate (chase (0 - 80) (0 - 0) 80 (sampleGiant melee)))
  = Rabs (distanceToEnemy (c_player sampleCombat) (sampleGiant melee)
          - Enemy.speed (sampleGiant melee)).
Proof.
  assert (Hd : distanceToEnemy Player.initial (sampleGiant melee) = 80).
  { unfold distanceToEnemy. cbn.
    replace ((0 - 80) * (0 - 80) + (0 - 0) * (0 - 0)) with (80 * 80) by lra.
    apply sqrt_square. lra. }
  assert (Hstep : snd (updateEnemy sampleCanvas 16 1000 sampleCombat (sampleGiant melee))
                  = Some (integrate (chase (0 - 80) (0 - 0) 80 (sampleGiant melee)))).
  { unfold updateEnemy, contactDamage, hurt, cullEnemy. cbn.
    replace (sqrt ((0 - 80) * (0 - 80) + (0 - 0) * (0 - 0))) with 80
      by (symmetry; exact Hd).
    unfold chase, integrate.
    destruct (Rgt_dec 80 0) as [_ | Hn]; [| exfalso; lra]. cbn.
    destruct (Rlt_dec 80 (20 + 70)) as [_ | Hn]; [| exfalso; lra]. cbn.
    destruct (Rgt_dec _ _) as [Hgt | _]; [| reflexivity].
    exfalso. revert Hgt. unfold Rabs. destruct (Rcase_abs _); lra. }
  apply (chasers_close_in sampleCanvas 16 1000 sampleCombat (sampleGiant melee)).
  - discriminate.
  - reflexivity.
  - change (c_player sampleCombat) with Player.initial. rewrite Hd. lra.
  - exact Hstep.
Defined.

Lemma moved_radius dx dy d enemy :
  Enemy.radius (integrate (chase dx dy d enemy)) = Enemy.radius enemy
  /\ Enemy.damage (integrate (chase dx dy d enemy)) = Enemy.damage enemy.
Proof. unfold integrate, chase. destruct (Rgt_dec d 0); split; reflexivity. Qed.

(** X8. Melee and chaser enemies drain the gauge by contact, at the rate
    of their damage per second: in a step where the circles overlap
    ([d < playerRadius + enemyRadius], with [d] taken before the move) the
    gauge loses exactly [damage * deltaTime / 1000] and the game is over if
    that empties it; in any other step the player and the game state are
    untouched. Nothing else of the player ever changes. *)
Theorem contact_damage canvas deltaTime currentTime st enemy :
  Enemy.type enemy = melee \/ Enemy.type enemy = chaser ->
  let d := distanceToEnemy (c_player st) enemy in
  let reach := Player.radius (c_player st) + Enemy.radius enemy in
  let after := fst (updateEnemy canvas deltaTime currentTime st enemy) in
  let gauge := Player.bloodGauge (c_player st)
               - Enemy.damage enemy * (deltaTime / 1000) in
  (d < reach ->
   Player.bloodGauge (c_player after) = gauge
   /\ c_gameState after = if Rle_dec gauge 0 then gameover else c_gameState st)
  /\ (reach <= d -> c_player after = c_player st /\ c_gameState after = c_gameState st)
  /\ sameButGauge (c_player after) (c_player st).
Proof.
  intros Hty d reach after gauge. subst d reach after gauge.
  unfold updateEnemy, distanceToEnemy, contactDamage, hurt. cbv zeta.
  set (dx := Player.x (c_player st) - Enemy.x enemy).
  set (dy := Player.y (c_player st) - Enemy.y enemy).
  destruct Hty as [-> | ->].
  - destruct (moved_radius dx dy (sqrt (dx * dx + dy * dy)) enemy) as [-> ->].
    destruct (Rlt_dec _ _) as [Hin | Hout]; cbn;
      repeat split; intros; try reflexivity; exfalso; lra.
  - destruct (Rgt_dec (currentTime - _) _); cbv iota beta;
      cbn [Enemy.radius Enemy.damage Enemy.set_lastTrailTime];
      destruct (moved_radius dx dy (sqrt (dx * dx + dy * dy)) enemy) as [-> ->];
      destruct (Rlt_dec _ _) as [Hin | Hout]; cbn;
      repeat split; intros; try reflexivity; exfalso; lra.
Qed.

Lemma contact_damage_witness :
  Player.bloodGauge
    (c_player (fst (updateEnemy sampleCanvas 16 1000 sampleCombat (sampleGiant melee))))
  = Player.bloodGauge (c_player sampleCombat)
    - Enemy.damage (sampleGiant melee) * (16 / 1000).
Proof.
  assert (Hd : distanceToEnemy Player.initial (sampleGiant melee) = 80).
  { unfold distanceToEnemy. cbn.
    replace ((0 - 80) * (0 - 80) + (0 - 0) * (0 - 0)) with (80 * 80) by lra.
    apply sqrt_square. lra. }
  apply (contact_damage sampleCanvas 16 1000 sampleCombat (sampleGiant melee)
           (or_introl eq_refl)).
  change (c_player sampleCombat) with Player.initial. rewrite Hd. cbn. lra.
Defined.

(** X9. A ranged enemy never touches the player or the game state, and
    it keeps its distance: farther than 250 it closes in by its speed,
    nearer than 150 but not on the player it backs off by its speed, and
    from 150 to 250 it keeps nine tenths of the velocity it had. Exactly on
    the player (distance 0) it does not back off: it keeps the velocity it
    had and moves by it. *)
Theorem ranged_keeps_distance canvas deltaTime currentTime st enemy :
  Enemy.type enemy = ranged ->
  let d := distanceToEnemy (c_player st) enemy in
  let r := updateEnemy canvas deltaTime currentTime st enemy in
  c_player (fst r) = c_player st
  /\ c_gameState (fst r) = c_gameState st
  /\ forall enemy', snd r = Some enemy' ->
       (250 < d -> distanceToEnemy (c_player st) enemy' = Rabs (d - Enemy.speed enemy))
       /\ (0 < d < 150 ->
           distanceToEnemy (c_player st) enemy' = Rabs (d + Enemy.speed enemy))
       /\ (150 <= d <= 250 ->
           Enemy.vx enemy' = Enemy.vx enemy * 0.9
           /\ Enemy.vy enemy' = Enemy.vy enemy * 0.9
           /\ Enemy.x enemy' = Enemy.x enemy + Enemy.vx enemy * 0.9
           /\ Enemy.y enemy' = Enemy.y enemy + Enemy.vy enemy * 0.9)
       /\ (d = 0 ->
           Enemy.vx enemy' = Enemy.vx enemy
           /\ Enemy.vy enemy' = Enemy.vy enemy
           /\ Enemy.x enemy' = Enemy.x enemy + Enemy.vx enemy
           /\ Enemy.y enemy' = Enemy.y enemy + Enemy.vy enemy).
Proof.
  intros Hty d r. subst r.
  unfold updateEnemy. rewrite Hty. cbv zeta. fold (distanceToEnemy (c_player st) enemy).
  fold d.
  unfold RANGED_ENEMY_PREFERRED_DISTANCE, RANGED_DISTANCE_THRESHOLD.
  set (dx := Player.x (c_player st) - Enemy.x enemy).
  set (dy := Player.y (c_player st) - Enemy.y enemy).
  set (moved := integrate
                  (if Rgt_dec d (200 + 50) then chase dx dy d enemy
                   else if Rlt_dec d (200 - 50) then flee dx dy d enemy
                   else Enemy.set_vel (Enemy.vx enemy * 0.9) (Enemy.vy enemy * 0.9) enemy)).
  assert (Hmoved :
            (250 < d -> distanceToEnemy (c_player st) moved = Rabs (d - Enemy.speed enemy))
            /\ (0 < d < 150 ->
                distanceToEnemy (c_player st) moved = Rabs (d + Enemy.speed enemy))
            /\ (150 <= d <= 250 ->
                Enemy.vx moved = Enemy.vx enemy * 0.9
                /\ Enemy.vy moved = Enemy.vy enemy * 0.9
                /\ Enemy.x moved = Enemy.x enemy + Enemy.vx enemy * 0.9
                /\ Enemy.y moved = Enemy.y enemy + Enemy.vy enemy * 0.9)
            /\ (d = 0 ->
                Enemy.vx moved = Enemy.vx enemy
                /\ Enemy.vy moved = Enemy.vy enemy
                /\ Enemy.x moved = Enemy.x enemy + Enemy.vx enemy
                /\ Enemy.y moved = Enemy.y enemy + Enemy.vy enemy)).
  { subst moved. destruct (Rgt_dec d (200 + 50)) as [Hfar | Hnfar].
    - split; [| split; [| split]]; intros; try lra.
      apply (chase_closes_in (c_player st) enemy). fold d. lra.
    - destruct (Rlt_dec d (200 - 50)) as [Hnear | Hnnear].
      + split; [| split; [| split]]; intros; try lra.
        * apply (flee_backs_off (c_player st) enemy). fold d. lra.
        * unfold flee. destruct (Rgt_dec d 0) as [Hpos | _]; [lra |].
          cbn. repeat split.
      + split; [| split; [| split]]; intros; try lra. cbn. repeat split. }
  clearbody moved. unfold cullEnemy.
  destruct (Rgt_dec (currentTime - _) _); cbn [fst snd c_player c_gameState].
  - split; [reflexivity |]. split; [reflexivity |].
    intros enemy'. destruct (Rgt_dec _ _); [discriminate |]. intros [= <-].
    destruct Hmoved as (H1 & H2 & H3 & H4).
    split; [| split; [| split]].
    + intros H. rewrite <- (H1 H). apply distanceToEnemy_position; reflexivity.
    + intros H. rewrite <- (H2 H). apply distanceToEnemy_position; reflexivity.
    + intros H. exact (H3 H).
    + intros H. exact (H4 H).
  - split; [reflexivity |]. split; [reflexivity |].
    intros enemy'. destruct (Rgt_dec _ _); [discriminate |]. intros [= <-].
    exact Hmoved.
Qed.

Lemma ranged_keeps_distance_witness :
  c_player (fst (updateEnemy sampleCanvas 16 1000 sampleCombat (sampleGiant ranged)))
  = c_player sampleCombat.
Proof.
  apply (ranged_keeps_distance sampleCanvas 16 1000 sampleCombat (sampleGiant ranged)
           eq_refl).
Defined.

(** ** Enemy fire *)

Lemma enemyProjectile_facts enemy dx dy speed radius damage :
  let shot := enemyProjectile enemy dx dy (sqrt (dx * dx + dy * dy)) speed radius damage in
  Projectile.x shot = Enemy.x enemy /\ Projectile.y shot = Enemy.y enemy
  /\ Projectile.damage shot = damage
  /\ Projectile.radius shot = radius
  /\ truthy (Projectile.fromPlayer shot) = false
  /\ truthy (Projectile.homing shot) = false
  /\ (0 <= speed -> sqrt (dx * dx + dy * dy) > 0 -> projectileSpeed shot = speed)
  /\ (sqrt (dx * dx + dy * dy) = 0 -> projectileSpeed shot = 0).
Proof.
  unfold enemyProjectile, enemyAim, projectileSpeed. cbv zeta.
  destruct (Rgt_dec (sqrt (dx * dx + dy * dy)) 0) as [Hd | Hd]; cbn.
  - repeat split; try reflexivity.
    + intros Hs _. apply (rescaled_length dx dy speed Hs Hd).
    + intros Hz. lra.
  - repeat split; try reflexivity.
    + intros _ H. contradiction.
    + intros _. replace (0 * 0 + 0 * 0) with 0 by ring. apply sqrt_0.
Qed.

Lemma enemyProjectile_aim enemy dx dy speed radius damage :
  let d := sqrt (dx * dx + dy * dy) in
  let shot := enemyProjectile enemy dx dy d speed radius damage in
  (0 < d -> Projectile.vx shot = dx / d * speed /\ Projectile.vy shot = dy / d * speed)
  /\ (d = 0 -> Projectile.vx shot = 0 /\ Projectile.vy shot = 0).
Proof.
  unfold enemyProjectile, enemyAim. cbv zeta.
  destruct (Rgt_dec (sqrt (dx * dx + dy * dy)) 0) as [Hd | Hd]; cbn.
  - split; [intros _; split; reflexivity | intros Hz; lra].
  - split; [intros Hpos; lra | intros _; split; reflexivity].
Qed.

Lemma orDefault_zero (t : R) : orDefault (Some t) 0 = t.
Proof. cbn. destruct (Req_dec_T t 0); congruence. Qed.

(** X10. Enemy fire. A ranged enemy whose last shot is more than 2000 ms
    old adds exactly one projectile: enemy-owned, not homing, of radius 5,
    with half the enemy's damage, aimed at the player: its velocity is the
    unit vector from the enemy's position before the move to the player,
    times 3 (and zero if the enemy stood on the player). It starts where
    the enemy has moved to if the enemy stays in the array; if the enemy is
    culled in that step, it starts beyond the culling range too. A chaser
    whose last trail shot is older than its trail cooldown adds one in the
    same way, of radius 4, three tenths of its damage and speed 1.5.
    Otherwise, and for melee and explosive enemies always, the step adds no
    projectile. *)
Theorem enemy_fire canvas deltaTime currentTime st enemy :
  let d := distanceToEnemy (c_player st) enemy in
  let r := updateEnemy canvas deltaTime currentTime st enemy in
  let fired (radius damage speed : R) :=
    exists shot,
      c_projectiles (fst r) = c_projectiles st ++ [shot]
      /\ Projectile.radius shot = radius
      /\ Projectile.damage shot = damage
      /\ truthy (Projectile.fromPlayer shot) = false
      /\ truthy (Projectile.homing shot) = false
      /\ (0 < d -> projectileSpeed shot = speed)
      /\ (d = 0 -> projectileSpeed shot = 0)
      /\ (0 < d ->
          Projectile.vx shot = (Player.x (c_player st) - Enemy.x enemy) / d * speed
          /\ Projectile.vy shot = (Player.y (c_player st) - Enemy.y enemy) / d * speed)
      /\ (d = 0 -> Projectile.vx shot = 0 /\ Projectile.vy shot = 0)
      /\ (forall enemy', snd r = Some enemy' ->
            Projectile.x shot = Enemy.x enemy' /\ Projectile.y shot = Enemy.y enemy')
      /\ (snd r = None -> ~ withinReach canvas (c_player st) (Projectile.y shot)) in
  (Enemy.type enemy = ranged ->
   if Rgt_dec (currentTime - orDefault (Enemy.lastShootTime enemy) 0) 2000
   then fired 5 (Enemy.damage enemy * 0.5) 3
   else c_projectiles (fst r) = c_projectiles st)
  /\ (Enemy.type enemy = chaser ->
      if Rgt_dec (currentTime - orDefault (Enemy.lastTrailTime enemy) 0)
                 (orDefault (Enemy.trailCooldown enemy) 500)
      then fired 4 (Enemy.damage enemy * 0.3) 1.5
      else c_projectiles (fst r) = c_projectiles st)
  /\ (Enemy.type enemy = melee \/ Enemy.type enemy = explosive ->
      c_projectiles (fst r) = c_projectiles st).
Proof.
  intros d r fired. subst fired r.
  unfold updateEnemy. cbv zeta.
  fold (distanceToEnemy (c_player st) enemy). fold d.
  set (dx := Player.x (c_player st) - Enemy.x enemy).
  set (dy := Player.y (c_player st) - Enemy.y enemy).
  assert (Hdd : d = sqrt (dx * dx + dy * dy)) by reflexivity.
  split; [| split].
  - intros ->.
    unfold RANGED_ENEMY_PREFERRED_DISTANCE, RANGED_DISTANCE_THRESHOLD,
      RANGED_ENEMY_SHOOT_COOLDOWN, PROJECTILE_SPEED, PROJECTILE_DAMAGE_MULTIPLIER.
    set (moved := integrate _).
    assert (Hm : Enemy.lastShootTime moved = Enemy.lastShootTime enemy
                 /\ Enemy.damage moved = Enemy.damage enemy).
    { subst moved. unfold integrate, chase, flee. decide_reals; cbn; split; reflexivity. }
    destruct Hm as [-> Hdmg]. clearbody moved.
    destruct (Rgt_dec (currentTime - _) 2000) as [Hfire | Hwait]; [| reflexivity].
    cbn [fst snd c_projectiles]. rewrite Hdd.
    pose proof (enemyProjectile_facts moved dx dy 3 5 (Enemy.damage moved * 0.5)) as Hshot.
    cbv zeta in Hshot. destruct Hshot as (Hx & Hy & Hda & Hra & Hfp & Hho & Hsp & Hz).
    pose proof (enemyProjectile_aim moved dx dy 3 5 (Enemy.damage moved * 0.5)) as Haim.
    cbv zeta in Haim. destruct Haim as (Haim & Hrest).
    eexists. split; [reflexivity |].
    split; [exact Hra |]. split; [rewrite Hda, Hdmg; reflexivity |].
    split; [exact Hfp |]. split; [exact Hho |].
    split; [intros Hpos; apply Hsp; lra |]. split; [exact Hz |].
    split; [exact Haim |]. split; [exact Hrest |].
    unfold cullEnemy, withinReach. rewrite Hy. cbn [Enemy.y Enemy.set_lastShootTime].
    destruct (Rgt_dec _ _) as [Hout | Hin]; cbn [snd].
    + split; [intros enemy'; discriminate | intros _ Hle; lra].
    + split; [| discriminate].
      intros enemy'. intros [= <-]. rewrite Hx. split; reflexivity.
  - intros ->.
    unfold CHASER_TRAIL_COOLDOWN, PROJECTILE_SPEED, CHASER_TRAIL_SPEED_MULTIPLIER,
      CHASER_TRAIL_DAMAGE_MULTIPLIER.
    set (moved := integrate _).
    assert (Hm : Enemy.lastTrailTime moved = Enemy.lastTrailTime enemy
                 /\ Enemy.trailCooldown moved = Enemy.trailCooldown enemy
                 /\ Enemy.damage moved = Enemy.damage enemy).
    { subst moved. unfold integrate, chase. decide_reals; cbn; repeat split. }
    destruct Hm as (-> & -> & Hdmg). clearbody moved.
    destruct (Rgt_dec (currentTime - _) _) as [Hfire | Hwait].
    + cbv iota beta. destruct (contactDamage _ _ _ _ _) as [player' gs] eqn:Hc.
      cbn [fst snd c_projectiles]. rewrite Hdd.
      pose proof (enemyProjectile_facts moved dx dy (3 * 0.5) 4
                    (Enemy.damage moved * 0.3)) as Hshot.
      cbv zeta in Hshot. destruct Hshot as (Hx & Hy & Hda & Hra & Hfp & Hho & Hsp & Hz).
      pose proof (enemyProjectile_aim moved dx dy (3 * 0.5) 4
                    (Enemy.damage moved * 0.3)) as Haim.
      cbv zeta in Haim. destruct Haim as (Haim & Hrest).
      eexists. split; [reflexivity |].
      split; [exact Hra |]. split; [rewrite Hda, Hdmg; reflexivity |].
      split; [exact Hfp |]. split; [exact Hho |].
      split; [intros Hpos; rewrite Hsp; lra |]. split; [exact Hz |].
      split; [intros Hpos; destruct (Haim Hpos) as [-> ->]; split; lra |].
      split; [exact Hrest |].
      unfold cullEnemy, withinReach. rewrite Hy. cbn [Enemy.y Enemy.set_lastTrailTime].
      destruct (Rgt_dec _ _) as [Hout | Hin]; cbn [snd].
      * split; [intros enemy'; discriminate | intros _ Hle; lra].
      * split; [| discriminate].
        intros enemy'. intros [= <-]. rewrite Hx. split; reflexivity.
    + cbv iota beta. destruct (contactDamage _ _ _ _ _) as [player' gs]. reflexivity.
  - intros [-> | ->].
    + destruct (contactDamage _ _ _ _ _) as [player' gs]. reflexivity.
    + destruct (truthy _); [reflexivity |].
      destruct (Rlt_dec _ _); [| reflexivity].
      destruct (Rlt_dec _ _); [| reflexivity].
      destruct (hurt _ _ _). reflexivity.
Qed.

Lemma ranged_stamp canvas deltaTime t st enemy enemy' :
  Enemy.type enemy = ranged ->
  t - orDefault (Enemy.lastShootTime enemy) 0 > RANGED_ENEMY_SHOOT_COOLDOWN ->
  snd (updateEnemy canvas deltaTime t st enemy) = Some enemy' ->
  Enemy.type enemy' = ranged /\ Enemy.lastShootTime enemy' = Some t.
Proof.
  intros Hty Hfire. unfold updateEnemy. rewrite Hty. cbv zeta.
  set (moved := integrate _).
  assert (Hm : Enemy.lastShootTime moved = Enemy.lastShootTime enemy
               /\ Enemy.type moved = ranged).
  { subst moved. unfold integrate, chase, flee. decide_reals; cbn; split; assumption || reflexivity. }
  destruct Hm as [Hlast Htype]. clearbody moved. rewrite Hlast.
  destruct (Rgt_dec _ _) as [_ | Hn]; [| contradiction].
  cbn [snd]. unfold cullEnemy. destruct (Rgt_dec _ _); [discriminate |].
  intros [= <-]. cbn. split; [exact Htype | reflexivity].
Qed.

Lemma ranged_holds_fire canvas deltaTime t t' st enemy :
  Enemy.type enemy = ranged ->
  Enemy.lastShootTime enemy = Some t ->
  t' - t <= RANGED_ENEMY_SHOOT_COOLDOWN ->
  c_projectiles (fst (updateEnemy canvas deltaTime t' st enemy)) = c_projectiles st.
Proof.
  intros Hty Hlast Hwait. unfold updateEnemy. rewrite Hty. cbv zeta.
  set (moved := integrate _).
  assert (Hm : Enemy.lastShootTime moved = Some t).
  { subst moved. unfold integrate, chase, flee. decide_reals; cbn; exact Hlast. }
  clearbody moved. rewrite Hm, orDefault_zero.
  destruct (Rgt_dec _ _) as [Hgt | _]; [lra | reflexivity].
Qed.

Lemma ranged_wait_stamp canvas deltaTime t t' st enemy enemy' :
  Enemy.type enemy = ranged ->
  Enemy.lastShootTime enemy = Some t ->
  t' - t <= RANGED_ENEMY_SHOOT_COOLDOWN ->
  snd (updateEnemy canvas deltaTime t' st enemy) = Some enemy' ->
  Enemy.type enemy' = ranged /\ Enemy.lastShootTime enemy' = Some t.
Proof.
  intros Hty Hlast Hwait. unfold updateEnemy. rewrite Hty. cbv zeta.
  set (moved := integrate _).
  assert (Hm : Enemy.lastShootTime moved = Some t /\ Enemy.type moved = ranged).
  { subst moved. unfold integrate, chase, flee.
    decide_reals; cbn; split; assumption. }
  destruct Hm as [Hstamp Htype]. clearbody moved. rewrite Hstamp, orDefault_zero.
  destruct (Rgt_dec _ _) as [Hgt | _]; [lra |].
  cbn [snd]. unfold cullEnemy. destruct (Rgt_dec _ _); [discriminate |].
  intros [= <-]. split; assumption.
Qed.

Lemma stamped_holds_fire canvas t steps :
  forall enemy,
  Enemy.type enemy = ranged ->
  Enemy.lastShootTime enemy = Some t ->
  Forall (fun step => s_currentTime step - t <= RANGED_ENEMY_SHOOT_COOLDOWN) steps ->
  holdsFire canvas steps enemy.
Proof.
  induction steps as [| step later IH]; intros enemy Hty Hlast Hsteps; [exact I |].
  inversion Hsteps as [| ? ? Hwait Hlater]; subst.
  cbn [holdsFire]. cbv zeta. split.
  - apply (ranged_holds_fire canvas (s_deltaTime step) t (s_currentTime step)
             (s_state step) enemy Hty Hlast Hwait).
  - destruct (snd (updateEnemy canvas (s_deltaTime step) (s_currentTime step)
                     (s_state step) enemy)) as [enemy' |] eqn:Hstep; [| exact I].
    destruct (ranged_wait_stamp canvas (s_deltaTime step) t (s_currentTime step)
                (s_state step) enemy enemy' Hty Hlast Hwait Hstep) as [Hty' Hlast'].
    apply IH; assumption.
Qed.

(** X11. The cooldown of a ranged enemy holds across steps: after a step
    at clock reading [t] in which it fired, the enemy adds no projectile in
    any sequence of later steps whose clock readings are at most
    [t + 2000], for as long as it stays in the array and whatever the frame
    times and the states of those steps: a step that does not fire leaves
    the time of the last shot as it was. *)
Theorem ranged_fire_cooldown canvas deltaTime t st enemy enemy' steps :
  Enemy.type enemy = ranged ->
  t - orDefault (Enemy.lastShootTime enemy) 0 > 2000 ->
  snd (updateEnemy canvas deltaTime t st enemy) = Some enemy' ->
  Forall (fun step => s_currentTime step <= t + 2000) steps ->
  holdsFire canvas steps enemy'.
Proof.
  intros Hty Hfire Hstep Hsteps.
  destruct (ranged_stamp canvas deltaTime t st enemy enemy' Hty Hfire Hstep)
    as [Hty' Hlast].
  apply (stamped_holds_fire canvas t steps enemy' Hty' Hlast).
  eapply Forall_impl; [| exact Hsteps].
  intros step Hle. unfold RANGED_ENEMY_SHOOT_COOLDOWN. cbv beta in Hle. lra.
Qed.

Lemma sampleGiant_ranged_step :
  snd (updateEnemy sampleCanvas 16 3000 sampleCombat (sampleGiant ranged))
  = Some (Enemy.set_lastShootTime (Some 3000)
            (integrate (flee (0 - 80) (0 - 0) 80 (sampleGiant ranged)))).
Proof.
  assert (Hd : sqrt ((0 - 80) * (0 - 80) + (0 - 0) * (0 - 0)) = 80).
  { replace ((0 - 80) * (0 - 80) + (0 - 0) * (0 - 0)) with (80 * 80) by lra.
    apply sqrt_square. lra. }
  unfold updateEnemy. cbn. rewrite !Hd.
  unfold RANGED_ENEMY_PREFERRED_DISTANCE, RANGED_DISTANCE_THRESHOLD,
    RANGED_ENEMY_SHOOT_COOLDOWN.
  destruct (Rgt_dec 80 (200 + 50)) as [Hn | _]; [exfalso; lra |].
  destruct (Rlt_dec 80 (200 - 50)) as [_ | Hn]; [| exfalso; lra].
  unfold cullEnemy, flee, integrate.
  destruct (Rgt_dec 80 0) as [_ | Hn]; [| exfalso; lra]. cbn.
  destruct (Rgt_dec (3000 - 0) 2000) as [_ | Hn]; [| exfalso; lra]. cbn.
  destruct (Rgt_dec _ _) as [Hgt | _]; [| reflexivity].
  exfalso. revert Hgt. unfold Rabs. destruct (Rcase_abs _); lra.
Qed.

Lemma ranged_fire_cooldown_witness :
  holdsFire sampleCanvas
    [mkEnemyStep 16 3500 sampleCombat; mkEnemyStep 16 4200 sampleCombat;
     mkEnemyStep 16 5000 sampleCombat]
    (Enemy.set_lastShootTime (Some 3000)
       (integrate (flee (0 - 80) (0 - 0) 80 (sampleGiant ranged)))).
Proof.
  apply (ranged_fire_cooldown sampleCanvas 16 3000 sampleCombat (sampleGiant ranged)).
  - reflexivity.
  - cbn. destruct (Req_dec_T 0 0) as [_ | Hn]; lra.
  - exact sampleGiant_ranged_step.
  - repeat constructor; cbn; lra.
Defined.

(** ** Projectile resolution *)

(** X12. A player projectile hits at most one enemy per step, the last one
    in array order that it overlaps: the scan fails exactly when it
    overlaps none, and otherwise it changes that one enemy only, removing
    it with its recovery paid to the gauge if the damage empties its
    health and leaving it damaged in place otherwise. *)
Theorem hitScan_hits_last_overlap projectile player enemies :
  match hitScan projectile player enemies with
  | None => Forall (fun e => ~ overlaps projectile e) enemies
  | Some (player', enemies') =>
      exists before enemy after,
        enemies = before ++ enemy :: after
        /\ overlaps projectile enemy
        /\ Forall (fun e => ~ overlaps projectile e) after
        /\ let hit := Enemy.set_health
                        (Enemy.health enemy - Projectile.damage projectile) enemy in
           if Rle_dec (Enemy.health enemy - Projectile.damage projectile) 0
           then enemies' = before ++ after /\ player' = recover enemy player
           else enemies' = before ++ hit :: after /\ player' = player
  end.
Proof.
  induction enemies as [| enemy later IH]; cbn [hitScan]; [constructor |].
  destruct (hitScan projectile player later) as [[p1 l1] |].
  - destruct IH as (before & e & after & -> & Hov & Hafter & Hres).
    exists (enemy :: before), e, after. split; [reflexivity |].
    split; [exact Hov |]. split; [exact Hafter |].
    cbv zeta in *. destruct (Rle_dec _ 0); destruct Hres as [-> ->]; split; reflexivity.
  - cbv zeta. fold (overlaps projectile enemy).
    destruct (Rlt_dec _ _) as [Hov | Hno].
    + cbn [Enemy.health Enemy.set_health].
      destruct (Rle_dec (Enemy.health enemy - Projectile.damage projectile) 0)
        as [Hdead | Halive] eqn:Hdec;
        exists [], enemy, later; (split; [reflexivity |]);
        (split; [exact Hov |]); (split; [exact IH |]);
        rewrite Hdec; split; reflexivity.
    + constructor; [exact Hno | exact IH].
Qed.

Lemma hitScan_effect projectile player enemies player' enemies' :
  hitScan projectile player enemies = Some (player', enemies') ->
  sameButGauge player' player
  /\ (length enemies' <= length enemies <= S (length enemies'))%nat
  /\ (Forall (fun e => (0 <= Enemy.level e)%Z) enemies ->
      Player.bloodGauge player <= Player.bloodGauge player').
Proof.
  revert player' enemies'.
  induction enemies as [| enemy later IH]; intros player' enemies'; cbn [hitScan];
    [discriminate |].
  destruct (hitScan projectile player later) as [[p1 l1] |].
  - intros [= <- <-]. destruct (IH p1 l1 eq_refl) as (Hs & Hl & Hg).
    split; [exact Hs |]. split; [cbn; lia |].
    intros Hall. inversion Hall; subst. auto.
  - cbv zeta. destruct (Rlt_dec _ _); [| discriminate].
    destruct (Rle_dec _ _); intros [= <- <-].
    + split; [reflexivity |]. split; [cbn; lia |].
      intros Hall. inversion Hall as [| ? ? Hlevel _]; subst.
      rewrite recover_gauge. cbn [Enemy.level Enemy.set_health].
      rewrite <- mult_IZR, Zfloor_IZR.
      assert (0 <= IZR (15 * Enemy.level enemy)) by (apply IZR_le; lia). lra.
    + split; [reflexivity |]. split; [cbn; lia |]. intros _. lra.
Qed.

Lemma homingStep_owner projectile enemies :
  Projectile.fromPlayer (homingStep projectile enemies) = Projectile.fromPlayer projectile
  /\ Projectile.damage (homingStep projectile enemies) = Projectile.damage projectile
  /\ Projectile.x (homingStep projectile enemies) = Projectile.x projectile
  /\ Projectile.y (homingStep projectile enemies) = Projectile.y projectile.
Proof.
  unfold homingStep. destruct (nearestEnemy projectile enemies); [| repeat split].
  cbv zeta. destruct (Rgt_dec _ 0); [| repeat split].
  destruct (Rgt_dec _ 0); repeat split.
Qed.

(** X13. A projectile resolves at most once and only against the other
    side. A projectile that stays in the array has changed nothing. An
    enemy projectile never touches the enemy array and costs the gauge
    either nothing or its damage, in which case it is removed. A player
    projectile never changes the game state, removes at most one enemy
    and, with enemy levels that are not negative, never lowers the gauge.
    No projectile changes anything of the player but the gauge. *)
Theorem projectile_resolves_once canvas st projectile :
  let r := updateProjectile canvas st projectile in
  (forall projectile', snd r = Some projectile' -> fst r = st)
  /\ sameButGauge (b_player (fst r)) (b_player st)
  /\ (truthy (Projectile.fromPlayer projectile) = false ->
      b_enemies (fst r) = b_enemies st
      /\ (fst r = st
          \/ (snd r = None
              /\ Player.bloodGauge (b_player (fst r))
                 = Player.bloodGauge (b_player st) - Projectile.damage projectile)))
  /\ (truthy (Projectile.fromPlayer projectile) = true ->
      b_gameState (fst r) = b_gameState st
      /\ (length (b_enemies (fst r)) <= length (b_enemies st)
          <= S (length (b_enemies (fst r))))%nat
      /\ (Forall (fun e => (0 <= Enemy.level e)%Z) (b_enemies st) ->
          Player.bloodGauge (b_player st) <= Player.bloodGauge (b_player (fst r)))).
Proof.
  intros r. subst r. unfold updateProjectile. cbv zeta.
  set (steered := if truthy (Projectile.fromPlayer projectile)
                     && truthy (Projectile.homing projectile)
                  then homingStep projectile (b_enemies st) else projectile).
  assert (Hsteered : Projectile.fromPlayer steered = Projectile.fromPlayer projectile
                     /\ Projectile.damage steered = Projectile.damage projectile).
  { subst steered. destruct (_ && _); [| split; reflexivity].
    destruct (homingStep_owner projectile (b_enemies st)) as (H1 & H2 & _).
    split; assumption. }
  destruct Hsteered as [Hown Hdmg].
  set (moved := Projectile.set_pos _ _ steered).
  assert (Hmoved : Projectile.fromPlayer moved = Projectile.fromPlayer projectile
                   /\ Projectile.damage moved = Projectile.damage projectile)
    by (split; assumption).
  destruct Hmoved as [-> Hd]. clearbody moved. clear steered Hown Hdmg.
  unfold cullProjectile.
  destruct (truthy (Projectile.fromPlayer projectile)).
  - destruct (hitScan moved (b_player st) (b_enemies st)) as [[p' l'] |] eqn:Hhit.
    + destruct (hitScan_effect _ _ _ _ _ Hhit) as (Hs & Hl & Hg).
      cbn [fst snd b_player b_enemies b_gameState].
      split; [discriminate |]. split; [exact Hs |]. split; [discriminate |].
      intros _. split; [reflexivity |]. split; [exact Hl | exact Hg].
    + cbn [fst snd]. split; [reflexivity |]. split; [reflexivity |].
      split; [discriminate |]. intros _. split; [reflexivity |].
      split; [lia |]. intros _. lra.
  - destruct (Rlt_dec _ _).
    + unfold hurt. cbn [fst snd b_player b_enemies b_gameState Player.bloodGauge
                        Player.set_bloodGauge].
      split; [discriminate |]. split; [reflexivity |].
      split; [| discriminate]. intros _. split; [reflexivity |].
      right. split; [reflexivity |]. rewrite Hd. reflexivity.
    + cbn [fst snd]. split; [reflexivity |]. split; [reflexivity |].
      split; [| discriminate]. intros _. split; [reflexivity |]. left. reflexivity.
Qed.

Lemma nearestStep_fold projectile enemies :
  forall best,
  distanceFromProjectile projectile (fst best) = snd best ->
  exists e,
    fold_left (nearestStep projectile) enemies (Some best)
    = Some (e, distanceFromProjectile projectile e)
    /\ In e (fst best :: enemies)
    /\ Forall (fun e' => distanceFromProjectile projectile e
                         <= distanceFromProjectile projectile e')
              (fst best :: enemies).
Proof.
  induction enemies as [| enemy later IH]; intros [b bd] Hb; cbn in Hb |- *.
  - subst bd. exists b. split; [reflexivity |]. split; [now left |].
    constructor; [lra | constructor].
  - fold (distanceFromProjectile projectile enemy).
    destruct (Rlt_dec _ bd) as [Hlt | Hge].
    + destruct (IH (enemy, distanceFromProjectile projectile enemy) eq_refl)
        as (e & Hfold & Hin & Hall).
      exists e. split; [exact Hfold |]. cbn [fst] in *.
      split; [right; exact Hin |].
      inversion Hall as [| ? ? Hhead Htail]; subst.
      constructor; [lra |]. constructor; assumption.
    + destruct (IH (b, bd) Hb) as (e & Hfold & Hin & Hall).
      exists e. split; [exact Hfold |]. cbn [fst] in *.
      destruct Hin as [<- | Hin].
      * split; [now left |].
        inversion Hall as [| ? ? Hhead Htail]; subst.
        constructor; [exact Hhead |]. constructor; [lra | exact Htail].
      * split; [right; right; exact Hin |].
        inversion Hall as [| ? ? Hhead Htail]; subst.
        constructor; [exact Hhead |]. constructor; [lra | exact Htail].
Qed.

(** X14. The homing search returns an enemy of the array that no other
    enemy of the array is nearer to the projectile than, and nothing
    exactly when the array is empty. *)
Theorem nearestEnemy_is_nearest projectile enemies :
  match nearestEnemy projectile enemies with
  | None => enemies = []
  | Some e =>
      In e enemies
      /\ Forall (fun e' => distanceFromProjectile projectile e
                           <= distanceFromProjectile projectile e') enemies
  end.
Proof.
  unfold nearestEnemy. destruct enemies as [| first later]; [reflexivity |].
  cbn [fold_left nearestStep].
  destruct (nearestStep_fold projectile later
              (first, distanceFromProjectile projectile first) eq_refl)
    as (e & Hfold & Hin & Hall).
  unfold distanceFromProjectile in Hfold at 1. cbv zeta in Hfold.
  rewrite Hfold. cbn. split; assumption.
Qed.

(** ** Culling *)

Lemma sameButGauge_reach canvas p q y :
  sameButGauge p q -> withinReach canvas p y -> withinReach canvas q y.
Proof.
  unfold sameButGauge, withinReach. intros H.
  pose proof (f_equal Player.y H) as Hy. cbn in Hy. rewrite Hy. tauto.
Qed.

Lemma updateEnemy_reach canvas deltaTime currentTime st enemy enemy' :
  snd (updateEnemy canvas deltaTime currentTime st enemy) = Some enemy' ->
  withinReach canvas (c_player st) (Enemy.y enemy').
Proof.
  unfold updateEnemy, contactDamage, hurt, withinReach. cbv zeta.
  assert (Hcull : forall e e', cullEnemy canvas (c_player st) e = Some e' ->
                               Rabs (Enemy.y e' - Player.y (c_player st))
                               <= height canvas * 2).
  { intros e e'. unfold cullEnemy. destruct (Rgt_dec _ _); [discriminate |].
    intros [= <-]. lra. }
  destruct (Enemy.type enemy); [| | destruct (truthy (Enemy.exploded enemy)) |].
  all: repeat match goal with
              | |- context [if ?c then _ else _] => destruct c
              end; cbn [snd]; try discriminate; apply Hcull.
Qed.

Lemma updateProjectiles_player canvas projectiles :
  forall st,
  sameButGauge (b_player (fst (updateProjectiles canvas st projectiles))) (b_player st).
Proof.
  induction projectiles as [| projectile later IH]; intros st; cbn [updateProjectiles];
    [reflexivity |].
  specialize (IH st). destruct (updateProjectiles canvas st later) as [s1 l1].
  cbn [fst] in IH.
  destruct (updateProjectile canvas s1 projectile) as [s2 o] eqn:Hstep. cbn [fst].
  assert (Hs : sameButGauge (b_player s2) (b_player s1)).
  { replace s2 with (fst (updateProjectile canvas s1 projectile)) by now rewrite Hstep.
    unfold updateProjectile. cbv zeta.
    match goal with |- context [hitScan ?p ?pl ?l] =>
      destruct (truthy (Projectile.fromPlayer p));
        [destruct (hitScan p pl l) as [[p' l'] |] eqn:Hhit |] end.
    - cbn. apply (hitScan_effect _ _ _ _ _ Hhit).
    - reflexivity.
    - destruct (Rlt_dec _ _); [| reflexivity]. unfold hurt. reflexivity. }
  unfold sameButGauge in *. congruence.
Qed.

(** X15. Nothing far away is kept: after the enemy loop every enemy left
    in the array, and after the projectile loop every projectile left in
    the array, is within twice the canvas height of the player's
    ordinate. *)
Theorem culling_keeps_near canvas deltaTime currentTime :
  (forall enemies st,
      Forall (fun e => withinReach canvas (c_player st) (Enemy.y e))
             (snd (updateEnemies canvas deltaTime currentTime st enemies)))
  /\ (forall projectiles st,
        Forall (fun p => withinReach canvas (b_player st) (Projectile.y p))
               (snd (updateProjectiles canvas st projectiles))).
Proof.
  split.
  - induction enemies as [| enemy later IH]; intros st; cbn [updateEnemies];
      [constructor |].
    specialize (IH st).
    pose proof (updateEnemies_gauge_blind canvas deltaTime currentTime later st st
                  eq_refl eq_refl) as Hsame.
    cbv zeta in Hsame. destruct Hsame as (_ & _ & Hsame & _).
    destruct (updateEnemies canvas deltaTime currentTime st later) as [s1 l1].
    cbn [fst snd] in *.
    destruct (updateEnemy canvas deltaTime currentTime s1 enemy) as [s2 o] eqn:Hstep.
    cbn [snd]. destruct o as [e' |]; [| exact IH].
    constructor; [| exact IH].
    apply (sameButGauge_reach canvas (c_player s1)); [exact Hsame |].
    apply (updateEnemy_reach canvas deltaTime currentTime s1 enemy).
    rewrite Hstep. reflexivity.
  - induction projectiles as [| projectile later IH]; intros st;
      cbn [updateProjectiles]; [constructor |].
    specialize (IH st).
    pose proof (updateProjectiles_player canvas later st) as Hsame.
    destruct (updateProjectiles canvas st later) as [s1 l1]. cbn [fst snd] in *.
    destruct (updateProjectile canvas s1 projectile) as [s2 o] eqn:Hstep.
    cbn [snd]. destruct o as [p' |]; [| exact IH].
    constructor; [| exact IH].
    apply (sameButGauge_reach canvas (b_player s1)); [exact Hsame |].
    revert Hstep. unfold updateProjectile, cullProjectile, withinReach. cbv zeta.
    repeat match goal with
           | |- context [match ?c with _ => _ end] =>
               lazymatch c with
               | hitScan _ _ _ => destruct c as [[? ?] |]
               | hurt _ _ _ => destruct c
               | _ => destruct c
               end
           end; intros [= _ <-]; lra.
Qed.

(** ** Player fire *)

Lemma projectileCooldown_bounds player :
  (0 < Player.projectileLevel player)%Z ->
  100 <= projectileCooldown player <= 300
  /\ ((15 <= Player.projectileLevel player)%Z -> projectileCooldown player = 100).
Proof.
  intros Hlevel. unfold projectileCooldown, PROJECTILE_COOLDOWN_MIN,
    PROJECTILE_COOLDOWN_BASE, PROJECTILE_COOLDOWN_REDUCTION_PER_LEVEL.
  assert (H0 : 0 <= IZR (Player.projectileLevel player - 1)) by (apply IZR_le; lia).
  split; [split |].
  - apply Rmax_l.
  - apply Rmax_lub; lra.
  - intros H15.
    assert (14 <= IZR (Player.projectileLevel player - 1)) by (apply IZR_le; lia).
    apply Rmax_left. lra.
Qed.

(** X16. The cooldown of the player's fire lies between 100 and 300 ms
    and is 100 ms from projectile level 15 on; after a shot at clock
    reading [t] no later call fires until the clock reading exceeds
    [t] plus the cooldown, whatever enemies and projectiles there are. *)
Theorem fire_cooldown player enemies projectiles t :
  fireTriggers player t = true ->
  let fired := fst (autoFire player enemies projectiles t) in
  100 <= projectileCooldown player <= 300
  /\ ((15 <= Player.projectileLevel player)%Z -> projectileCooldown player = 100)
  /\ forall enemies' projectiles' t',
       t' - t <= projectileCooldown player ->
       autoFire fired enemies' projectiles' t' = (fired, projectiles').
Proof.
  intros Hfire fired.
  assert (Hlevel : (0 < Player.projectileLevel player)%Z).
  { unfold fireTriggers in Hfire. apply andb_prop in Hfire.
    destruct Hfire as [H _]. apply Z.ltb_lt. exact H. }
  destruct (projectileCooldown_bounds player Hlevel) as [Hb H15].
  split; [exact Hb |]. split; [exact H15 |].
  intros enemies' projectiles' t' Hwait.
  assert (Hfired : fired = Player.set_lastProjectileTime t player).
  { subst fired. unfold autoFire. rewrite Hfire. reflexivity. }
  rewrite Hfired. unfold autoFire, fireTriggers.
  change (projectileCooldown (Player.set_lastProjectileTime t player))
    with (projectileCooldown player).
  cbn [Player.lastProjectileTime Player.set_lastProjectileTime Player.projectileLevel].
  destruct (Rgt_dec (t' - t) (projectileCooldown player)) as [Hgt | _]; [lra |].
  rewrite andb_false_r. reflexivity.
Qed.

Lemma fire_cooldown_witness :
  autoFire (fst (autoFire sampleGunner [sampleBomber] [] 1000)) [sampleBomber] [] 1050
  = (fst (autoFire sampleGunner [sampleBomber] [] 1000), []).
Proof.
  apply (fire_cooldown sampleGunner [sampleBomber] [] 1000 sampleGunner_fires).
  destruct (projectileCooldown_bounds sampleGunner) as [Hbounds _]; [cbn; lia | lra].
Defined.

(** X17. Every projectile of a shot starts at the player's position with
    radius 6, speed 8 and damage [10 + 5 * projectileLevel], is owned by
    the player, and homes exactly from projectile level 10 on. *)
Theorem volley_projectiles player enemies :
  Forall (fun p =>
            Projectile.x p = Player.x player /\ Projectile.y p = Player.y player
            /\ Projectile.radius p = 6
            /\ projectileSpeed p = 8
            /\ Projectile.damage p = 10 + 5 * IZR (Player.projectileLevel player)
            /\ Projectile.fromPlayer p = Some true
            /\ Projectile.homing p = Some (10 <=? Player.projectileLevel player)%Z)
         (volley player enemies).
Proof.
  unfold volley. apply Forall_forall. intros p Hin.
  apply in_map_iff in Hin. destruct Hin as (target & <- & _).
  pose proof (fireAt_speed player target) as Hspeed.
  unfold fireAt in *. destruct (aimAt player target) as [vx vy]. cbn in *.
  repeat split; try reflexivity; try exact Hspeed.
  unfold PROJECTILE_DAMAGE_BASE, PROJECTILE_DAMAGE_INCREASE_PER_LEVEL.
  rewrite minus_IZR. lra.
Qed.

(** ** Auto-attack *)

Lemma setAt_middle {A : Type} (done : list A) (e e' : A) (rest : list A) :
  setAt (length done) e' (done ++ e :: rest) = done ++ e' :: rest.
Proof. induction done as [| h t IH]; cbn; [reflexivity | now rewrite IH]. Qed.

Lemma attackLoop_without_kill player :
  forall todo done fuel,
  (length todo <= fuel)%nat ->
  Forall (fun e => distanceToEnemy player e < Player.attackRadius player ->
                   0 < Enemy.health e - Player.attackDamage player) todo ->
  attackLoop fuel (length done) player (done ++ todo)
  = (player, done ++ map (strike player) todo).
Proof.
  induction todo as [| e rest IH]; intros done fuel Hfuel Hall.
  - rewrite app_nil_r. cbn [map]. rewrite app_nil_r.
    destruct fuel; cbn [attackLoop]; [reflexivity |].
    assert (Hnone : nth_error done (length done) = None)
      by (apply nth_error_None; lia).
    rewrite Hnone. reflexivity.
  - destruct fuel as [| fuel]; [cbn in Hfuel; lia |].
    inversion Hall as [| ? ? Hhead Htail]; subst.
    cbn [attackLoop]. rewrite nth_error_app2, Nat.sub_diag by lia. cbn [nth_error].
    assert (Hbody : attackEnemy (length done) e player (done ++ e :: rest)
                    = (player, done ++ strike player e :: rest)).
    { unfold strike.
      destruct (Rlt_dec (distanceToEnemy player e) (Player.attackRadius player))
        as [Hin | Hout].
      - rewrite (attackEnemy_survive _ _ _ _ Hin (Hhead Hin)), setAt_middle.
        reflexivity.
      - rewrite attackEnemy_out_of_range by lra. reflexivity. }
    rewrite Hbody.
    replace (done ++ strike player e :: rest)
      with ((done ++ [strike player e]) ++ rest) by (rewrite <- app_assoc; reflexivity).
    replace (S (length done)) with (length (done ++ [strike player e]))
      by (rewrite length_app; cbn; lia).
    rewrite (IH (done ++ [strike player e]) fuel); [| cbn in Hfuel; lia | exact Htail].
    rewrite <- app_assoc. reflexivity.
Qed.

(** X18. When no enemy dies, the auto-attack is exact: if every enemy
    within the attack radius has more health than the attack deals, one
    activation takes the attack damage from each enemy within the radius,
    leaves the others, the order of the array and the gauge as they were,
    and records the time of the attack. *)
Theorem auto_attack_without_kill player enemies t :
  attackTriggers player t = true ->
  Forall (fun e => distanceToEnemy player e < Player.attackRadius player ->
                   0 < Enemy.health e - Player.attackDamage player) enemies ->
  autoAttack player enemies t
  = (Player.set_lastAttackTime t player, map (strike player) enemies).
Proof.
  intros Htrig Hall. unfold autoAttack. rewrite Htrig.
  pose proof (attackLoop_without_kill player enemies [] (length enemies) (le_n _) Hall)
    as Hloop.
  cbn [length app] in Hloop. rewrite Hloop. reflexivity.
Qed.

Lemma auto_attack_without_kill_witness :
  autoAttack Player.initial [sampleBomber; sampleGiant melee] 1000
  = (Player.set_lastAttackTime 1000 Player.initial,
     map (strike Player.initial) [sampleBomber; sampleGiant melee]).
Proof.
  apply (auto_attack_without_kill Player.initial [sampleBomber; sampleGiant melee] 1000).
  - unfold attackTriggers. cbn.
    destruct (Rgt_dec (1000 - 0) 500) as [_ | Hn]; [reflexivity | exfalso; lra].
  - repeat constructor; intros _; cbn; lra.
Defined.

Lemma attackEnemy_effect i enemy player enemies :
  nth_error enemies i = Some enemy ->
  let r := attackEnemy i enemy player enemies in
  sameButGauge (fst r) player
  /\ ((0 <= Enemy.level enemy)%Z ->
      Player.bloodGauge player <= Player.bloodGauge (fst r)).
Proof.
  intros Hnth. unfold attackEnemy. cbv zeta.
  destruct (Rlt_dec _ _); [| split; [reflexivity | intros; cbn; lra]].
  destruct (Rle_dec _ _); [| split; [reflexivity | intros; cbn; lra]].
  cbn [fst]. split; [reflexivity |]. intros Hlevel.
  rewrite recover_gauge. cbn [Enemy.level Enemy.set_health].
  rewrite <- mult_IZR, Zfloor_IZR.
  assert (0 <= IZR (15 * Enemy.level enemy)) by (apply IZR_le; lia). lra.
Qed.

Lemma attackLoop_effect fuel :
  forall i player enemies,
  let r := attackLoop fuel i player enemies in
  sameButGauge (fst r) player
  /\ (length (snd r) <= length enemies)%nat
  /\ (Forall (fun e => (0 <= Enemy.level e)%Z) enemies ->
      Player.bloodGauge player <= Player.bloodGauge (fst r)).
Proof.
  induction fuel as [| fuel IH]; intros i player enemies; cbn [attackLoop].
  - cbn. split; [reflexivity |]. split; [lia |]. intros; lra.
  - destruct (nth_error enemies i) as [enemy |] eqn:Hnth;
      [| cbn; split; [reflexivity |]; split; [lia |]; intros; lra].
    pose proof (attackEnemy_effect i enemy player enemies Hnth) as Hbody.
    pose proof (attackEnemy_length i enemy player enemies) as Hlen.
    assert (Hlevels : Forall (fun e => (0 <= Enemy.level e)%Z) enemies ->
                      Forall (fun e => (0 <= Enemy.level e)%Z)
                             (snd (attackEnemy i enemy player enemies))).
    { intros Hall.
      assert (Henemy : (0 <= Enemy.level enemy)%Z).
      { rewrite Forall_forall in Hall. apply Hall. eapply nth_error_In. exact Hnth. }
      unfold attackEnemy. cbv zeta.
      destruct (Rlt_dec _ _); [| exact Hall].
      destruct (Rle_dec _ _); cbn [snd].
      - apply Forall_removeAt, Forall_setAt; [exact Henemy | exact Hall].
      - apply Forall_setAt; [exact Henemy | exact Hall]. }
    cbv zeta in Hbody.
    destruct (attackEnemy i enemy player enemies) as [p1 l1]. cbn [fst snd] in *.
    specialize (IH (S i) p1 l1). cbv zeta in IH.
    destruct (attackLoop fuel (S i) p1 l1) as [p2 l2]. cbn [fst snd] in *.
    destruct IH as (Hs & Hl & Hg). destruct Hbody as (Hs1 & Hg1).
    split; [unfold sameButGauge in *; congruence |]. split; [lia |].
    intros Hall.
    assert (Henemy : (0 <= Enemy.level enemy)%Z).
    { rewrite Forall_forall in Hall. apply Hall. eapply nth_error_In. exact Hnth. }
    specialize (Hg (Hlevels Hall)). specialize (Hg1 Henemy). lra.
Qed.

(** X19. The auto-attack never harms the player and keeps its own
    cooldown: an activation at clock reading [t] records [t], so no call
    activates again until the clock reading exceeds [t] plus the cooldown;
    a call never adds an enemy, changes nothing of the player but the gauge
    and the recorded time, and, with enemy levels that are not negative,
    never lowers the gauge. *)
Theorem auto_attack_effects player enemies t :
  let r := autoAttack player enemies t in
  (attackTriggers player t = true ->
   forall enemies' t',
     t' - t <= Player.attackCooldown player ->
     autoAttack (fst r) enemies' t' = (fst r, enemies'))
  /\ (length (snd r) <= length enemies)%nat
  /\ samePosition (fst r) player
  /\ Player.attackCooldown (fst r) = Player.attackCooldown player
  /\ (Forall (fun e => (0 <= Enemy.level e)%Z) enemies ->
      Player.bloodGauge player <= Player.bloodGauge (fst r)).
Proof.
  intros r.
  pose proof (attackLoop_effect (length enemies) 0 player enemies) as Hloop.
  cbv zeta in Hloop.
  assert (Hr : r = if attackTriggers player t
                   then let '(p', l') := attackLoop (length enemies) 0 player enemies in
                        (Player.set_lastAttackTime t p', l')
                   else (player, enemies)) by reflexivity.
  clearbody r. subst r.
  destruct (attackTriggers player t) eqn:Htrig.
  - destruct (attackLoop (length enemies) 0 player enemies) as [p1 l1].
    cbn [fst snd] in *. destruct Hloop as (Hs & Hl & Hg).
    assert (Hfields : Player.x p1 = Player.x player /\ Player.y p1 = Player.y player
                      /\ Player.radius p1 = Player.radius player
                      /\ Player.attackCooldown p1 = Player.attackCooldown player).
    { unfold sameButGauge in Hs.
      pose proof (f_equal Player.x Hs). pose proof (f_equal Player.y Hs).
      pose proof (f_equal Player.radius Hs).
      pose proof (f_equal Player.attackCooldown Hs). cbn in *. tauto. }
    destruct Hfields as (Hx & Hy & Hr & Hc).
    split.
    + intros _ enemies' t' Hwait. unfold autoAttack, attackTriggers.
      change (Player.lastAttackTime (Player.set_lastAttackTime t p1)) with t.
      change (Player.attackCooldown (Player.set_lastAttackTime t p1))
        with (Player.attackCooldown p1).
      rewrite Hc. destruct (Rgt_dec _ _) as [Hgt | _]; [lra | reflexivity].
    + split; [exact Hl |]. split; [repeat split; cbn; assumption |].
      split; [cbn; exact Hc |]. intros Hall. cbn. exact (Hg Hall).
  - cbn [fst snd]. split; [discriminate |]. split; [lia |].
    split; [repeat split |]. split; [reflexivity |]. intros; lra.
Qed.

(** ** The tick as a whole *)

(** The three ways through [update] when the canvas is mounted: the drain
    empties the gauge; the darkness catches the player; or the tick runs
    to its end through the spawn, enemy, projectile and attack phases. *)
Lemma update_cases rand f g canvas :
  canvasRef f = Some canvas ->
  let p0 := Player.set_bloodGauge (drainedGauge f g) (playerRef g) in
  let fired := autoFire (steerPlayer f p0) (enemiesRef g) (projectilesRef g)
                        (shootTime f) in
  let p1 := movePlayer canvas (fst fired) in
  let cameraY := Player.y p1 - height canvas / 2 in
  let darknessY := darknessYRef g - DARKNESS_RISE_SPEED in
  (drainedGauge f g <= 0
   /\ update rand f g
      = mkGame p0 (enemiesRef g) (projectilesRef g) (cameraYRef g)
               (lastSpawnTimeRef g) (darknessYRef g) gameover (score g)
               (randomCursor g))
  \/ (0 < drainedGauge f g /\ darknessY <= Player.y p1
      /\ update rand f g
         = mkGame p1 (enemiesRef g) (snd fired) cameraY (lastSpawnTimeRef g)
                  darknessY gameover (score g) (randomCursor g))
  \/ (0 < drainedGauge f g /\ Player.y p1 < darknessY
      /\ exists spawned cursor lastSpawnTime st enemies1 bt projectiles1 p2 enemies2,
           (if Rgt_dec (currentTime f - lastSpawnTimeRef g) 2000
            then spawned = fst (spawnEnemyWave (Some canvas) p1 (closureScore f) rand
                                  (spawnClock f) (randomCursor g) (enemiesRef g))
                 /\ lastSpawnTime = currentTime f
            else spawned = enemiesRef g /\ lastSpawnTime = lastSpawnTimeRef g)
           /\ updateEnemies canvas (deltaTime f) (currentTime f)
                            (mkCombat p1 (snd fired) (gameState g)) spawned
              = (st, enemies1)
           /\ updateProjectiles canvas
                (mkBattle (c_player st) enemies1 (c_gameState st)) (c_projectiles st)
              = (bt, projectiles1)
           /\ autoAttack (b_player bt) (b_enemies bt) (currentTime f) = (p2, enemies2)
           /\ update rand f g
              = mkGame p2 enemies2 projectiles1 cameraY lastSpawnTime darknessY
                       (b_gameState bt) (Z.max 0 (Zfloor (- cameraY / 10))) cursor).
Proof.
  intros Hcanvas. cbv zeta. unfold update, drainedGauge. rewrite Hcanvas. cbv zeta.
  change (Player.bloodGauge (Player.set_bloodGauge ?v ?p)) with v.
  set (drained := Player.bloodGauge (playerRef g) - _).
  destruct (Rle_dec drained 0) as [Hdead | Halive].
  { left. split; [exact Hdead | reflexivity]. }
  right.
  destruct (autoFire _ (enemiesRef g) (projectilesRef g) (shootTime f))
    as [pf projectiles]. cbn [fst snd].
  set (p1 := movePlayer canvas pf).
  destruct (Rge_dec (Player.y p1) (darknessYRef g - DARKNESS_RISE_SPEED))
    as [Hcaught | Hfree].
  { left. split; [lra |]. split; [lra | reflexivity]. }
  right. split; [lra |]. split; [lra |].
  destruct (Rgt_dec (currentTime f - lastSpawnTimeRef g) 2000) as [Hwave | Hnone].
  - destruct (spawnEnemyWave (Some canvas) p1 (closureScore f) rand (spawnClock f)
                (randomCursor g) (enemiesRef g)) as [spawned cursor] eqn:Hspawn.
    destruct (updateEnemies canvas (deltaTime f) (currentTime f)
                (mkCombat p1 projectiles (gameState g)) spawned) as [st enemies1] eqn:He.
    destruct (updateProjectiles canvas
                (mkBattle (c_player st) enemies1 (c_gameState st)) (c_projectiles st))
      as [bt projectiles1] eqn:Hp.
    destruct (autoAttack (b_player bt) (b_enemies bt) (currentTime f))
      as [p2 enemies2] eqn:Ha.
    exists spawned, cursor, (currentTime f), st, enemies1, bt, projectiles1, p2, enemies2.
    cbn [fst]. repeat split; try reflexivity; assumption.
  - destruct (updateEnemies canvas (deltaTime f) (currentTime f)
                (mkCombat p1 projectiles (gameState g)) (enemiesRef g))
      as [st enemies1] eqn:He.
    destruct (updateProjectiles canvas
                (mkBattle (c_player st) enemies1 (c_gameState st)) (c_projectiles st))
      as [bt projectiles1] eqn:Hp.
    destruct (autoAttack (b_player bt) (b_enemies bt) (currentTime f))
      as [p2 enemies2] eqn:Ha.
    exists (enemiesRef g), (randomCursor g), (lastSpawnTimeRef g), st, enemies1, bt,
      projectiles1, p2, enemies2.
    repeat split; try reflexivity; assumption.
Qed.

Lemma steerPlayer_static f player :
  Player.x (steerPlayer f player) = Player.x player
  /\ Player.y (steerPlayer f player) = Player.y player
  /\ Player.radius (steerPlayer f player) = Player.radius player
  /\ Player.bloodGauge (steerPlayer f player) = Player.bloodGauge player.
Proof.
  unfold steerPlayer. cbv zeta.
  destruct (ArrowLeft f), (ArrowRight f), (ArrowUp f), (ArrowDown f),
    (touchStartRef f); cbn; repeat split.
Qed.

Lemma autoFire_static player enemies projectiles t :
  Player.x (fst (autoFire player enemies projectiles t)) = Player.x player
  /\ Player.y (fst (autoFire player enemies projectiles t)) = Player.y player
  /\ Player.vx (fst (autoFire player enemies projectiles t)) = Player.vx player
  /\ Player.vy (fst (autoFire player enemies projectiles t)) = Player.vy player
  /\ Player.radius (fst (autoFire player enemies projectiles t)) = Player.radius player
  /\ Player.bloodGauge (fst (autoFire player enemies projectiles t))
     = Player.bloodGauge player.
Proof. unfold autoFire. destruct (fireTriggers player t); cbn; repeat split. Qed.

Lemma movePlayer_inBounds canvas player :
  2 * Player.radius player <= width canvas ->
  inBounds canvas (movePlayer canvas player)
  /\ Player.radius (movePlayer canvas player) = Player.radius player
  /\ Player.bloodGauge (movePlayer canvas player) = Player.bloodGauge player.
Proof.
  intros Hwide. unfold inBounds, movePlayer. cbn.
  split; [| split; reflexivity].
  split; [split |].
  - apply Rmax_l.
  - apply Rmax_lub; [lra | apply Rmin_l].
  - apply Rmin_l.
Qed.

Lemma sameButGauge_fields p q :
  sameButGauge p q ->
  Player.x p = Player.x q /\ Player.y p = Player.y q
  /\ Player.radius p = Player.radius q.
Proof.
  unfold sameButGauge. intros H.
  pose proof (f_equal Player.x H). pose proof (f_equal Player.y H).
  pose proof (f_equal Player.radius H). cbn in *. tauto.
Qed.

Lemma updateEnemies_player canvas deltaTime currentTime enemies st :
  sameButGauge (c_player (fst (updateEnemies canvas deltaTime currentTime st enemies)))
               (c_player st).
Proof.
  pose proof (updateEnemies_gauge_blind canvas deltaTime currentTime enemies st st
                eq_refl eq_refl) as H.
  cbv zeta in H. tauto.
Qed.

Lemma auto_attack_position player enemies t :
  samePosition (fst (autoAttack player enemies t)) player.
Proof.
  unfold autoAttack. destruct (attackTriggers player t); [| repeat split].
  pose proof (attackLoop_effect (length enemies) 0 player enemies) as Hloop.
  cbv zeta in Hloop. destruct (attackLoop _ _ _ _) as [p1 l1].
  cbn [fst snd] in *. destruct Hloop as (Hs & _).
  destruct (sameButGauge_fields _ _ Hs) as (Hx & Hy & Hr).
  repeat split; cbn; assumption.
Qed.

(** X20. While the gauge survives the drain of the frame, the tick leaves
    the player inside the canvas: on a canvas at least as wide as the
    player's diameter, the player ends the tick with its centre between
    one radius from the left edge and one radius from the right edge, and
    no lower than one radius above the bottom edge. Upward it is free. *)
Theorem player_stays_in_bounds rand f g canvas :
  canvasRef f = Some canvas ->
  0 < drainedGauge f g ->
  2 * Player.radius (playerRef g) <= width canvas ->
  inBounds canvas (playerRef (update rand f g)).
Proof.
  intros Hcanvas Halive Hwide.
  pose proof (update_cases rand f g canvas Hcanvas) as Hcases. cbv zeta in Hcases.
  set (p0 := Player.set_bloodGauge (drainedGauge f g) (playerRef g)) in *.
  set (fired := autoFire (steerPlayer f p0) (enemiesRef g) (projectilesRef g)
                         (shootTime f)) in *.
  assert (Hradius : Player.radius (fst fired) = Player.radius (playerRef g)).
  { subst fired.
    destruct (autoFire_static (steerPlayer f p0) (enemiesRef g) (projectilesRef g)
                (shootTime f)) as (_ & _ & _ & _ & -> & _).
    destruct (steerPlayer_static f p0) as (_ & _ & -> & _). reflexivity. }
  destruct (movePlayer_inBounds canvas (fst fired)) as (Hin & Hr & _);
    [rewrite Hradius; exact Hwide |].
  destruct Hcases as [[Hdead _] | [(_ & _ & ->) | (_ & _ & Hrun)]].
  - lra.
  - exact Hin.
  - destruct Hrun as (spawned & cursor & lastSpawnTime & st & enemies1 & bt
                      & projectiles1 & p2 & enemies2 & _ & He & Hp & Ha & ->).
    cbn [playerRef].
    pose proof (updateEnemies_player canvas (deltaTime f) (currentTime f) spawned
                  (mkCombat (movePlayer canvas (fst fired)) (snd fired) (gameState g)))
      as Hs1.
    rewrite He in Hs1. cbn [fst c_player] in Hs1.
    pose proof (updateProjectiles_player canvas (c_projectiles st)
                  (mkBattle (c_player st) enemies1 (c_gameState st))) as Hs2.
    rewrite Hp in Hs2. cbn [fst b_player] in Hs2.
    pose proof (auto_attack_position (b_player bt) (b_enemies bt) (currentTime f)) as Hs3.
    rewrite Ha in Hs3. cbn [fst] in Hs3.
    destruct (sameButGauge_fields _ _ Hs1) as (Hx1 & Hy1 & Hr1).
    destruct (sameButGauge_fields _ _ Hs2) as (Hx2 & Hy2 & Hr2).
    destruct Hs3 as (Hx3 & Hy3 & Hr3).
    unfold inBounds in *. rewrite Hx3, Hy3, Hr3, Hx2, Hy2, Hr2, Hx1, Hy1, Hr1.
    exact Hin.
Qed.

Lemma sample_tick_alive : 0 < drainedGauge sampleFrame (sampleGame 1).
Proof.
  unfold drainedGauge, BASE_DRAIN_RATE, DRAIN_RATE_PER_LEVEL. cbn. lra.
Qed.

Lemma player_stays_in_bounds_witness :
  inBounds sampleCanvas (playerRef (update (fun _ => 0) sampleFrame (sampleGame 1))).
Proof.
  apply (player_stays_in_bounds (fun _ => 0) sampleFrame (sampleGame 1) sampleCanvas).
  - reflexivity.
  - exact sample_tick_alive.
  - cbn. lra.
Defined.

(** ** Invariants of the enemy array *)

Lemma updateEnemy_vitals canvas deltaTime currentTime st enemy enemy' :
  snd (updateEnemy canvas deltaTime currentTime st enemy) = Some enemy' ->
  Enemy.health enemy' = Enemy.health enemy /\ Enemy.level enemy' = Enemy.level enemy.
Proof.
  unfold updateEnemy, contactDamage, hurt, cullEnemy, chase, flee, integrate.
  cbv zeta.
  destruct (Enemy.type enemy); [| | destruct (truthy (Enemy.exploded enemy)) |].
  all: decide_reals; cbn; intros H; try discriminate H.
  all: injection H as <-; cbn; split; reflexivity.
Qed.

Lemma updateEnemies_sound canvas deltaTime currentTime enemies :
  forall st,
  Forall sound enemies ->
  Forall sound (snd (updateEnemies canvas deltaTime currentTime st enemies)).
Proof.
  induction enemies as [| enemy later IH]; intros st Hall; cbn [updateEnemies].
  - constructor.
  - inversion Hall as [| ? ? Hhead Htail]; subst.
    specialize (IH st Htail).
    destruct (updateEnemies canvas deltaTime currentTime st later) as [s1 l1].
    destruct (updateEnemy canvas deltaTime currentTime s1 enemy) as [s2 o] eqn:Hstep.
    cbn [snd] in *. destruct o as [e' |]; [| exact IH].
    constructor; [| exact IH].
    destruct (updateEnemy_vitals canvas deltaTime currentTime s1 enemy e') as [Hh Hl];
      [rewrite Hstep; reflexivity |].
    unfold sound in *. rewrite Hh, Hl. exact Hhead.
Qed.

Lemma hitScan_sound projectile player enemies :
  forall player' enemies',
  Forall sound enemies ->
  hitScan projectile player enemies = Some (player', enemies') ->
  Forall sound enemies'.
Proof.
  induction enemies as [| enemy later IH]; intros player' enemies' Hall;
    cbn [hitScan]; [discriminate |].
  inversion Hall as [| ? ? Hhead Htail]; subst.
  destruct (hitScan projectile player later) as [[p1 l1] |].
  - intros [= <- <-]. constructor; [exact Hhead |]. apply (IH p1 l1 Htail eq_refl).
  - cbv zeta. destruct (Rlt_dec _ _); [| discriminate].
    destruct (Rle_dec _ _) as [Hdead | Halive]; intros [= <- <-]; [exact Htail |].
    constructor; [| exact Htail].
    destruct Hhead as [_ Hlevel]. split; [cbn in *; lra | exact Hlevel].
Qed.

Lemma sound_levels enemies :
  Forall sound enemies -> Forall (fun e => (0 <= Enemy.level e)%Z) enemies.
Proof. apply Forall_impl. intros e [_ H]. lia. Qed.

(** What the projectile loop keeps: sound enemies, a game that stays over
    once it is over, and a game state that has seen an empty gauge. *)
Lemma updateProjectiles_keeps canvas projectiles :
  forall st,
  Forall sound (b_enemies st) ->
  let st' := fst (updateProjectiles canvas st projectiles) in
  Forall sound (b_enemies st')
  /\ (b_gameState st = gameover -> b_gameState st' = gameover)
  /\ (deathSeen (b_player st) (b_gameState st) ->
      deathSeen (b_player st') (b_gameState st')).
Proof.
  induction projectiles as [| projectile later IH]; intros st Hall;
    cbn [updateProjectiles]; [cbn; tauto |].
  specialize (IH st Hall). cbv zeta in IH.
  destruct (updateProjectiles canvas st later) as [s1 l1]. cbn [fst] in IH.
  destruct IH as (Hsound & Hover & Hseen).
  destruct (updateProjectile canvas s1 projectile) as [s2 o] eqn:Hstep. cbn [fst].
  assert (Hs2 : Forall sound (b_enemies s2)
                /\ (b_gameState s1 = gameover -> b_gameState s2 = gameover)
                /\ (deathSeen (b_player s1) (b_gameState s1) ->
                    deathSeen (b_player s2) (b_gameState s2))).
  { replace s2 with (fst (updateProjectile canvas s1 projectile)) by now rewrite Hstep.
    unfold updateProjectile. cbv zeta.
    match goal with |- context [hitScan ?p ?pl ?l] =>
      destruct (truthy (Projectile.fromPlayer p));
        [destruct (hitScan p pl l) as [[p' l'] |] eqn:Hhit |] end.
    - cbn [fst b_enemies b_gameState b_player].
      split; [eapply hitScan_sound; [exact Hsound | exact Hhit] |].
      split; [tauto |].
      destruct (hitScan_effect _ _ _ _ _ Hhit) as (_ & _ & Hg).
      specialize (Hg (sound_levels _ Hsound)).
      unfold deathSeen. intros Hd Hz. apply Hd. lra.
    - cbn [fst]. tauto.
    - destruct (Rlt_dec _ _); [| cbn [fst]; tauto].
      unfold hurt, deathSeen. cbn.
      split; [exact Hsound |].
      destruct (Rle_dec _ 0); split; intros; try reflexivity; try tauto; lra. }
  destruct Hs2 as (H1 & H2 & H3). split; [exact H1 |]. split; tauto.
Qed.

Lemma updateEnemy_verdict canvas deltaTime currentTime st enemy :
  let st' := fst (updateEnemy canvas deltaTime currentTime st enemy) in
  (c_gameState st = gameover -> c_gameState st' = gameover)
  /\ (deathSeen (c_player st) (c_gameState st) ->
      deathSeen (c_player st') (c_gameState st')).
Proof.
  unfold updateEnemy, contactDamage, hurt, deathSeen. cbv zeta.
  destruct (Enemy.type enemy); [| | destruct (truthy (Enemy.exploded enemy)) |].
  all: decide_reals; cbn; split; intros; try reflexivity; try tauto; try lra.
Qed.

Lemma updateEnemies_verdict canvas deltaTime currentTime enemies :
  forall st,
  let st' := fst (updateEnemies canvas deltaTime currentTime st enemies) in
  (c_gameState st = gameover -> c_gameState st' = gameover)
  /\ (deathSeen (c_player st) (c_gameState st) ->
      deathSeen (c_player st') (c_gameState st')).
Proof.
  induction enemies as [| enemy later IH]; intros st; cbn [updateEnemies];
    [cbn; tauto |].
  specialize (IH st). cbv zeta in IH.
  destruct (updateEnemies canvas deltaTime currentTime st later) as [s1 l1].
  cbn [fst] in IH.
  pose proof (updateEnemy_verdict canvas deltaTime currentTime s1 enemy) as Hstep.
  cbv zeta in Hstep.
  destruct (updateEnemy canvas deltaTime currentTime s1 enemy) as [s2 o].
  cbn [fst] in *. tauto.
Qed.

Lemma attackLoop_sound fuel :
  forall i player enemies,
  Forall sound enemies ->
  Forall sound (snd (attackLoop fuel i player enemies)).
Proof.
  induction fuel as [| fuel IH]; intros i player enemies Hall; cbn [attackLoop];
    [exact Hall |].
  destruct (nth_error enemies i) as [enemy |] eqn:Hnth; [| exact Hall].
  assert (Henemy : sound enemy).
  { rewrite Forall_forall in Hall. apply Hall. eapply nth_error_In. exact Hnth. }
  destruct (attackEnemy i enemy player enemies) as [p' l'] eqn:Hbody.
  apply IH. revert Hbody. unfold attackEnemy. cbv zeta.
  destruct (Rlt_dec _ _); [| intros [= _ <-]; exact Hall].
  destruct (Rle_dec _ _) as [Hdead | Halive]; intros [= _ <-].
  - rewrite removeAt_setAt. apply Forall_removeAt. exact Hall.
  - apply Forall_setAt; [| exact Hall].
    destruct Henemy as [_ Hl]. split; [cbn in *; lra | exact Hl].
Qed.

Lemma spawnEnemyWave_sound canvas player score rand now k enemies :
  (0 <= score)%Z ->
  Forall sound enemies ->
  Forall sound (fst (spawnEnemyWave canvas player score rand now k enemies)).
Proof.
  intros Hscore Hall. destruct canvas as [canvas |]; cbn [spawnEnemyWave];
    [| exact Hall].
  destruct (spawnLoop_appends (Z.to_nat (waveCount player score)) canvas player
              score rand now 0 k enemies) as (wave & -> & _ & Hwave).
  apply Forall_app. split; [exact Hall |].
  eapply Forall_impl; [| exact Hwave].
  intros e (t & j & ->).
  destruct (spawnEnemy_fields canvas player score rand t j)
    as (_ & _ & _ & _ & Hh & _ & _ & Hl).
  cbv zeta in *. split; [| exact Hl]. rewrite Hh.
  assert (1 <= IZR (Enemy.level (fst (spawnEnemy canvas player score rand t j))))
    by (apply IZR_le; exact Hl).
  assert (0 <= IZR score / DIFFICULTY_SCALING_FACTOR).
  { apply IZR_le in Hscore. unfold DIFFICULTY_SCALING_FACTOR.
    apply Rmult_le_pos; [exact Hscore |]. left. apply Rinv_0_lt_compat. lra. }
  nra.
Qed.

Lemma tick_stages_sound canvas rand f g spawned lastSpawnTime st enemies1 bt
    projectiles1 player projectiles :
  (0 <= closureScore f)%Z ->
  Forall sound (enemiesRef g) ->
  (if Rgt_dec (currentTime f - lastSpawnTimeRef g) 2000
   then spawned = fst (spawnEnemyWave (Some canvas) player (closureScore f) rand
                         (spawnClock f) (randomCursor g) (enemiesRef g))
        /\ lastSpawnTime = currentTime f
   else spawned = enemiesRef g /\ lastSpawnTime = lastSpawnTimeRef g) ->
  updateEnemies canvas (deltaTime f) (currentTime f)
                (mkCombat player projectiles (gameState g)) spawned
  = (st, enemies1) ->
  updateProjectiles canvas (mkBattle (c_player st) enemies1 (c_gameState st))
                    (c_projectiles st)
  = (bt, projectiles1) ->
  Forall sound (b_enemies bt)
  /\ (gameState g = gameover -> b_gameState bt = gameover)
  /\ (deathSeen player (gameState g) -> deathSeen (b_player bt) (b_gameState bt)).
Proof.
  intros Hscore Hall Hspawn He Hp.
  assert (Hspawned : Forall sound spawned).
  { destruct (Rgt_dec _ _); destruct Hspawn as [-> _]; [| exact Hall].
    apply spawnEnemyWave_sound; assumption. }
  pose proof (updateEnemies_verdict canvas (deltaTime f) (currentTime f) spawned
                (mkCombat player projectiles (gameState g))) as Hv.
  pose proof (updateEnemies_sound canvas (deltaTime f) (currentTime f) spawned
                (mkCombat player projectiles (gameState g)) Hspawned) as Hs.
  cbv zeta in Hv. rewrite He in Hv, Hs. cbn [fst snd c_player c_gameState] in Hv, Hs.
  destruct Hv as [Hover1 Hseen1].
  pose proof (updateProjectiles_keeps canvas (c_projectiles st)
                (mkBattle (c_player st) enemies1 (c_gameState st)) Hs) as H2.
  cbv zeta in H2. rewrite Hp in H2. cbn [fst b_player b_gameState b_enemies] in H2.
  destruct H2 as (Hsound2 & Hover2 & Hseen2).
  split; [exact Hsound2 | split; tauto].
Qed.

Lemma autoAttack_keeps player enemies t :
  Forall sound enemies ->
  Forall sound (snd (autoAttack player enemies t))
  /\ Player.bloodGauge player <= Player.bloodGauge (fst (autoAttack player enemies t)).
Proof.
  intros Hall. unfold autoAttack. destruct (attackTriggers player t).
  - pose proof (attackLoop_sound (length enemies) 0 player enemies Hall) as Hs.
    pose proof (attackLoop_effect (length enemies) 0 player enemies) as He.
    cbv zeta in He. destruct He as (_ & _ & Hg).
    specialize (Hg (sound_levels _ Hall)).
    destruct (attackLoop _ _ _ _) as [p l]. cbn [fst snd] in *.
    split; [exact Hs | cbn; exact Hg].
  - cbn. split; [exact Hall | lra].
Qed.

Lemma moved_gauge canvas f g :
  Player.bloodGauge
    (movePlayer canvas
       (fst (autoFire
               (steerPlayer f (Player.set_bloodGauge (drainedGauge f g) (playerRef g)))
               (enemiesRef g) (projectilesRef g) (shootTime f))))
  = drainedGauge f g.
Proof.
  unfold movePlayer. cbn.
  destruct (autoFire_static
              (steerPlayer f (Player.set_bloodGauge (drainedGauge f g) (playerRef g)))
              (enemiesRef g) (projectilesRef g) (shootTime f))
    as (_ & _ & _ & _ & _ & ->).
  destruct (steerPlayer_static f
              (Player.set_bloodGauge (drainedGauge f g) (playerRef g)))
    as (_ & _ & _ & ->).
  reflexivity.
Qed.

Lemma update_invariants rand f g :
  (0 <= closureScore f)%Z ->
  Forall sound (enemiesRef g) ->
  let g' := update rand f g in
  Forall sound (enemiesRef g')
  /\ (gameState g = gameover -> gameState g' = gameover)
  /\ (canvasRef f <> None \/ deathSeen (playerRef g) (gameState g) ->
      deathSeen (playerRef g') (gameState g')).
Proof.
  intros Hscore Hall g'. subst g'.
  destruct (canvasRef f) as [canvas |] eqn:Hcanvas.
  2:{ unfold update. rewrite Hcanvas. split; [exact Hall | split; [tauto |]].
      intros [H | H]; [congruence | exact H]. }
  pose proof (update_cases rand f g canvas Hcanvas) as Hcases. cbv zeta in Hcases.
  destruct Hcases as [[_ ->] | [(_ & _ & ->) | (Halive & _ & Hrun)]];
    [split; [exact Hall | split; [intros _ | intros _ _]; reflexivity]
    | split; [exact Hall | split; [intros _ | intros _ _]; reflexivity] |].
  destruct Hrun as (spawned & cursor & lastSpawnTime & st & enemies1 & bt
                    & projectiles1 & p2 & enemies2 & Hspawn & He & Hp & Ha & ->).
  cbn [enemiesRef gameState playerRef].
  destruct (tick_stages_sound _ _ _ _ _ _ _ _ _ _ _ _ Hscore Hall Hspawn He Hp)
    as (Hsound & Hover & Hseen).
  destruct (autoAttack_keeps (b_player bt) (b_enemies bt) (currentTime f) Hsound)
    as (Hsound3 & Hgauge).
  rewrite Ha in Hsound3, Hgauge. cbn [fst snd] in Hsound3, Hgauge.
  split; [exact Hsound3 | split; [exact Hover |]].
  intros _ Hempty. apply Hseen; [| lra].
  unfold deathSeen. rewrite moved_gauge. intros. lra.
Qed.

(** X21. Across any number of ticks the enemy array holds no dead enemy
    and the game state keeps track of death. If, before the first tick,
    every enemy of the array is alive and of level at least 1 and an empty
    gauge would already have ended the game, and the score the spawn code
    reads is never negative, then the same holds after the last tick; and a
    game that was over stays over. *)
Theorem ticks_keep_invariants rand frames :
  forall g,
  Forall (fun f => (0 <= closureScore f)%Z) frames ->
  Forall sound (enemiesRef g) ->
  deathSeen (playerRef g) (gameState g) ->
  let g' := ticks rand frames g in
  Forall sound (enemiesRef g')
  /\ deathSeen (playerRef g') (gameState g')
  /\ (gameState g = gameover -> gameState g' = gameover).
Proof.
  unfold ticks. induction frames as [| f frames IH]; intros g Hscores Hall Hseen.
  - cbn. split; [exact Hall | split; [exact Hseen | tauto]].
  - cbn [fold_left]. inversion Hscores as [| ? ? Hscore Hrest]; subst.
    destruct (update_invariants rand f g Hscore Hall) as (Hall' & Hover' & Hseen').
    destruct (IH (update rand f g) Hrest Hall' (Hseen' (or_intror Hseen)))
      as (H1 & H2 & H3).
    split; [exact H1 | split; [exact H2 | tauto]].
Qed.

Lemma ticks_keep_invariants_witness :
  let g' := ticks (fun _ => 0) [sampleFrame; sampleFrame] (sampleGame 1) in
  Forall sound (enemiesRef g')
  /\ deathSeen (playerRef g') (gameState g')
  /\ (gameState (sampleGame 1) = gameover -> gameState g' = gameover).
Proof.
  apply (ticks_keep_invariants (fun _ => 0) [sampleFrame; sampleFrame] (sampleGame 1)).
  - repeat constructor; cbn; lia.
  - repeat constructor; cbn; lra || lia.
  - unfold deathSeen. cbn. intros H. exfalso. lra.
Defined.

(** X22. Death is never missed. On a mounted canvas, with only sound
    enemies in the array, a tick that ends with an empty gauge ends with
    the game over, whatever emptied the gauge: the drain, a touch, an
    explosion or a projectile. *)
Theorem update_sees_death rand f g canvas :
  canvasRef f = Some canvas ->
  Forall sound (enemiesRef g) ->
  (0 <= closureScore f)%Z ->
  Player.bloodGauge (playerRef (update rand f g)) <= 0 ->
  gameState (update rand f g) = gameover.
Proof.
  intros Hcanvas Hall Hscore.
  destruct (update_invariants rand f g Hscore Hall) as (_ & _ & Hseen).
  apply Hseen. left. congruence.
Qed.

Lemma update_sees_death_witness :
  gameState (update (fun _ => 0) sampleFrame
               (withPlayer (Player.set_bloodGauge 0 (playerRef (sampleGame 1)))
                           (sampleGame 1)))
  = gameover.
Proof.
  apply (update_sees_death (fun _ => 0) sampleFrame
           (withPlayer (Player.set_bloodGauge 0 (playerRef (sampleGame 1)))
                       (sampleGame 1)) sampleCanvas).
  - reflexivity.
  - repeat constructor; cbn; lra || lia.
  - cbn. lia.
  - assert (Hdrained : drainedGauge sampleFrame
                         (withPlayer (Player.set_bloodGauge 0 (playerRef (sampleGame 1)))
                                     (sampleGame 1)) <= 0).
    { unfold drainedGauge, BASE_DRAIN_RATE, DRAIN_RATE_PER_LEVEL. cbn. lra. }
    destruct (update_cases (fun _ => 0) sampleFrame
                (withPlayer (Player.set_bloodGauge 0 (playerRef (sampleGame 1)))
                            (sampleGame 1)) sampleCanvas eq_refl)
      as [[_ ->] | [(Halive & _) | (Halive & _)]]; [exact Hdrained | lra | lra].
Defined.

(** ** Camera, darkness and score *)

Lemma tick_position rand f g canvas :
  canvasRef f = Some canvas ->
  0 < drainedGauge f g ->
  samePosition
    (playerRef (update rand f g))
    (movePlayer canvas
       (fst (autoFire
               (steerPlayer f (Player.set_bloodGauge (drainedGauge f g) (playerRef g)))
               (enemiesRef g) (projectilesRef g) (shootTime f)))).
Proof.
  intros Hcanvas Halive.
  pose proof (update_cases rand f g canvas Hcanvas) as Hcases. cbv zeta in Hcases.
  destruct Hcases as [[Hdead _] | [(_ & _ & ->) | (_ & _ & Hrun)]].
  - lra.
  - repeat split.
  - destruct Hrun as (spawned & cursor & lastSpawnTime & st & enemies1 & bt
                      & projectiles1 & p2 & enemies2 & _ & He & Hp & Ha & ->).
    cbn [playerRef].
    match type of He with
    | updateEnemies _ _ _ ?s _ = _ =>
        pose proof (updateEnemies_player canvas (deltaTime f) (currentTime f)
                      spawned s) as Hs1
    end.
    rewrite He in Hs1. cbn [fst c_player] in Hs1.
    pose proof (updateProjectiles_player canvas (c_projectiles st)
                  (mkBattle (c_player st) enemies1 (c_gameState st))) as Hs2.
    rewrite Hp in Hs2. cbn [fst b_player] in Hs2.
    pose proof (auto_attack_position (b_player bt) (b_enemies bt) (currentTime f)) as Hs3.
    rewrite Ha in Hs3. cbn [fst] in Hs3.
    destruct (sameButGauge_fields _ _ Hs1) as (Hx1 & Hy1 & Hr1).
    destruct (sameButGauge_fields _ _ Hs2) as (Hx2 & Hy2 & Hr2).
    destruct Hs3 as (Hx3 & Hy3 & Hr3).
    unfold samePosition. rewrite Hx3, Hy3, Hr3, Hx2, Hy2, Hr2, Hx1, Hy1, Hr1.
    repeat split.
Qed.

Lemma tick_darkness rand f g canvas :
  canvasRef f = Some canvas ->
  0 < drainedGauge f g ->
  darknessYRef (update rand f g) = darknessYRef g - DARKNESS_RISE_SPEED.
Proof.
  intros Hcanvas Halive.
  pose proof (update_cases rand f g canvas Hcanvas) as Hcases. cbv zeta in Hcases.
  destruct Hcases as [[Hdead _] | [(_ & _ & ->) | (_ & _ & Hrun)]];
    [lra | reflexivity |].
  destruct Hrun as (spawned & cursor & lastSpawnTime & st & enemies1 & bt
                    & projectiles1 & p2 & enemies2 & _ & _ & _ & _ & ->).
  reflexivity.
Qed.

(** X23. The books of a tick. In a tick that survives the drain, the
    darkness rises by [DARKNESS_RISE_SPEED] whatever the frame time, and the
    camera ends centred on the player. If the darkness has reached the
    player, the game is over and score and enemies are left as they were;
    otherwise the score is the altitude of the camera in tens, never
    negative. *)
Theorem tick_bookkeeping rand f g canvas :
  canvasRef f = Some canvas ->
  0 < drainedGauge f g ->
  let g' := update rand f g in
  cameraYRef g' = Player.y (playerRef g') - height canvas / 2
  /\ darknessYRef g' = darknessYRef g - DARKNESS_RISE_SPEED
  /\ (darknessYRef g' <= Player.y (playerRef g') ->
      gameState g' = gameover /\ score g' = score g /\ enemiesRef g' = enemiesRef g)
  /\ (Player.y (playerRef g') < darknessYRef g' ->
      score g' = Z.max 0 (Zfloor (- cameraYRef g' / 10)) /\ (0 <= score g')%Z).
Proof.
  intros Hcanvas Halive g'.
  pose proof (tick_position rand f g canvas Hcanvas Halive) as (_ & Hy & _).
  pose proof (tick_darkness rand f g canvas Hcanvas Halive) as Hdark.
  fold g' in Hy, Hdark.
  pose proof (update_cases rand f g canvas Hcanvas) as Hcases. cbv zeta in Hcases.
  fold g' in Hcases.
  destruct Hcases as [[Hdead _] | [(_ & Hcaught & Hg') | (_ & Hfree & Hrun)]].
  - lra.
  - rewrite Hdark, Hy. rewrite Hg'. cbn [cameraYRef gameState score enemiesRef].
    split; [reflexivity | split; [reflexivity | split]].
    + intros _. repeat split.
    + intros Hlt. exfalso. lra.
  - destruct Hrun as (spawned & cursor & lastSpawnTime & st & enemies1 & bt
                      & projectiles1 & p2 & enemies2 & _ & _ & _ & _ & Hg').
    rewrite Hdark, Hy. rewrite Hg'. cbn [cameraYRef gameState score enemiesRef].
    split; [reflexivity | split; [reflexivity | split]].
    + intros Hle. exfalso. lra.
    + intros _. split; [reflexivity | apply Z.le_max_l].
Qed.

Lemma tick_bookkeeping_witness :
  let g' := update (fun _ => 0) sampleFrame (sampleGame 1) in
  cameraYRef g' = Player.y (playerRef g') - height sampleCanvas / 2
  /\ darknessYRef g' = darknessYRef (sampleGame 1) - DARKNESS_RISE_SPEED
  /\ (darknessYRef g' <= Player.y (playerRef g') ->
      gameState g' = gameover /\ score g' = score (sampleGame 1)
      /\ enemiesRef g' = enemiesRef (sampleGame 1))
  /\ (Player.y (playerRef g') < darknessYRef g' ->
      score g' = Z.max 0 (Zfloor (- cameraYRef g' / 10)) /\ (0 <= score g')%Z).
Proof.
  apply (tick_bookkeeping (fun _ => 0) sampleFrame (sampleGame 1) sampleCanvas).
  - reflexivity.
  - exact sample_tick_alive.
Defined.

(** ** Touch input and the start of a run *)

(** X24. A drag keeps the player inside the canvas. On a canvas at least
    as wide as the player's diameter, a touch move with a touch in progress
    leaves the player between the side edges and no lower than one radius
    above the bottom, and makes the touch the origin of the next move; when
    the dragged position is inside those bounds the player is exactly
    there. *)
Theorem touch_drag_in_bounds canvas origin touch player :
  2 * Player.radius player <= width canvas ->
  let r := handleTouchMove (Some canvas) (Some origin) touch player in
  let x := Player.x player + (Position.x touch - Position.x origin) in
  let y := Player.y player + (Position.y touch - Position.y origin) in
  inBounds canvas (fst r)
  /\ snd r = Some touch
  /\ Player.bloodGauge (fst r) = Player.bloodGauge player
  /\ (Player.radius player <= x <= width canvas - Player.radius player ->
      Player.x (fst r) = x)
  /\ (y <= height canvas - Player.radius player -> Player.y (fst r) = y).
Proof.
  intros Hwide. unfold handleTouchMove, inBounds. cbn.
  repeat split.
  - apply Rmax_l.
  - apply Rmax_lub; [lra | apply Rmin_l].
  - apply Rmin_l.
  - intros [Hlo Hhi]. rewrite Rmin_right by exact Hhi. apply Rmax_right. exact Hlo.
  - intros Hhi. apply Rmin_right. exact Hhi.
Qed.

Lemma touch_drag_in_bounds_witness :
  let r := handleTouchMove (Some sampleCanvas) (Some (Position.mk 10 10))
                           (Position.mk 1000 5) Player.initial in
  let x := Player.x Player.initial + (1000 - 10) in
  let y := Player.y Player.initial + (5 - 10) in
  inBounds sampleCanvas (fst r)
  /\ snd r = Some (Position.mk 1000 5)
  /\ Player.bloodGauge (fst r) = Player.bloodGauge Player.initial
  /\ (Player.radius Player.initial <= x <= width sampleCanvas - Player.radius Player.initial ->
      Player.x (fst r) = x)
  /\ (y <= height sampleCanvas - Player.radius Player.initial -> Player.y (fst r) = y).
Proof.
  apply (touch_drag_in_bounds sampleCanvas (Position.mk 10 10) (Position.mk 1000 5)
           Player.initial).
  cbn. lra.
Defined.

Lemma steerPlayer_vy f player :
  touchStartRef f = false ->
  Player.vy (steerPlayer f player) <= Rabs (moveSpeed player).
Proof.
  intros Htouch. unfold steerPlayer. cbv zeta. rewrite Htouch.
  pose proof (Rle_abs (moveSpeed player)).
  pose proof (Rle_abs (- moveSpeed player)) as Hneg. rewrite Rabs_Ropp in Hneg.
  pose proof (Rabs_pos (moveSpeed player)).
  destruct (ArrowLeft f), (ArrowRight f), (ArrowUp f), (ArrowDown f); cbn;
    assumption.
Qed.

(** X25. A new run starts empty and clear of the darkness. After the
    restart handler, the start from the title screen and the effect that
    sets up the run, the enemy array and the projectile array are empty
    (they are so after the restart handler already), the score and the
    camera are at 0 and the game is playing; and wherever
    the previous run left the darkness and however fast the player had
    become, the first tick with no touch in progress and a frame time
    under 100 seconds ends with the player above the darkness. *)
Theorem new_run_outruns_darkness rand f g canvas now :
  canvasRef f = Some canvas ->
  touchStartRef f = false ->
  deltaTime f < 100000 ->
  let fresh := startRun (Some canvas) now (beginRun (restart g)) in
  let g' := update rand f fresh in
  Player.y (playerRef g') < darknessYRef g'
  /\ enemiesRef fresh = [] /\ projectilesRef fresh = []
  /\ score fresh = 0%Z /\ cameraYRef fresh = 0 /\ gameState fresh = playing
  /\ enemiesRef (restart g) = [] /\ projectilesRef (restart g) = [].
Proof.
  intros Hcanvas Htouch Hdelta fresh g'.
  assert (Halive : 0 < drainedGauge f fresh).
  { unfold drainedGauge, BASE_DRAIN_RATE, DRAIN_RATE_PER_LEVEL. cbn. lra. }
  pose proof (tick_position rand f fresh canvas Hcanvas Halive) as (_ & Hy & _).
  pose proof (tick_darkness rand f fresh canvas Hcanvas Halive) as Hdark.
  fold g' in Hy, Hdark. rewrite Hy, Hdark.
  split; [| repeat split].
  set (p0 := Player.set_bloodGauge (drainedGauge f fresh) (playerRef fresh)).
  unfold movePlayer. cbn [Player.y Player.set_y Player.set_x Player.radius].
  destruct (autoFire_static (steerPlayer f p0) (enemiesRef fresh) (projectilesRef fresh)
              (shootTime f)) as (_ & Hfy & _ & Hfvy & _ & _).
  pose proof (steerPlayer_vy f p0 Htouch) as Hvy.
  destruct (steerPlayer_static f p0) as (_ & Hsy & _ & _).
  assert (Hspeed : moveSpeed p0 = 5).
  { unfold moveSpeed, MOVEMENT_SPEED_INCREASE_PER_LEVEL. cbn. lra. }
  rewrite Hspeed in Hvy. rewrite Rabs_pos_eq in Hvy by lra.
  assert (Hp0 : Player.y p0 = height canvas / 2) by reflexivity.
  assert (Hd : darknessYRef fresh = height canvas / 2 + DARKNESS_START_OFFSET)
    by reflexivity.
  rewrite Hd. unfold DARKNESS_START_OFFSET, DARKNESS_RISE_SPEED.
  eapply Rle_lt_trans; [apply Rmin_r |].
  cbn [Player.y Player.set_y Player.set_x Player.vy] .
  rewrite Hfy, Hfvy, Hsy, Hp0. lra.
Qed.

Lemma new_run_outruns_darkness_witness :
  let fresh := startRun (Some sampleCanvas) 0 (beginRun (restart (sampleGame 1))) in
  let g' := update (fun _ => 0) sampleFrame fresh in
  Player.y (playerRef g') < darknessYRef g'
  /\ enemiesRef fresh = [] /\ projectilesRef fresh = []
  /\ score fresh = 0%Z /\ cameraYRef fresh = 0 /\ gameState fresh = playing
  /\ enemiesRef (restart (sampleGame 1)) = []
  /\ projectilesRef (restart (sampleGame 1)) = [].
Proof.
  apply (new_run_outruns_darkness (fun _ => 0) sampleFrame (sampleGame 1) sampleCanvas 0).
  - reflexivity.
  - reflexivity.
  - cbn. lra.
Defined.

Lemma steerPlayer_rest f player :
  ArrowLeft f = false -> ArrowRight f = false ->
  ArrowUp f = false -> ArrowDown f = false ->
  Player.vx player = 0 -> Player.vy player = 0 ->
  Player.vx (steerPlayer f player) = 0 /\ Player.vy (steerPlayer f player) = 0.
Proof.
  intros Hl Hr Hu Hd Hvx Hvy. unfold steerPlayer. cbv zeta.
  rewrite Hl, Hr, Hu, Hd. destruct (touchStartRef f); cbn; split;
    assumption || reflexivity.
Qed.

(** X26. Lifting the finger stops the player. After the touch-end handler,
    which clears the touch origin, a tick with no arrow key held leaves a
    player that was inside the canvas exactly where it was, whether or not
    the frame still sees a touch in progress. *)
Theorem touch_end_stops_player rand f g canvas :
  canvasRef f = Some canvas ->
  ArrowLeft f = false -> ArrowRight f = false ->
  ArrowUp f = false -> ArrowDown f = false ->
  inBounds canvas (playerRef g) ->
  0 < drainedGauge f g ->
  let rested := withPlayer (fst (handleTouchEnd (playerRef g))) g in
  samePosition (playerRef (update rand f rested)) (playerRef g)
  /\ snd (handleTouchEnd (playerRef g)) = None.
Proof.
  intros Hcanvas Hl Hr Hu Hd [[Hlo Hhi] Hy] Halive rested.
  split; [| reflexivity].
  assert (Halive' : 0 < drainedGauge f rested) by exact Halive.
  pose proof (tick_position rand f rested canvas Hcanvas Halive') as (Hpx & Hpy & Hpr).
  set (p0 := Player.set_bloodGauge (drainedGauge f rested) (playerRef rested)) in *.
  destruct (autoFire_static (steerPlayer f p0) (enemiesRef rested)
              (projectilesRef rested) (shootTime f))
    as (Hfx & Hfy & Hfvx & Hfvy & Hfr & _).
  destruct (steerPlayer_static f p0) as (Hsx & Hsy & Hsr & _).
  destruct (steerPlayer_rest f p0 Hl Hr Hu Hd eq_refl eq_refl) as (Hsvx & Hsvy).
  unfold samePosition. rewrite Hpx, Hpy, Hpr. unfold movePlayer.
  cbn [Player.x Player.y Player.vx Player.vy Player.radius Player.set_x Player.set_y].
  rewrite Hfx, Hfy, Hfvx, Hfvy, Hfr, Hsx, Hsy, Hsr, Hsvx, Hsvy.
  change (Player.x p0) with (Player.x (playerRef g)).
  change (Player.y p0) with (Player.y (playerRef g)).
  change (Player.radius p0) with (Player.radius (playerRef g)).
  rewrite !Rplus_0_r.
  rewrite (Rmin_right (width canvas - Player.radius (playerRef g))
             (Player.x (playerRef g))) by lra.
  rewrite (Rmax_right (Player.radius (playerRef g)) (Player.x (playerRef g))) by lra.
  rewrite (Rmin_right (height canvas - Player.radius (playerRef g))
             (Player.y (playerRef g))) by lra.
  repeat split.
Qed.

Lemma touch_end_stops_player_witness :
  let rested :=
    withPlayer (fst (handleTouchEnd (playerRef (sampleGame 1)))) (sampleGame 1) in
  samePosition (playerRef (update (fun _ => 0) sampleFrame rested))
               (playerRef (sampleGame 1))
  /\ snd (handleTouchEnd (playerRef (sampleGame 1))) = None.
Proof.
  apply (touch_end_stops_player (fun _ => 0) sampleFrame (sampleGame 1) sampleCanvas);
    try reflexivity.
  - unfold inBounds. cbn. lra.
  - exact sample_tick_alive.
Defined.
